(** * DefectSpotter: the detection-stream post-processing pipeline

    A shallow embedding of the filter chain of [src/services/gemini.ts]
    (class [GeminiLiveClient]) and of [src/services/forensicTypes.ts]
    (class [ForensicLiveClient]): box normalisation and validation,
    deduplication, temporal consistency, non-maximum suppression and the
    session reset.

    Modelling conventions.
    - Numbers.  The chain is embedded twice.  In the first embedding a
      JavaScript [number] is an exact rational ([Q]), comparisons are the
      boolean tests below and equality of computed numbers is [Qeq] ([==]);
      NaN, infinities and rounding are outside of it.  It carries the
      properties that no rounding can change: the order of the stages, the
      invariants of the state, the geometry of normalised boxes.  In the
      second embedding, module [Binary64], a [number] is what it is in the
      program: a binary64 floating-point number ([PrimFloat.float]) whose
      operations round to nearest and whose comparisons are false on NaN.
      It carries the properties that are decided at a threshold: the
      validation of a box, deduplication, temporal consistency and
      non-maximum suppression.
    - [Date.now()] is an explicit argument [now : Z] (epoch milliseconds);
      in the filter chain one message is processed at one instant.
    - Mutable fields of the client become an explicit state record that every
      operation takes and returns.
    - A type label is a [string], a sequence of UTF-16 code units below 256;
      [toLowerCase] folds the upper-case letters of that range. *)

From Stdlib Require Import Reals Qreals Lra.
From Stdlib Require Floats DecimalPos DecimalZ.
From Stdlib Require Import ZArith QArith Qminmax Qround Qabs Lia Lqa.
From Stdlib Require Import List Bool String Ascii DecimalString Sorted
  Permutation.
Import ListNotations.

Local Open Scope Q_scope.
Set Warnings "-inexact-float".

(** ** Numbers *)

(** The JavaScript comparison operators on numbers. *)
Definition Qleb (x y : Q) : bool := Qle_bool x y.
Definition Qltb (x y : Q) : bool := negb (Qle_bool y x).
Definition Qgeb (x y : Q) : bool := Qle_bool y x.
Definition Qgtb (x y : Q) : bool := negb (Qle_bool x y).

(** [Math.round]: the nearest integer, ties towards plus infinity. *)
Definition Math_round (x : Q) : Z := Qfloor (x + (1 # 2)).

(** ** Geometry *)

(** The object type [{ ymin; xmin; ymax; xmax }] of the source. *)
Record BBox : Type := mkBBox {
  ymin : Q;
  xmin : Q;
  ymax : Q;
  xmax : Q
}.

(** Componentwise equality of the four numbers. *)
Definition bbox_eq (a b : BBox) : Prop :=
  ymin a == ymin b /\ xmin a == xmin b /\
  ymax a == ymax b /\ xmax a == xmax b.

(** The NormalizedBox invariant of the data model. *)
Definition normalized (b : BBox) : Prop :=
  (0 <= ymin b /\ ymin b <= 1) /\ (0 <= xmin b /\ xmin b <= 1) /\
  (0 <= ymax b /\ ymax b <= 1) /\ (0 <= xmax b /\ xmax b <= 1) /\
  ymin b < ymax b /\ xmin b < xmax b.

(** A box whose sides are not inverted. *)
Definition oriented (b : BBox) : Prop :=
  xmin b <= xmax b /\ ymin b <= ymax b.

Definition boxArea (b : BBox) : Q :=
  (xmax b - xmin b) * (ymax b - ymin b).

Definition intersectionArea (box1 box2 : BBox) : Q :=
  let xA := Qmax (xmin box1) (xmin box2) in
  let yA := Qmax (ymin box1) (ymin box2) in
  let xB := Qmin (xmax box1) (xmax box2) in
  let yB := Qmin (ymax box1) (ymax box2) in
  Qmax 0 (xB - xA) * Qmax 0 (yB - yA).

Definition unionArea (box1 box2 : BBox) : Q :=
  boxArea box1 + boxArea box2 - intersectionArea box1 box2.

(** [calculateIoU] (gemini.ts, lines 212-227), in exact arithmetic; with the
    rounding of the program it is [Binary64.calculateIoU]. *)
Definition calculateIoU (box1 box2 : BBox) : Q :=
  let xA := Qmax (xmin box1) (xmin box2) in
  let yA := Qmax (ymin box1) (ymin box2) in
  let xB := Qmin (xmax box1) (xmax box2) in
  let yB := Qmin (ymax box1) (ymax box2) in
  let intersection := Qmax 0 (xB - xA) * Qmax 0 (yB - yA) in
  let box1Area := (xmax box1 - xmin box1) * (ymax box1 - ymin box1) in
  let box2Area := (xmax box2 - xmin box2) * (ymax box2 - ymin box2) in
  let union := box1Area + box2Area - intersection in
  if Qgtb union 0 then intersection / union else 0.

(** ** Strings *)

(** A string is a sequence of UTF-16 code units below 256 (Basic Latin and
    Latin-1 Supplement), one [ascii] each.  In that range the upper-case
    letters are A-Z (65-90) and the letters from U+00C0 to U+00DE except the
    multiplication sign U+00D7 (192-214, 216-222); the lower-case form of
    each is 32 code units above it. *)
Definition isUpperCase (c : ascii) : bool :=
  let n := nat_of_ascii c in
  ((65 <=? n) && (n <=? 90) || (192 <=? n) && (n <=? 222) && negb (n =? 215))
    %nat.

(** [String.prototype.toLowerCase], one code unit at a time. *)
Definition lower_ascii (c : ascii) : ascii :=
  if isUpperCase c then ascii_of_nat (nat_of_ascii c + 32) else c.

Fixpoint toLowerCase (s : string) : string :=
  match s with
  | EmptyString => EmptyString
  | String c rest => String (lower_ascii c) (toLowerCase rest)
  end.

(** [a.toLowerCase() === b.toLowerCase()]. *)
Definition sameType (a b : string) : bool :=
  String.eqb (toLowerCase a) (toLowerCase b).

(** The decimal rendering of an integer inside a template literal. *)
Definition Z_to_string (z : Z) : string :=
  NilZero.string_of_int (Z.to_int z).

(** ** Labels up to case, in the words of the specification *)

(** The code of an upper-case letter among the code units below 256. *)
Definition upperCaseCode (n : nat) : Prop :=
  (65 <= n <= 90 \/ 192 <= n <= 214 \/ 216 <= n <= 222)%nat.

(** Two code units are the same letter up to case: they are equal, or one is
    an upper-case letter and the other its lower-case form, 32 above. *)
Definition sameLetter (c1 c2 : ascii) : Prop :=
  c1 = c2 \/
  (upperCaseCode (nat_of_ascii c1)
   /\ nat_of_ascii c2 = (nat_of_ascii c1 + 32)%nat) \/
  (upperCaseCode (nat_of_ascii c2)
   /\ nat_of_ascii c1 = (nat_of_ascii c2 + 32)%nat).

(** Two labels are the same type "case-insensitively": they have the same
    length and the same letters up to case, position by position. *)
Inductive equalIgnoringCase : string -> string -> Prop :=
| eic_empty : equalIgnoringCase "" ""
| eic_letter c1 c2 s1 s2 :
    sameLetter c1 c2 -> equalIgnoringCase s1 s2 ->
    equalIgnoringCase (String c1 s1) (String c2 s2).


(** ** Square roots

    The only use of [Math.sqrt] is the test [Math.sqrt(s) < t] on a sum of
    squares [s].  On rationals it is decided without extracting the root:
    the root of a non-negative [s] is below [t] exactly when [t] is positive
    and [s < t * t] (lemma [sqrt_ltb_spec] below relates this to the real
    square root).  The test of the program, on the rounded root of the
    rounded sum, is in [Binary64.scanRecent]. *)
Definition sqrt_ltb (s t : Q) : bool := Qgtb t 0 && Qltb s (t * t).

(** ** Deduplication (gemini.ts lines 346-385, forensicTypes.ts lines 217-247) *)

Record RecentDetection : Type := mkRecent {
  rd_defectType : string;
  rd_bbox : option BBox;
  rd_timestamp : Z
}.

(** [Math.pow(centerX1 - centerX2, 2) + Math.pow(centerY1 - centerY2, 2)]. *)
Definition centerDistanceSq (bbox recent : BBox) : Q :=
  let centerX1 := (xmin bbox + xmax bbox) / 2 in
  let centerY1 := (ymin bbox + ymax bbox) / 2 in
  let centerX2 := (xmin recent + xmax recent) / 2 in
  let centerY2 := (ymin recent + ymax recent) / 2 in
  (centerX1 - centerX2) ^ 2 + (centerY1 - centerY2) ^ 2.

Section Dedup.
(** The two clients carry their own copies of the same method, which differ
    in the two constants only. *)
Variable DEDUP_TIME_WINDOW_MS : Z.
Variable DEDUP_SPATIAL_TOLERANCE : Q.

(** The filter "clean old detections". *)
Definition pruneRecent (now : Z) (l : list RecentDetection)
  : list RecentDetection :=
  filter (fun d => (now - rd_timestamp d <? DEDUP_TIME_WINDOW_MS)%Z) l.

(** The loop "check for duplicates". *)
Fixpoint scanRecent (defectType : string) (bbox : option BBox)
         (l : list RecentDetection) : bool :=
  match l with
  | [] => false
  | recent :: rest =>
      if negb (sameType (rd_defectType recent) defectType)
      then scanRecent defectType bbox rest
      else
        match bbox, rd_bbox recent with
        | Some b, Some rb =>
            if sqrt_ltb (centerDistanceSq b rb) DEDUP_SPATIAL_TOLERANCE
            then true
            else scanRecent defectType bbox rest
        | _, _ => true
        end
  end.

(** [isDuplicate]: the answer and the pruned list. *)
Definition isDuplicateWith (now : Z) (defectType : string)
           (bbox : option BBox) (recentDetections : list RecentDetection)
  : bool * list RecentDetection :=
  let recentDetections := pruneRecent now recentDetections in
  (scanRecent defectType bbox recentDetections, recentDetections).
End Dedup.

(** [trackDetection]. *)
Definition trackDetection (now : Z) (defectType : string) (bbox : option BBox)
           (recentDetections : list RecentDetection) : list RecentDetection :=
  recentDetections ++ [mkRecent defectType bbox now].

(** ** Temporal consistency (gemini.ts lines 229-286) *)

Definition TEMPORAL_WINDOW_MS : Z := 3000.
Definition IOU_THRESHOLD : Q := 25 # 100.

Record TemporalDetection : Type := mkTemporal {
  td_defectType : string;
  td_bbox : BBox;
  td_confidence : Q;
  td_frameCount : Z;
  td_firstSeen : Z;
  td_lastSeen : Z
}.

(** The returned object [{ isConfirmed, frameCount }]. *)
Record TemporalResult : Type := mkTemporalResult {
  isConfirmed : bool;
  frameCount : Z
}.

(** A [Map<string, TemporalDetection>]: the entries in insertion order, which
    is the order of iteration. *)
Definition TemporalBuffer : Type := list (string * TemporalDetection).

(** [Map.prototype.set]: an existing key keeps its place. *)
Fixpoint mapSet {V : Type} (key : string) (v : V) (m : list (string * V))
  : list (string * V) :=
  match m with
  | [] => [(key, v)]
  | (k, d) :: rest =>
      if String.eqb k key then (k, v) :: rest else (k, d) :: mapSet key v rest
  end.

(** The spatial key of the exact centre; the key that the program computes,
    from the rounded centre, is [Binary64.generateSpatialKey]. *)
Definition generateSpatialKey (defectType : string) (bbox : BBox) : string :=
  let centerX := Math_round ((xmin bbox + xmax bbox) / 2 * 10) in
  let centerY := Math_round ((ymin bbox + ymax bbox) / 2 * 10) in
  (toLowerCase defectType ++ "_" ++ Z_to_string centerX ++ "_"
     ++ Z_to_string centerY)%string.

(** The loop "clean old entries". *)
Definition cleanTemporal (now : Z) (m : TemporalBuffer) : TemporalBuffer :=
  filter (fun e => negb (now - td_lastSeen (snd e) >? TEMPORAL_WINDOW_MS)%Z) m.

(** The test of the second loop: same type and enough overlap. *)
Definition temporalMatch (defectType : string) (bbox : BBox)
           (detection : TemporalDetection) : bool :=
  sameType (td_defectType detection) defectType
  && Qgeb (calculateIoU (td_bbox detection) bbox) IOU_THRESHOLD.

(** The in-place update of a matching entry. *)
Definition temporalUpdate (now : Z) (confidence : Q)
           (detection : TemporalDetection) : TemporalDetection :=
  {| td_defectType := td_defectType detection;
     td_bbox := td_bbox detection;
     td_confidence := Qmax (td_confidence detection) confidence;
     td_frameCount := td_frameCount detection + 1;
     td_firstSeen := td_firstSeen detection;
     td_lastSeen := now |}.

Section Temporal.
(** [TEMPORAL_THRESHOLD] is 1 in the source; the method is written for any
    value of the constant. *)
Variable TEMPORAL_THRESHOLD : Z.

(** The loop "check for existing similar detection": the first matching
    entry is updated and the loop returns. *)
Fixpoint scanTemporal (now : Z) (defectType : string) (bbox : BBox)
         (confidence : Q) (m : TemporalBuffer)
  : option (TemporalResult * TemporalBuffer) :=
  match m with
  | [] => None
  | (existingKey, detection) :: rest =>
      if temporalMatch defectType bbox detection then
        let detection := temporalUpdate now confidence detection in
        Some ({| isConfirmed :=
                   (td_frameCount detection >=? TEMPORAL_THRESHOLD)%Z;
                 frameCount := td_frameCount detection |},
              (existingKey, detection) :: rest)
      else
        match scanTemporal now defectType bbox confidence rest with
        | Some (r, rest') => Some (r, (existingKey, detection) :: rest')
        | None => None
        end
  end.

Definition checkTemporalConsistencyAt (now : Z) (defectType : string)
           (bbox : BBox) (confidence : Q) (temporalBuffer : TemporalBuffer)
  : TemporalResult * TemporalBuffer :=
  let temporalBuffer := cleanTemporal now temporalBuffer in
  match scanTemporal now defectType bbox confidence temporalBuffer with
  | Some res => res
  | None =>
      let key := generateSpatialKey defectType bbox in
      ({| isConfirmed := (TEMPORAL_THRESHOLD <=? 1)%Z; frameCount := 1 |},
       mapSet key
         {| td_defectType := defectType;
            td_bbox := bbox;
            td_confidence := confidence;
            td_frameCount := 1;
            td_firstSeen := now;
            td_lastSeen := now |}
         temporalBuffer)
  end.
End Temporal.

(** ** Non-maximum suppression (gemini.ts lines 288-343) *)

Definition NMS_IOU_THRESHOLD : Q := 5 # 10.
Definition NMS_WINDOW_MS : Z := 5000.

Record ConfirmedDetection : Type := mkConfirmed {
  cd_defectType : string;
  cd_bbox : BBox;
  cd_confidence : Q;
  cd_timestamp : Z
}.

(** The filter "clean old confirmed detections". *)
Definition pruneConfirmed (now : Z) (l : list ConfirmedDetection)
  : list ConfirmedDetection :=
  filter (fun d => (now - cd_timestamp d <? NMS_WINDOW_MS)%Z) l.

(** The test inside the suppression loop. *)
Definition suppressedBy (bbox : BBox) (confidence : Q)
           (confirmed : ConfirmedDetection) : bool :=
  Qgeb (calculateIoU (cd_bbox confirmed) bbox) NMS_IOU_THRESHOLD
  && Qleb confidence (cd_confidence confirmed).

(** [shouldSuppressNMS]: the answer and the pruned list. *)
Definition shouldSuppressNMS (now : Z) (defectType : string) (bbox : BBox)
           (confidence : Q) (confirmedDetections : list ConfirmedDetection)
  : bool * list ConfirmedDetection :=
  let confirmedDetections := pruneConfirmed now confirmedDetections in
  (existsb (suppressedBy bbox confidence) confirmedDetections,
   confirmedDetections).

(** The predicate of the filter in [trackConfirmedDetection]: [false] removes
    the old detection. *)
Definition survivesTrack (bbox : BBox) (confidence : Q)
           (d : ConfirmedDetection) : bool :=
  if Qgeb (calculateIoU (cd_bbox d) bbox) NMS_IOU_THRESHOLD
     && Qltb (cd_confidence d) confidence
  then false else true.

Definition trackConfirmedDetection (now : Z) (defectType : string)
           (bbox : BBox) (confidence : Q)
           (confirmedDetections : list ConfirmedDetection)
  : list ConfirmedDetection :=
  filter (survivesTrack bbox confidence) confirmedDetections
    ++ [mkConfirmed defectType bbox confidence now].

(** ** Raw payloads

    The value that [JSON.parse] returns.  An absent field reads as
    [JUndefined]; the contents of nested objects are never inspected. *)
#[warnings="-register-all"]
Inductive JSValue : Type :=
| JUndefined
| JNull
| JBool (b : bool)
| JNum (n : Q)
| JStr (s : string)
| JArr (elements : list JSValue)
| JObj.

(** Truthiness, as tested by [if (v)], [!v] and [v || w]. *)
Definition truthy (v : JSValue) : bool :=
  match v with
  | JUndefined | JNull => false
  | JBool b => b
  | JNum n => negb (Qeq_bool n 0)
  | JStr s => negb (String.eqb s "")
  | JArr _ | JObj => true
  end.

Definition isArray (v : JSValue) : bool :=
  match v with JArr _ => true | _ => false end.

(** The fields of the parsed object that the filter chain reads. *)
Record Payload : Type := mkPayload {
  p_type : JSValue;
  p_defectType : JSValue;
  p_confidence : JSValue;
  p_box_2d : JSValue
}.

(** ** Box normalisation and validation (gemini.ts lines 628-707) *)

(** [Math.max(0, Math.min(1, v))]. *)
Definition clamp01 (v : Q) : Q := Qmax 0 (Qmin 1 v).

(** The sanity check of line 674. *)
Definition degenerateBox (boundingBox : BBox) : bool :=
  Qleb (ymax boundingBox) (ymin boundingBox)
  || Qleb (xmax boundingBox) (xmin boundingBox).

(** Lines 642-677: scale detection, un-inverting, clamping and the sanity
    check on the dimensions. *)
Definition normalizeBox (ymin xmin ymax xmax : Q) : option BBox :=
  let maxCoord := Qmax (Qmax (Qmax ymin xmin) ymax) xmax in
  let '(ymin, xmin, ymax, xmax) :=
    if Qgtb maxCoord 100 then
      (ymin / 1000, xmin / 1000, ymax / 1000, xmax / 1000)
    else if Qgtb maxCoord 1 then
      (ymin / 100, xmin / 100, ymax / 100, xmax / 100)
    else (ymin, xmin, ymax, xmax) in
  let '(ymin, ymax) := if Qgtb ymin ymax then (ymax, ymin) else (ymin, ymax) in
  let '(xmin, xmax) := if Qgtb xmin xmax then (xmax, xmin) else (xmin, xmax) in
  let boundingBox :=
    {| ymin := clamp01 ymin; xmin := clamp01 xmin;
       ymax := clamp01 ymax; xmax := clamp01 xmax |} in
  if degenerateBox boundingBox then None else Some boundingBox.

(** Lines 661-677 alone, on values that are already scaled. *)
Definition orientAndClamp (a b c d : Q) : option BBox :=
  let '(lo_y, hi_y) := if Qgtb a c then (c, a) else (a, c) in
  let '(lo_x, hi_x) := if Qgtb b d then (d, b) else (b, d) in
  let boundingBox :=
    {| ymin := clamp01 lo_y; xmin := clamp01 lo_x;
       ymax := clamp01 hi_y; xmax := clamp01 hi_x |} in
  if degenerateBox boundingBox then None else Some boundingBox.

(** Lines 680-705: the strict validation of a box that passed the sanity
    check, on the exact area and aspect ratio; the validation of the
    program, on the rounded ones, is [Binary64.validateBox]. *)
Definition validateBox (boundingBox : BBox) : option BBox :=
  let boxWidth := xmax boundingBox - xmin boundingBox in
  let boxHeight := ymax boundingBox - ymin boundingBox in
  let area := boxWidth * boxHeight in
  let aspectRatio := Qmax boxWidth boxHeight / Qmin boxWidth boxHeight in
  if Qltb area (1 # 1000) then None
  else if Qgtb area (70 # 100) then None
  else if Qgtb aspectRatio 15 then None
  else Some boundingBox.

(** Lines 628-707: the bounding box of a payload, if any. *)
Definition parseBox (box_2d : JSValue) : option BBox :=
  match box_2d with
  | JArr (JNum ymin :: JNum xmin :: JNum ymax :: JNum xmax :: _) =>
      match normalizeBox ymin xmin ymax xmax with
      | Some boundingBox => validateBox boundingBox
      | None => None
      end
  | _ => None
  end.

(** ** The property-defect client (gemini.ts) *)

Definition DEDUP_TIME_WINDOW_MS : Z := 30000.
Definition DEDUP_SPATIAL_TOLERANCE : Q := 15 # 100.
Definition MIN_CONFIDENCE_THRESHOLD : Q := 60.
Definition TEMPORAL_THRESHOLD : Z := 1.

(** The rolling state of a [GeminiLiveClient]. *)
Record ClientState : Type := mkClient {
  recentDetections : list RecentDetection;
  temporalBuffer : TemporalBuffer;
  confirmedDetections : list ConfirmedDetection;
  isReady : bool
}.

Definition isDuplicate := isDuplicateWith DEDUP_TIME_WINDOW_MS DEDUP_SPATIAL_TOLERANCE.

Definition checkTemporalConsistency := checkTemporalConsistencyAt TEMPORAL_THRESHOLD.

(** The fields of the object given to [addDefect] that come out of the
    filter chain. *)
Record Defect : Type := mkDefect {
  d_timestamp : Z;
  d_type : string;
  d_boundingBox : option BBox;
  d_confidence : Q
}.

(** Why a message produced no defect. *)
Inductive DropReason : Type :=
| Threw               (* an exception reached the [catch] *)
| ClearFrame          (* [type] is "clear" or no [defectType] *)
| MissingDefectType
| LowConfidence
| Duplicate
| AwaitingConfirmation
| SuppressedByNMS.

Inductive Outcome : Type :=
| Dropped (reason : DropReason)
| Emitted (defect : Defect).

(** The confidence of a payload: lines 609-619. *)
Definition parseConfidence (v : JSValue) : Q :=
  let confidence := match v with JNum n => n | _ => 70 end in
  Qmax 0 (Qmin 100 confidence).

(** [parseDefectResponse], from the parsed object on.  The debug log of line
    593 calls [data.box_2d.join], which throws when [box_2d] is truthy and
    not an array. *)
Definition parseDefectResponse (now : Z) (data : Payload) (st : ClientState)
  : Outcome * ClientState :=
  if truthy (p_box_2d data) && negb (isArray (p_box_2d data))
  then (Dropped Threw, st)
  else
  if match p_type data with JStr t => String.eqb t "clear" | _ => false end
     || negb (truthy (p_defectType data))
  then (Dropped ClearFrame, st)
  else
  match p_defectType data with
  | JStr defectType =>
      let confidence := parseConfidence (p_confidence data) in
      if Qltb confidence MIN_CONFIDENCE_THRESHOLD
      then (Dropped LowConfidence, st)
      else
      let boundingBox := parseBox (p_box_2d data) in
      let '(dup, recent) :=
        isDuplicate now defectType boundingBox (recentDetections st) in
      if dup then
        (Dropped Duplicate,
         mkClient recent (temporalBuffer st) (confirmedDetections st)
                  (isReady st))
      else
      let finish (buffer : TemporalBuffer)
                 (confirmed : list ConfirmedDetection) :=
        (Emitted (mkDefect now defectType boundingBox confidence),
         mkClient (trackDetection now defectType boundingBox recent)
                  buffer confirmed (isReady st)) in
      match boundingBox with
      | Some bbox =>
          let '(temporal, buffer) :=
            checkTemporalConsistency now defectType bbox confidence
                                     (temporalBuffer st) in
          if negb (isConfirmed temporal) then
            (Dropped AwaitingConfirmation,
             mkClient recent buffer (confirmedDetections st) (isReady st))
          else
          let '(suppress, confirmed) :=
            shouldSuppressNMS now defectType bbox confidence
                              (confirmedDetections st) in
          if suppress then
            (Dropped SuppressedByNMS,
             mkClient recent buffer confirmed (isReady st))
          else
            finish buffer
                   (trackConfirmedDetection now defectType bbox confidence
                                            confirmed)
      | None => finish (temporalBuffer st) (confirmedDetections st)
      end
  | _ => (Dropped MissingDefectType, st)
  end.

(** [GeminiLiveClient.stop]: the caches are cleared for the next session. *)
Definition stop (st : ClientState) : ClientState :=
  {| recentDetections := [];
     temporalBuffer := [];
     confirmedDetections := [];
     isReady := false |}.

(** ** The forensic client (forensicTypes.ts) *)

Module Forensic.

Definition DEDUP_TIME_WINDOW_MS : Z := 45000.
Definition DEDUP_SPATIAL_TOLERANCE : Q := 12 # 100.
Definition MIN_CONFIDENCE_THRESHOLD : Q := 70.

(** The fields of a raw evidence object that the handler reads.  The label
    is absent or a string. *)
Record EvidencePayload : Type := mkEvidencePayload {
  p_evidenceType : option string;
  p_confidence : JSValue;
  p_box_2d : JSValue
}.

(** The fields of a [ForensicEvidence] that come out of the filter. *)
Record ForensicEvidence : Type := mkEvidence {
  e_evidenceType : string;
  e_confidence : Q;
  e_boundingBox : option BBox;
  e_timestamp : Z
}.

(** The rolling state of a [ForensicLiveClient]: the evidence of the open
    session, if one is open, and the deduplication list (whose records
    carry the label in [rd_defectType]). *)
Record ForensicState : Type := mkForensic {
  session : option (list ForensicEvidence);
  recentDetections : list RecentDetection;
  isReady : bool
}.

Definition isDuplicate :=
  isDuplicateWith DEDUP_TIME_WINDOW_MS DEDUP_SPATIAL_TOLERANCE.

(** Lines 487-500: the box is clamped and nothing else. *)
Definition parseBox (box_2d : JSValue) : option BBox :=
  match box_2d with
  | JArr (JNum ymin :: JNum xmin :: JNum ymax :: JNum xmax :: _) =>
      Some {| ymin := clamp01 ymin; xmin := clamp01 xmin;
              ymax := clamp01 ymax; xmax := clamp01 xmax |}
  | _ => None
  end.

(** [handleEvidenceDetection], up to the push onto the session's
    evidence. *)
Definition handleEvidenceDetection (now : Z) (data : EvidencePayload)
           (st : ForensicState) : option ForensicEvidence * ForensicState :=
  match session st with
  | None => (None, st)
  | Some evidence =>
      let evidenceType :=
        match p_evidenceType data with
        | Some s => if String.eqb s "" then "unknown"%string else s
        | None => "unknown"%string
        end in
      let confidence :=
        match p_confidence data with JNum n => n | _ => 70 end in
      let confidence := Qmax 0 (Qmin 100 confidence) in
      if Qltb confidence MIN_CONFIDENCE_THRESHOLD then (None, st)
      else
      let boundingBox := parseBox (p_box_2d data) in
      let '(dup, recent) :=
        isDuplicate now evidenceType boundingBox (recentDetections st) in
      if dup then (None, mkForensic (session st) recent (isReady st))
      else
      let recent := trackDetection now evidenceType boundingBox recent in
      let ev := mkEvidence evidenceType confidence boundingBox now in
      (Some ev, mkForensic (Some (evidence ++ [ev])) recent (isReady st))
  end.

(** [ForensicLiveClient.stop]. *)
Definition stop (st : ForensicState) : ForensicState :=
  {| session := session st;
     recentDetections := [];
     isReady := false |}.

End Forensic.

(** ** Vocabulary of the specification *)

(** [Math.max(ymin, xmin, ymax, xmax)] of a raw 4-tuple. *)
Definition maxCoordOf (y0 x0 y1 x1 : Q) : Q :=
  Qmax (Qmax (Qmax y0 x0) y1) x1.

(** The scale rule in the words of the specification: a value [v] of a tuple
    whose maximum is [m] is divided by 1000 when [m > 100], by 100 when [m]
    is in (1,100], and is left as it is otherwise. *)
Inductive scaled (m v : Q) : Q -> Prop :=
| scaled_permille : 100 < m -> scaled m v (v / 1000)
| scaled_percent : 1 < m -> m <= 100 -> scaled m v (v / 100)
| scaled_unit : m <= 1 -> scaled m v v.

(** The box of the specification for scaled values: every pair in the order
    (min, max), every value clamped to [0,1]. *)
Definition orientedClampedBox (a b c d : Q) : BBox :=
  {| ymin := clamp01 (Qmin a c); xmin := clamp01 (Qmin b d);
     ymax := clamp01 (Qmax a c); xmax := clamp01 (Qmax b d) |}.

Definition boxWidthOf (b : BBox) : Q := xmax b - xmin b.
Definition boxHeightOf (b : BBox) : Q := ymax b - ymin b.

(** The Euclidean distance between the centres of two boxes, as a real
    number. *)
Definition centerDistance (a b : BBox) : R :=
  sqrt (Q2R (centerDistanceSq a b)).

(** The same with the second case widened: the type match alone suffices as
    soon as the candidate or the record has no box. *)
Definition duplicateOf (tol : Q) (defectType : string)
           (bbox : option BBox) (r : RecentDetection) : Prop :=
  sameType (rd_defectType r) defectType = true /\
  ((exists b rb, bbox = Some b /\ rd_bbox r = Some rb /\
                 (centerDistance b rb < Q2R tol)%R)
   \/ bbox = None \/ rd_bbox r = None).

(** Lines 725-733 of [parseDefectResponse]: the suppression check, then the
    tracking of a detection that is not suppressed. *)
Definition checkThenTrack (now : Z) (defectType : string) (bbox : BBox)
           (confidence : Q) (confirmedDetections : list ConfirmedDetection)
  : list ConfirmedDetection :=
  let '(suppress, confirmed) :=
    shouldSuppressNMS now defectType bbox confidence confirmedDetections in
  if suppress then confirmed
  else trackConfirmedDetection now defectType bbox confidence confirmed.

(** ** Sessions of the property-defect client *)

(** The state of a client as its constructor leaves it. *)
Definition initialClient : ClientState := mkClient [] [] [] false.

(** What happens to a client: a message of the detector, processed at an
    instant, or a call of [stop]. *)
Inductive ClientEvent : Type :=
| Message (now : Z) (data : Payload)
| Stop.

Definition stepClient (st : ClientState) (ev : ClientEvent) : ClientState :=
  match ev with
  | Message now data => snd (parseDefectResponse now data st)
  | Stop => stop st
  end.

(** The state after a sequence of events, first event first. *)
Definition runClient (evs : list ClientEvent) (st : ClientState)
  : ClientState :=
  fold_left stepClient evs st.

(** The defects that a sequence of messages adds to the store, in the order
    of the messages, and the state it leaves. *)
Fixpoint runMessages (msgs : list (Z * Payload)) (st : ClientState)
  : list Defect * ClientState :=
  match msgs with
  | [] => ([], st)
  | (now, data) :: rest =>
      let '(out, st1) := parseDefectResponse now data st in
      let '(ds, st2) := runMessages rest st1 in
      (match out with Emitted d => d :: ds | Dropped _ => ds end, st2)
  end.

(** The outcomes decided by the validation of the payload alone. *)
Definition validatorReject (o : Outcome) : bool :=
  match o with
  | Dropped Threw | Dropped ClearFrame | Dropped MissingDefectType
  | Dropped LowConfidence => true
  | _ => false
  end.

(** A well-formed temporal buffer: the keys are distinct, as in a [Map], and
    every candidate has been seen in at least one frame. *)
Definition temporalOk (m : TemporalBuffer) : Prop :=
  NoDup (map fst m) /\
  Forall (fun e => (1 <= td_frameCount (snd e))%Z) m.

(** Two reported defects, the first reported before the second, are distinct
    reports: if the second came less than the deduplication window after the
    first, it is not a duplicate of it. *)
Definition distinctReports (d1 d2 : Defect) : Prop :=
  (d_timestamp d2 - d_timestamp d1 < DEDUP_TIME_WINDOW_MS)%Z ->
  ~ duplicateOf DEDUP_SPATIAL_TOLERANCE (d_type d2) (d_boundingBox d2)
      (mkRecent (d_type d1) (d_boundingBox d1) (d_timestamp d1)).

(** ** The evidence hash of the forensic client (forensicTypes.ts lines 184-193)

    A string is a sequence of code units below 256; [charCodeAt] is
    [nat_of_ascii]. *)

(** [ToInt32]: the conversion that the bitwise operators apply. *)
Definition toInt32 (z : Z) : Z :=
  ((z + 2147483648) mod 4294967296 - 2147483648)%Z.

Definition charCodeAt (c : ascii) : Z := Z.of_nat (nat_of_ascii c).

(** The loop of [generateHash], from a given value of [hash]. *)
Fixpoint hashLoop (data : string) (hash : Z) : Z :=
  match data with
  | EmptyString => hash
  | String c rest =>
      let char := charCodeAt c in
      (* hash = ((hash << 5) - hash) + char *)
      let hash := (toInt32 (hash * 32) - hash + char)%Z in
      (* hash = hash & hash *)
      let hash := toInt32 hash in
      hashLoop rest hash
  end.

Definition hexDigit (d : Z) : ascii :=
  match d with
  | 0 => "0" | 1 => "1" | 2 => "2" | 3 => "3" | 4 => "4" | 5 => "5"
  | 6 => "6" | 7 => "7" | 8 => "8" | 9 => "9" | 10 => "a" | 11 => "b"
  | 12 => "c" | 13 => "d" | 14 => "e" | _ => "f"
  end%Z%char.

(** The digits of [n] in base 16, most significant first, in front of
    [acc]. *)
Fixpoint toHexDigits (fuel : nat) (n : Z) (acc : string) : string :=
  match fuel with
  | O => acc
  | S fuel =>
      let acc := String (hexDigit (n mod 16)) acc in
      if (n / 16 =? 0)%Z then acc else toHexDigits fuel (n / 16) acc
  end.

(** [Number.prototype.toString(16)] on a non-negative integer. *)
Definition toString16 (n : Z) : string :=
  toHexDigits (S (Z.to_nat (Z.log2 n))) n "".

Fixpoint repeatChar (n : nat) (c : ascii) : string :=
  match n with
  | O => EmptyString
  | S n => String c (repeatChar n c)
  end.

(** [String.prototype.padStart] with a one-character filler. *)
Definition padStart (targetLength : nat) (c : ascii) (s : string) : string :=
  (repeatChar (targetLength - String.length s) c ++ s)%string.

Definition generateHash (data : string) : string :=
  let hash := hashLoop data 0 in
  padStart 16 "0" (toString16 (Z.abs hash)).

(** The value of a string of hexadecimal digits. *)
Definition hexDigitValue (c : ascii) : Z :=
  let n := Z.of_nat (nat_of_ascii c) in
  if ((48 <=? n) && (n <=? 57))%Z then (n - 48)%Z
  else if ((97 <=? n) && (n <=? 102))%Z then (n - 87)%Z
  else 0%Z.

Fixpoint hexValueFrom (s : string) (v : Z) : Z :=
  match s with
  | EmptyString => v
  | String c rest => hexValueFrom rest (v * 16 + hexDigitValue c)%Z
  end.

Definition hexValue (s : string) : Z := hexValueFrom s 0.

(** The polynomial of the code units in base 31, without any wrap-around. *)
Fixpoint poly31 (data : string) (acc : Z) : Z :=
  match data with
  | EmptyString => acc
  | String c rest => poly31 rest (acc * 31 + charCodeAt c)%Z
  end.

(** ** Overlay geometry of the camera view (CameraView, "pixel-level accuracy
    utilities") *)

Inductive ObjectFit : Type := Cover | Contain.

Record VideoDisplayRect : Type := mkDisplayRect {
  dr_x : Q;       (* offset from the left of the container *)
  dr_y : Q;       (* offset from the top of the container *)
  dr_width : Q;
  dr_height : Q;
  dr_scale : Q
}.

Definition getVideoDisplayRect
           (videoWidth videoHeight containerWidth containerHeight : Q)
           (objectFit : ObjectFit) : VideoDisplayRect :=
  let videoRatio := videoWidth / videoHeight in
  let containerRatio := containerWidth / containerHeight in
  let '(displayWidth, displayHeight) :=
    match objectFit with
    | Cover =>
        if Qgtb videoRatio containerRatio then
          let displayHeight := containerHeight in
          (displayHeight * videoRatio, displayHeight)
        else
          let displayWidth := containerWidth in
          (displayWidth, displayWidth / videoRatio)
    | Contain =>
        if Qgtb videoRatio containerRatio then
          let displayWidth := containerWidth in
          (displayWidth, displayWidth / videoRatio)
        else
          let displayHeight := containerHeight in
          (displayHeight * videoRatio, displayHeight)
    end in
  let x := (containerWidth - displayWidth) / 2 in
  let y := (containerHeight - displayHeight) / 2 in
  let scale := displayWidth / videoWidth in
  {| dr_x := x; dr_y := y; dr_width := displayWidth;
     dr_height := displayHeight; dr_scale := scale |}.

Record PixelBoundingBox : Type := mkPixelBox {
  px_x : Q;
  px_y : Q;
  px_width : Q;
  px_height : Q
}.

Definition transformBoundingBox (normalizedBox : BBox)
           (videoWidth videoHeight containerWidth containerHeight : Q)
           (objectFit : ObjectFit) : PixelBoundingBox :=
  let displayRect :=
    getVideoDisplayRect videoWidth videoHeight containerWidth containerHeight
                        objectFit in
  let videoX := xmin normalizedBox * videoWidth in
  let videoY := ymin normalizedBox * videoHeight in
  let videoW := (xmax normalizedBox - xmin normalizedBox) * videoWidth in
  let videoH := (ymax normalizedBox - ymin normalizedBox) * videoHeight in
  let x := inject_Z (Math_round (dr_x displayRect
                                 + videoX * dr_scale displayRect))
           + (1 # 2) in
  let y := inject_Z (Math_round (dr_y displayRect
                                 + videoY * dr_scale displayRect))
           + (1 # 2) in
  let width := inject_Z (Math_round (videoW * dr_scale displayRect)) in
  let height := inject_Z (Math_round (videoH * dr_scale displayRect)) in
  {| px_x := x; px_y := y; px_width := width; px_height := height |}.

(** The display rectangle in closed form, when the width of the container is
    matched... *)
Definition fitsWidth (vw vh cw ch : Q) (r : VideoDisplayRect) : Prop :=
  dr_width r == cw /\ dr_height r == cw * vh / vw /\
  dr_x r == 0 /\ dr_y r == (ch - cw * vh / vw) / 2 /\
  dr_scale r == cw / vw.

(** ... and when the height is. *)
Definition fitsHeight (vw vh cw ch : Q) (r : VideoDisplayRect) : Prop :=
  dr_height r == ch /\ dr_width r == ch * vw / vh /\
  dr_y r == 0 /\ dr_x r == (cw - ch * vw / vh) / 2 /\
  dr_scale r == ch / vh.

(** ** Label-based helpers of the property-defect client (gemini.ts lines
    739-831) *)

(** [String.prototype.includes]. *)
Fixpoint includes (s sub : string) : bool :=
  if String.prefix sub s then true
  else match s with
       | EmptyString => false
       | String _ rest => includes rest sub
       end.

(** [keywords.some(k => s.includes(k))]. *)
Definition includesAny (s : string) (keywords : list string) : bool :=
  existsb (includes s) keywords.

(** The type [Severity] of the store. *)
Inductive Severity : Type := Minor | Medium | Critical.

(** Lines 739-741: a severity outside the three valid ones becomes
    'minor'. *)
Definition parseSeverity (v : JSValue) : Severity :=
  match v with
  | JStr s =>
      if String.eqb s "critical" then Critical
      else if String.eqb s "medium" then Medium
      else Minor
  | _ => Minor
  end.

(** The values that [inferCategory] returns.  The third one is the string
    'furniture', which the source casts to the type of 'mechanical'. *)
Inductive InferredCategory : Type :=
| CatWater | CatStructural | CatFurniture | CatMechanical | CatFinish.

Definition inferCategory (defectType : string) : InferredCategory :=
  let type := toLowerCase defectType in
  if includesAny type
       ["water"; "leak"; "mold"; "damp"; "efflorescence"; "mildew"]%string
  then CatWater
  else if includesAny type
            ["crack"; "spall"; "settlement"; "foundation"; "hole";
             "structural"]%string
  then CatStructural
  else if includesAny type
            ["furniture"; "scratch"; "dent"; "upholstery"; "torn"; "rip";
             "wood damage"]%string
  then CatFurniture
  else if includesAny type
            ["fixture"; "fitting"; "sealant"; "broken"]%string
  then CatMechanical
  else if includesAny type
            ["paint"; "tile"; "grout"; "carpet"; "floor"; "ceiling"; "wall";
             "drywall"]%string
  then CatFinish
  else CatFinish.

Definition getRecommendation (defectType : string) (severity : Severity)
  : string :=
  (let type := toLowerCase defectType in
  let general :=
    if includes type "paint"
    then "Strip loose paint, prime properly, and repaint."
    else if includes type "tile"
    then "Replace affected tile. Check for substrate issues."
    else if includes type "sealant"
    then "Remove old sealant, clean substrate, apply new silicone."
    else "Professional inspection recommended. Monitor for changes." in
  match severity with
  | Critical =>
      if includes type "crack" || includes type "structural"
      then "URGENT: Structural engineer assessment required. Do not ignore."
      else if includes type "mold"
      then "HEALTH RISK: Professional mold remediation required. Improve ventilation."
      else if includes type "water" || includes type "leak"
      then "Immediate waterproofing inspection required. Check external sealing."
      else general
  | _ => general
  end)%string.

Definition getEstimatedCost (defectType : string) (severity : Severity)
  : string :=
  let type := toLowerCase defectType in
  match severity with
  | Critical =>
      if includes type "crack" || includes type "structural"
         || includes type "foundation"
      then "$2,000-10,000+"
      else if includes type "mold" then "$500-5,000"
      else if includes type "water" then "$500-2,000"
      else "$50-200"
  | Medium =>
      if includes type "crack" then "$200-1,000"
      else if includes type "water" || includes type "stain"
      then "$200-800"
      else "$100-500"
  | Minor => "$50-200"
  end%string.

(** ** The damage algorithm (damageAlgorithm.ts)

    The repair deadline (a [Date]) and the texts of the recommendations are
    left out of the scores; nothing below reads them. *)

(** The fields of a store [Defect] that the algorithm reads. *)
Record StoreDefect : Type := mkStoreDefect {
  sd_id : string;
  sd_type : string;
  sd_severity : Severity;
  sd_description : string;
  sd_boundingBox : option BBox
}.

Definition CATEGORICAL_CRITICAL : list string :=
  ["structural crack"; "foundation damage"; "load-bearing";
   "water infiltration"; "mold"; "electrical hazard"; "gas leak"; "asbestos";
   "fire damage"; "roof breach"; "sewage"; "collapse risk"]%string.

Record DamageCategory : Type := mkDamageCategory {
  dc_type : string;
  dc_keywords : list string;
  dc_baseSeverity : Severity;
  dc_impactMultiplier : Q;
  dc_safetyRisk : Q;
  dc_spreadRisk : Q;
  dc_repairUrgency : Q;
  dc_costMin : Q;
  dc_costMax : Q
}.

Definition DAMAGE_CATEGORIES : list DamageCategory :=
  [ mkDamageCategory "structural_crack"
      ["structural"; "foundation"; "load-bearing"; "beam"; "column";
       "support"]%string
      Critical 3 (9 # 10) (8 # 10) 1 500 5000;
    mkDamageCategory "water_damage"
      ["water"; "leak"; "moisture"; "damp"; "wet"; "stain"; "seepage"]%string
      Critical (25 # 10) (6 # 10) (95 # 100) 2 200 2000;
    mkDamageCategory "mold"
      ["mold"; "mildew"; "fungus"; "black spot"; "growth"]%string
      Critical 2 (85 # 100) (9 # 10) 3 300 3000;
    mkDamageCategory "crack"
      ["crack"; "fracture"; "split"; "fissure"; "hairline"]%string
      Medium (15 # 10) (3 # 10) (5 # 10) 14 100 500;
    mkDamageCategory "paint"
      ["paint"; "peel"; "bubble"; "flake"; "chip"; "discolor"]%string
      Minor (8 # 10) (1 # 10) (3 # 10) 30 50 200;
    mkDamageCategory "tile"
      ["tile"; "grout"; "chip"; "loose"; "broken tile"; "misaligned"]%string
      Minor 1 (2 # 10) (2 # 10) 30 75 300;
    mkDamageCategory "gap"
      ["gap"; "seal"; "caulk"; "joint"; "separation"; "opening"]%string
      Medium (12 # 10) (2 # 10) (6 # 10) 14 50 200;
    mkDamageCategory "fixture"
      ["fixture"; "handle"; "knob"; "hinge"; "door"; "window";
       "cabinet"]%string
      Minor (7 # 10) (15 # 100) (1 # 10) 60 30 150 ].

(** The category returned for a defect that matches no keyword. *)
Definition unknownCategory : DamageCategory :=
  mkDamageCategory "unknown" [] Medium 1 (3 # 10) (3 # 10) 14 100 500.

Definition findDamageCategory (defect : StoreDefect) : DamageCategory :=
  let searchText :=
    toLowerCase (sd_type defect ++ " " ++ sd_description defect)%string in
  match find (fun category => includesAny searchText (dc_keywords category))
             DAMAGE_CATEGORIES with
  | Some category => category
  | None => unknownCategory
  end.

Inductive RiskLabel : Type := RiskHigh | RiskMedium | RiskLow.
Inductive ImpactLabel : Type := ImpactSevere | ImpactModerate | ImpactMinor.

Record DamageScore : Type := mkDamageScore {
  ds_defectId : string;
  ds_utilityScore : Q;
  ds_priorityRank : Z;
  ds_category : DamageCategory;
  ds_adjustedSeverity : Severity;
  ds_costMin : Z;
  ds_costMax : Z;
  ds_safetyRisk : RiskLabel;
  ds_spreadRisk : RiskLabel;
  ds_valueImpact : ImpactLabel
}.

Definition severityMultiplierOf (adjustedSeverity : Severity) : Q :=
  match adjustedSeverity with Critical => 3 | Medium => 2 | Minor => 1 end.

Definition riskLabelOf (risk : Q) : RiskLabel :=
  if Qgtb risk (7 # 10) then RiskHigh
  else if Qgtb risk (3 # 10) then RiskMedium else RiskLow.

Definition calculateUtilityScore (defect : StoreDefect) : DamageScore :=
  let category := findDamageCategory defect in
  let isCategoricalCritical :=
    existsb (fun term => includes (toLowerCase (sd_type defect)) term
                         || includes (toLowerCase (sd_description defect)) term)
            CATEGORICAL_CRITICAL in
  let adjustedSeverity :=
    if isCategoricalCritical then Critical
    else match sd_severity defect with
         | Critical => Critical
         | _ => dc_baseSeverity category
         end in
  let severityMultiplier := severityMultiplierOf adjustedSeverity in
  let safetyComponent := dc_safetyRisk category * 40 in
  let impactComponent := dc_impactMultiplier category * 20 in
  let spreadComponent := dc_spreadRisk category * 25 in
  let urgencyComponent := (1 / dc_repairUrgency category) * 100 in
  let categoricalBonus := if isCategoricalCritical then 100 else 0 in
  let utilityScore :=
    (safetyComponent + impactComponent + spreadComponent + urgencyComponent)
    * severityMultiplier + categoricalBonus in
  let sizeFactor :=
    match sd_boundingBox defect with
    | Some boundingBox =>
        (xmax boundingBox - xmin boundingBox)
        * (ymax boundingBox - ymin boundingBox) * 10
    | None => 1
    end in
  {| ds_defectId := sd_id defect;
     ds_utilityScore := inject_Z (Math_round (utilityScore * 100)) / 100;
     ds_priorityRank := 0;
     ds_category := category;
     ds_adjustedSeverity := adjustedSeverity;
     ds_costMin :=
       Math_round (dc_costMin category * severityMultiplier
                   * Qmax 1 sizeFactor);
     ds_costMax :=
       Math_round (dc_costMax category * severityMultiplier
                   * Qmax 1 sizeFactor);
     ds_safetyRisk := riskLabelOf (dc_safetyRisk category);
     ds_spreadRisk := riskLabelOf (dc_spreadRisk category);
     ds_valueImpact :=
       if Qgtb (dc_impactMultiplier category) 2 then ImpactSevere
       else if Qgtb (dc_impactMultiplier category) 1 then ImpactModerate
       else ImpactMinor |}.

(** [Array.prototype.sort] with the comparator
    [(a, b) => b.utilityScore - a.utilityScore]: a stable sort, highest score
    first.  [insertScore] puts an element in front of the first one that
    does not have a higher score. *)
Fixpoint insertScore (x : DamageScore) (l : list DamageScore)
  : list DamageScore :=
  match l with
  | [] => [x]
  | y :: rest =>
      if Qgtb (ds_utilityScore y) (ds_utilityScore x)
      then y :: insertScore x rest
      else x :: l
  end.

Definition sortByScore (l : list DamageScore) : list DamageScore :=
  fold_right insertScore [] l.

Definition withRank (rank : Z) (score : DamageScore) : DamageScore :=
  {| ds_defectId := ds_defectId score;
     ds_utilityScore := ds_utilityScore score;
     ds_priorityRank := rank;
     ds_category := ds_category score;
     ds_adjustedSeverity := ds_adjustedSeverity score;
     ds_costMin := ds_costMin score;
     ds_costMax := ds_costMax score;
     ds_safetyRisk := ds_safetyRisk score;
     ds_spreadRisk := ds_spreadRisk score;
     ds_valueImpact := ds_valueImpact score |}.

(** [scores.forEach((score, index) => score.priorityRank = index + 1)], from
    the index [index]. *)
Fixpoint assignRanks (index : Z) (scores : list DamageScore)
  : list DamageScore :=
  match scores with
  | [] => []
  | score :: rest => withRank (index + 1) score :: assignRanks (index + 1) rest
  end.

Definition prioritizeDefects (defects : list StoreDefect)
  : list DamageScore :=
  let scores := map calculateUtilityScore defects in
  let scores := sortByScore scores in
  assignRanks 0 scores.

Inductive RiskLevel : Type :=
| LevelCritical | LevelHigh | LevelMedium | LevelLow.

Definition isSeverity (s : Severity) (d : DamageScore) : bool :=
  match s, ds_adjustedSeverity d with
  | Critical, Critical | Medium, Medium | Minor, Minor => true
  | _, _ => false
  end.

(** The numeric part of an [InspectionAnalysis]. *)
Record InspectionAnalysis : Type := mkAnalysis {
  ia_totalDefects : Z;
  ia_criticalCount : Z;
  ia_mediumCount : Z;
  ia_minorCount : Z;
  ia_prioritizedDefects : list DamageScore;
  ia_totalMin : Z;
  ia_totalMax : Z;
  ia_overallRiskLevel : RiskLevel
}.

Definition analyzeInspection (defects : list StoreDefect)
  : InspectionAnalysis :=
  let prioritized := prioritizeDefects defects in
  let criticalCount :=
    Z.of_nat (List.length (filter (isSeverity Critical) prioritized)) in
  let mediumCount :=
    Z.of_nat (List.length (filter (isSeverity Medium) prioritized)) in
  let minorCount :=
    Z.of_nat (List.length (filter (isSeverity Minor) prioritized)) in
  let totalMin :=
    fold_left (fun sum d => (sum + ds_costMin d)%Z) prioritized 0%Z in
  let totalMax :=
    fold_left (fun sum d => (sum + ds_costMax d)%Z) prioritized 0%Z in
  let overallRiskLevel :=
    if (criticalCount >? 0)%Z then LevelCritical
    else if (mediumCount >? 2)%Z then LevelHigh
    else if (mediumCount >? 0)%Z then LevelMedium
    else LevelLow in
  {| ia_totalDefects := Z.of_nat (List.length defects);
     ia_criticalCount := criticalCount;
     ia_mediumCount := mediumCount;
     ia_minorCount := minorCount;
     ia_prioritizedDefects := prioritized;
     ia_totalMin := totalMin;
     ia_totalMax := totalMax;
     ia_overallRiskLevel := overallRiskLevel |}.

(** Highest score first. *)
Definition byScore (a b : DamageScore) : Prop :=
  ds_utilityScore b <= ds_utilityScore a.

(** ** The store (store.ts)

    Identifiers ([crypto.randomUUID]) and formatted clock times are supplied
    by the caller. *)

Inductive LogType : Type :=
| LogInfo | LogSuccess | LogWarning | LogError | LogDetection | LogSystem.

Record ProcessLog : Type := mkProcessLog {
  pl_id : string;
  pl_timestamp : Z;
  pl_type : LogType;
  pl_message : string;
  pl_details : option string
}.

Record Screenshot : Type := mkScreenshot {
  ss_id : string;
  ss_imageUrl : string;
  ss_timestamp : Z;
  ss_defects : list StoreDefect;
  ss_analyzed : bool
}.

(** A [Partial<Defect>]: the fields to overwrite. *)
Record DefectUpdates : Type := mkDefectUpdates {
  du_id : option string;
  du_type : option string;
  du_severity : option Severity;
  du_description : option string;
  du_boundingBox : option (option BBox)
}.

(** A [Partial<Screenshot>]. *)
Record ScreenshotUpdates : Type := mkScreenshotUpdates {
  su_imageUrl : option string;
  su_defects : option (list StoreDefect);
  su_analyzed : option bool
}.

Definition orElse {A} (o : option A) (a : A) : A :=
  match o with Some x => x | None => a end.

(** [{ ...d, ...updates }]. *)
Definition mergeDefect (d : StoreDefect) (u : DefectUpdates) : StoreDefect :=
  {| sd_id := orElse (du_id u) (sd_id d);
     sd_type := orElse (du_type u) (sd_type d);
     sd_severity := orElse (du_severity u) (sd_severity d);
     sd_description := orElse (du_description u) (sd_description d);
     sd_boundingBox := orElse (du_boundingBox u) (sd_boundingBox d) |}.

Definition mergeScreenshot (x : Screenshot) (u : ScreenshotUpdates)
  : Screenshot :=
  {| ss_id := ss_id x;
     ss_imageUrl := orElse (su_imageUrl u) (ss_imageUrl x);
     ss_timestamp := ss_timestamp x;
     ss_defects := orElse (su_defects u) (ss_defects x);
     ss_analyzed := orElse (su_analyzed u) (ss_analyzed x) |}.

Record StoreState : Type := mkStore {
  s_isScanning : bool;
  s_defects : list StoreDefect;
  s_logs : list string;
  s_processLogs : list ProcessLog;
  s_consoleLogs : list string;
  s_screenshots : list Screenshot;
  s_inspectionStartTime : option Z
}.

Definition initialStore : StoreState :=
  {| s_isScanning := false; s_defects := []; s_logs := [];
     s_processLogs := []; s_consoleLogs := []; s_screenshots := [];
     s_inspectionStartTime := None |}.

Definition severityUpper (s : Severity) : string :=
  match s with
  | Critical => "CRITICAL" | Medium => "MEDIUM" | Minor => "MINOR"
  end.

(** The actions of the store that change the lists. *)
Inductive StoreAction : Type :=
| AddDefect (id : string) (now : Z) (defect : StoreDefect)
| UpdateDefect (id : string) (updates : DefectUpdates)
| AddLog (timestamp message : string)
| ClearLogs
| AddProcessLog (id : string) (now : Z) (type : LogType) (message : string)
                (details : option string)
| AddConsoleLog (timestamp message : string)
| ClearConsoleLogs
| AddScreenshot (screenshot : Screenshot)
| UpdateScreenshot (id : string) (updates : ScreenshotUpdates)
| StartInspection (now : Z)
| EndInspection
| ClearAll.

Definition formatLog (timestamp message : string) : string :=
  ("[" ++ timestamp ++ "] " ++ message)%string.

Definition storeStep (state : StoreState) (a : StoreAction) : StoreState :=
  match a with
  | AddDefect id now defect =>
      let processLog :=
        mkProcessLog id now LogDetection
          (severityUpper (sd_severity defect) ++ ": " ++ sd_type defect
             ++ " detected")%string
          (Some (sd_description defect)) in
      mkStore (s_isScanning state) (defect :: s_defects state) (s_logs state)
              (firstn 100 (processLog :: s_processLogs state))
              (s_consoleLogs state) (s_screenshots state)
              (s_inspectionStartTime state)
  | UpdateDefect id updates =>
      mkStore (s_isScanning state)
              (map (fun d => if String.eqb (sd_id d) id
                             then mergeDefect d updates else d)
                   (s_defects state))
              (s_logs state) (s_processLogs state) (s_consoleLogs state)
              (s_screenshots state) (s_inspectionStartTime state)
  | AddLog timestamp message =>
      let formattedLog := formatLog timestamp message in
      mkStore (s_isScanning state) (s_defects state)
              (firstn 50 (formattedLog :: s_logs state))
              (s_processLogs state)
              (firstn 200 (formattedLog :: s_consoleLogs state))
              (s_screenshots state) (s_inspectionStartTime state)
  | ClearLogs =>
      mkStore (s_isScanning state) (s_defects state) [] (s_processLogs state)
              (s_consoleLogs state) (s_screenshots state)
              (s_inspectionStartTime state)
  | AddProcessLog id now type message details =>
      mkStore (s_isScanning state) (s_defects state) (s_logs state)
              (firstn 100 (mkProcessLog id now type message details
                             :: s_processLogs state))
              (s_consoleLogs state) (s_screenshots state)
              (s_inspectionStartTime state)
  | AddConsoleLog timestamp message =>
      mkStore (s_isScanning state) (s_defects state) (s_logs state)
              (s_processLogs state)
              (firstn 200 (formatLog timestamp message
                             :: s_consoleLogs state))
              (s_screenshots state) (s_inspectionStartTime state)
  | ClearConsoleLogs =>
      mkStore (s_isScanning state) (s_defects state) (s_logs state)
              (s_processLogs state) [] (s_screenshots state)
              (s_inspectionStartTime state)
  | AddScreenshot screenshot =>
      mkStore (s_isScanning state) (s_defects state) (s_logs state)
              (s_processLogs state) (s_consoleLogs state)
              (firstn 50 (screenshot :: s_screenshots state))
              (s_inspectionStartTime state)
  | UpdateScreenshot id updates =>
      mkStore (s_isScanning state) (s_defects state) (s_logs state)
              (s_processLogs state) (s_consoleLogs state)
              (map (fun x => if String.eqb (ss_id x) id
                             then mergeScreenshot x updates else x)
                   (s_screenshots state))
              (s_inspectionStartTime state)
  | StartInspection now =>
      mkStore (s_isScanning state) [] (s_logs state) [] (s_consoleLogs state)
              [] (Some now)
  | EndInspection =>
      match s_inspectionStartTime state with
      | None => state
      | Some start =>
          (* [if (!state.inspectionStartTime) return {}]: 0 is falsy *)
          if (start =? 0)%Z then state
          else mkStore false (s_defects state) (s_logs state)
                       (s_processLogs state) (s_consoleLogs state)
                       (s_screenshots state) (s_inspectionStartTime state)
      end
  | ClearAll =>
      mkStore (s_isScanning state) [] [] [] [] [] None
  end.

Definition runStore (actions : list StoreAction) (state : StoreState)
  : StoreState :=
  fold_left storeStep actions state.

(** The part of [generateReport] that picks the nearby services. *)
Record NearbyService : Type := mkService {
  ns_name : string;
  ns_type : string
}.

Definition NEARBY_SERVICES : list NearbyService :=
  [ mkService "QuickFix Contractors" "General Contractor";
    mkService "Pro Paint Solutions" "Painting Service";
    mkService "Elite Tile & Flooring" "Tile Specialist";
    mkService "Handyman Hub" "General Repairs";
    mkService "Structural Solutions" "Structural Engineer" ].

(** [Array.prototype.filter] with a callback that reads the index. *)
Fixpoint filterIndexed {A} (f : A -> nat -> bool) (i : nat) (l : list A)
  : list A :=
  match l with
  | [] => []
  | x :: rest =>
      if f x i then x :: filterIndexed f (S i) rest
      else filterIndexed f (S i) rest
  end.

Definition nearbyServicesOf (defects : list StoreDefect)
  : list NearbyService :=
  let analysis := analyzeInspection defects in
  let mentions (word : string) :=
    existsb (fun d => includes (toLowerCase (sd_type d)) word) defects in
  firstn 5
    (filterIndexed
       (fun _ i =>
          if (ia_criticalCount analysis >? 0)%Z && Nat.eqb i 4 then true
          else if mentions "paint"%string && Nat.eqb i 1 then true
          else if mentions "tile"%string && Nat.eqb i 2 then true
          else if mentions "water"%string && Nat.eqb i 0 then true
          else Nat.ltb i 3)
       0 NEARBY_SERVICES).

(** The bounds on the lists of the store. *)
Definition storeBounded (state : StoreState) : Prop :=
  (List.length (s_logs state) <= 50)%nat /\
  (List.length (s_processLogs state) <= 100)%nat /\
  (List.length (s_consoleLogs state) <= 200)%nat /\
  (List.length (s_screenshots state) <= 50)%nat.

(** ** Forensic sessions and the chain of custody (forensicTypes.ts lines
    195-214, 249-275, 401-559, 745-789)

    The handlers are modelled with the fields of the session that the chain
    of custody relates; descriptions, locations and suggested actions are
    left out.  Identifiers ([crypto.randomUUID]) are supplied by the
    caller, and so is every reading of the clock: a handler reads
    [Date.now()] once for each timestamp that it writes, and
    [logChainOfCustody] reads it again for its entry. *)

Module ForensicSession.

Inductive EvidenceCategory : Type :=
| Weapon | Biological | Trace | Document | SceneIndicator | FraudIndicator
| Unclassified.

(** [categoryMap], in the order of its entries. *)
Definition categoryMap : list (string * EvidenceCategory) :=
  [ ("weapon", Weapon); ("firearm", Weapon); ("knife", Weapon);
    ("tool", Weapon);
    ("blood", Biological); ("biological", Biological); ("dna", Biological);
    ("hair", Biological);
    ("fingerprint", Trace); ("footprint", Trace); ("fiber", Trace);
    ("trace", Trace);
    ("document", Document); ("electronic", Document); ("phone", Document);
    ("entry", SceneIndicator); ("exit", SceneIndicator);
    ("struggle", SceneIndicator);
    ("fraud", FraudIndicator); ("staging", FraudIndicator);
    ("inconsistent", FraudIndicator) ]%string.

(** The loop "determine category": the first key that the lower-cased label
    includes decides. *)
Definition classify (evidenceType : string) : EvidenceCategory :=
  let lowerType := toLowerCase evidenceType in
  match find (fun e => includes lowerType (fst e)) categoryMap with
  | Some (_, cat) => cat
  | None => Unclassified
  end.

(** "Determine priority": a truthy [data.priority] is taken as it is. *)
Definition priorityOf (dataPriority : option string)
           (category : EvidenceCategory) : string :=
  let derived :=
    match category with
    | Biological | Weapon => "critical"
    | Trace | FraudIndicator => "high"
    | _ => "medium"
    end%string in
  match dataPriority with
  | Some p => if String.eqb p "" then derived else p
  | None => derived
  end.

Record ChainOfCustodyEntry : Type := mkEntry {
  ce_id : string;
  ce_timestamp : Z;
  ce_action : string;
  ce_evidenceId : option string;
  ce_officerId : string;
  ce_sessionId : string;
  ce_notes : option string
}.

Record Evidence : Type := mkEvidence {
  ev_id : string;
  ev_caseId : string;
  ev_evidenceType : string;
  ev_category : EvidenceCategory;
  ev_priority : string;
  ev_confidence : Q;
  ev_boundingBox : option BBox;
  ev_frameHash : string;
  ev_timestamp : Z;
  ev_capturedBy : string;
  ev_isManualCapture : bool
}.

Record AuthenticityAlert : Type := mkAlert {
  al_id : string;
  al_concern : string;
  al_severity : string;
  al_frameHash : string;
  al_timestamp : Z
}.

Record Session : Type := mkSession {
  sessionId : string;
  caseId : string;
  officerId : string;
  sceneType : string;
  location : string;
  startTime : Z;
  endTime : option Z;
  evidence : list Evidence;
  authenticityAlerts : list AuthenticityAlert;
  chainOfCustody : list ChainOfCustodyEntry;
  frameCount : Z
}.

(** The session and the deduplication list of a [ForensicLiveClient]. *)
Record Client : Type := mkClient {
  session : option Session;
  recentDetections : list RecentDetection
}.

(** [value || fallback] on an optional string. *)
Definition orDefault (value : option string) (fallback : string) : string :=
  match value with
  | Some s => if String.eqb s "" then fallback else s
  | None => fallback
  end.

(** [logChainOfCustody] on an open session; [now] is its own reading of the
    clock. *)
Definition logChainOfCustody (id : string) (now : Z) (action : string)
           (evidenceId notes : option string) (s : Session) : Session :=
  let entry :=
    mkEntry id now action evidenceId (officerId s) (sessionId s) notes in
  mkSession (sessionId s) (caseId s) (officerId s) (sceneType s) (location s)
            (startTime s) (endTime s) (evidence s) (authenticityAlerts s)
            (chainOfCustody s ++ [entry]) (frameCount s).

Record SessionConfig : Type := mkConfig {
  cfg_caseId : option string;
  cfg_officerId : option string;
  cfg_sceneType : option string;
  cfg_location : option string
}.

(** [startSession]; [uuid] is the identifier of the session and [entryId]
    that of the custody entry; the clock is read for the default case
    identifier, for [startTime] and by [logChainOfCustody]. *)
Definition startSession (uuid entryId : string) (caseNow startNow logNow : Z)
           (config : SessionConfig) (c : Client) : Client :=
  let s :=
    mkSession uuid
      (orDefault (cfg_caseId config) ("CASE-" ++ Z_to_string caseNow))
      (orDefault (cfg_officerId config) "INVESTIGATOR-01")
      (orDefault (cfg_sceneType config) "crime_scene")
      (orDefault (cfg_location config) "Unknown Location")
      startNow None [] [] [] 0 in
  let s :=
    logChainOfCustody entryId logNow "session_started" None
      (Some ("Scene: " ++ sceneType s ++ ", Location: " ++ location s)%string)
      s in
  mkClient (Some s) (recentDetections c).

Definition categoryName (c : EvidenceCategory) : string :=
  match c with
  | Weapon => "weapon" | Biological => "biological" | Trace => "trace"
  | Document => "document" | SceneIndicator => "scene_indicator"
  | FraudIndicator => "fraud_indicator" | Unclassified => "unclassified"
  end.

(** [handleEvidenceDetection]: the filter is that of
    [Forensic.handleEvidenceDetection], at the instant [now]; what it lets
    through is classified, pushed onto the evidence of the session and
    logged.  The clock is read again for the frame hash, for the timestamp
    of the evidence and by [logChainOfCustody]. *)
Definition handleEvidenceDetection (uuid entryId : string)
           (now hashNow stampNow logNow : Z)
           (data : Forensic.EvidencePayload) (dataPriority : option string)
           (c : Client) : Client :=
  match session c with
  | None => c
  | Some s =>
      let '(out, filtered) :=
        Forensic.handleEvidenceDetection now data
          (Forensic.mkForensic (Some []) (recentDetections c) true) in
      let recent := Forensic.recentDetections filtered in
      match out with
      | None => mkClient (Some s) recent
      | Some e =>
          let evidenceType := Forensic.e_evidenceType e in
          let category := classify evidenceType in
          let priority := priorityOf dataPriority category in
          let ev :=
            mkEvidence uuid (caseId s) evidenceType category priority
                       (Forensic.e_confidence e) (Forensic.e_boundingBox e)
                       (generateHash (Z_to_string hashNow)) stampNow
                       (officerId s) false in
          let s :=
            mkSession (sessionId s) (caseId s) (officerId s) (sceneType s)
                      (location s) (startTime s) (endTime s)
                      (evidence s ++ [ev]) (authenticityAlerts s)
                      (chainOfCustody s) (frameCount s) in
          let s :=
            logChainOfCustody entryId logNow "evidence_detected" (Some uuid)
              (Some (categoryName category ++ ": " ++ evidenceType)%string) s in
          mkClient (Some s) recent
      end
  end.

(** [handleAuthenticityAlert]: the clock is read for the frame hash, for the
    timestamp of the alert and by [logChainOfCustody]. *)
Definition handleAuthenticityAlert (uuid entryId : string)
           (hashNow stampNow logNow : Z)
           (concern severity description : option string) (c : Client)
  : Client :=
  match session c with
  | None => c
  | Some s =>
      let alert :=
        mkAlert uuid (orDefault concern "unknown")
                (orDefault severity "medium")
                (generateHash (Z_to_string hashNow)) stampNow in
      let s :=
        mkSession (sessionId s) (caseId s) (officerId s) (sceneType s)
                  (location s) (startTime s) (endTime s) (evidence s)
                  (authenticityAlerts s ++ [alert]) (chainOfCustody s)
                  (frameCount s) in
      let s :=
        logChainOfCustody entryId logNow "authenticity_concern" (Some uuid)
          (Some (orDefault description "")) s in
      mkClient (Some s) (recentDetections c)
  end.

(** [captureEvidence]: the evidence captured, if a session is open. *)
Definition captureEvidence (uuid entryId : string) (stampNow logNow : Z)
           (frameData : string) (category : option EvidenceCategory)
           (notes : option string) (c : Client) : option Evidence * Client :=
  match session c with
  | None => (None, c)
  | Some s =>
      let cat := match category with Some k => k | None => Unclassified end in
      let ev :=
        mkEvidence uuid (caseId s) "manual_capture" cat "high" 100 None
                   (generateHash frameData) stampNow (officerId s) true in
      let s :=
        mkSession (sessionId s) (caseId s) (officerId s) (sceneType s)
                  (location s) (startTime s) (endTime s)
                  (evidence s ++ [ev]) (authenticityAlerts s)
                  (chainOfCustody s) (frameCount s) in
      let s :=
        logChainOfCustody entryId logNow "evidence_captured" (Some uuid)
          (Some ("Manual: " ++ categoryName cat)%string) s in
      (Some ev, mkClient (Some s) (recentDetections c))
  end.

(** [endSession]: the session stays in the client, with its end time. *)
Definition endSession (entryId : string) (endNow logNow : Z) (c : Client)
  : Client :=
  match session c with
  | None => c
  | Some s =>
      let s :=
        mkSession (sessionId s) (caseId s) (officerId s) (sceneType s)
                  (location s) (startTime s) (Some endNow) (evidence s)
                  (authenticityAlerts s) (chainOfCustody s) (frameCount s) in
      let duration := Math_round (inject_Z (endNow - startTime s) / 1000) in
      let s :=
        logChainOfCustody entryId logNow "session_ended" None
          (Some ("Duration: " ++ Z_to_string duration ++ "s, Evidence: "
                   ++ Z_to_string (Z.of_nat (List.length (evidence s))))%string)
          s in
      mkClient (Some s) (recentDetections c)
  end.

(** The parsed object of a forensic message, as [parseForensicResponse]
    reads it. *)
Record ForensicData : Type := mkForensicData {
  fd_type : option string;
  fd_evidence : Forensic.EvidencePayload;
  fd_priority : option string;
  fd_concern : option string;
  fd_severity : option string;
  fd_description : option string
}.

(** [parseForensicResponse], from the parsed object on. *)
Definition parseForensicResponse (uuid entryId : string)
           (now hashNow stampNow logNow : Z)
           (data : ForensicData) (c : Client) : Client :=
  match session c with
  | None => c
  | Some _ =>
      let type := orDefault (fd_type data) "" in
      if String.eqb type "scanning" then c
      else if String.eqb type "authenticity_alert" then
        handleAuthenticityAlert uuid entryId hashNow stampNow logNow
                                (fd_concern data) (fd_severity data)
                                (fd_description data) c
      else if String.eqb type "evidence"
              && negb (String.eqb
                         (orDefault (Forensic.p_evidenceType
                                       (fd_evidence data)) "") "")
      then handleEvidenceDetection uuid entryId now hashNow stampNow logNow
                                   (fd_evidence data) (fd_priority data) c
      else c
  end.

(** [stop]: the deduplication list is emptied, the session stays. *)
Definition stop (c : Client) : Client := mkClient (session c) [].

(** What happens to a forensic client, with the identifiers and the
    readings of the clock that the call draws. *)
Inductive Event : Type :=
| StartSession (uuid entryId : string) (caseNow startNow logNow : Z)
               (config : SessionConfig)
| Response (uuid entryId : string) (now hashNow stampNow logNow : Z)
           (data : ForensicData)
| Capture (uuid entryId : string) (stampNow logNow : Z) (frameData : string)
          (category : option EvidenceCategory) (notes : option string)
| EndSession (entryId : string) (endNow logNow : Z)
| StopClient.

Definition step (c : Client) (ev : Event) : Client :=
  match ev with
  | StartSession uuid entryId caseNow startNow logNow config =>
      startSession uuid entryId caseNow startNow logNow config c
  | Response uuid entryId now hashNow stampNow logNow data =>
      parseForensicResponse uuid entryId now hashNow stampNow logNow data c
  | Capture uuid entryId stampNow logNow frameData category notes =>
      snd (captureEvidence uuid entryId stampNow logNow frameData category
                           notes c)
  | EndSession entryId endNow logNow => endSession entryId endNow logNow c
  | StopClient => stop c
  end.

Definition run (evs : list Event) (c : Client) : Client :=
  fold_left step evs c.

Definition initial : Client := mkClient None [].

(** The action under which an item of evidence is logged. *)
Definition evidenceAction (ev : Evidence) : string :=
  if ev_isManualCapture ev then "evidence_captured" else "evidence_detected".

(** The entries of the chain that log an item of evidence, and those that
    log an alert. *)
Definition isEvidenceEntry (e : ChainOfCustodyEntry) : bool :=
  String.eqb (ce_action e) "evidence_detected"
  || String.eqb (ce_action e) "evidence_captured".

Definition isAlertEntry (e : ChainOfCustodyEntry) : bool :=
  String.eqb (ce_action e) "authenticity_concern".

(** The chain of custody accounts for the session: it starts with the
    opening of the session; its entries for evidence name the items of
    evidence, one entry an item, in the order of the items and with the
    action of each; its entries for alerts name the alerts in the same way;
    an entry names an item exactly when it is one of these; and every entry
    carries the officer and the identifier of the session. *)
Definition custodyComplete (s : Session) : Prop :=
  (exists first rest,
     chainOfCustody s = first :: rest /\
     ce_action first = "session_started"%string /\
     ce_evidenceId first = None) /\
  map (fun e => (ce_evidenceId e, ce_action e))
      (filter isEvidenceEntry (chainOfCustody s))
  = map (fun ev => (Some (ev_id ev), evidenceAction ev)) (evidence s) /\
  map ce_evidenceId (filter isAlertEntry (chainOfCustody s))
  = map (fun al => Some (al_id al)) (authenticityAlerts s) /\
  Forall (fun e =>
            (ce_evidenceId e <> None <->
             isEvidenceEntry e = true \/ isAlertEntry e = true) /\
            ce_officerId e = officerId s /\ ce_sessionId e = sessionId s)
         (chainOfCustody s).

(** The session of a client, if any, has a complete chain of custody. *)
Definition sessionComplete (c : Client) : Prop :=
  match session c with
  | Some s => custodyComplete s
  | None => True
  end.

End ForensicSession.

(** ** Repeated sightings *)

(** The results of the temporal check on successive sightings of one
    detection at the instants [times], the buffer being threaded through. *)
Fixpoint sightings (TH : Z) (defectType : string) (bbox : BBox)
         (confidence : Q) (times : list Z) (buf : TemporalBuffer)
  : list TemporalResult :=
  match times with
  | [] => []
  | now :: rest =>
      let '(r, buf') :=
        checkTemporalConsistencyAt TH now defectType bbox confidence buf in
      r :: sightings TH defectType bbox confidence rest buf'
  end.

(** Each instant is at most the temporal window after the one before. *)
Fixpoint gapsWithin (t : Z) (times : list Z) : Prop :=
  match times with
  | [] => True
  | u :: rest => (u - t <= TEMPORAL_WINDOW_MS)%Z /\ gapsWithin u rest
  end.

(** ** The metrics of the test page (TestPage, "calculate metrics") *)

Inductive Expected : Type := Cracked | Clean.

Record TestResult : Type := mkTestResult {
  tr_expected : Expected;
  tr_detected : bool;
  tr_correct : bool
}.

(** The result that the page records for an image: [correct] compares the
    detection with the expectation. *)
Definition recordResult (expected : Expected) (detected : bool)
  : TestResult :=
  let expectedDetected :=
    match expected with Cracked => true | Clean => false end in
  mkTestResult expected detected (Bool.eqb detected expectedDetected).

Record Metrics : Type := mkMetrics {
  m_total : Z;
  m_correct : Z;
  m_accuracy : Q;
  m_truePositives : Z;
  m_falseNegatives : Z;
  m_trueNegatives : Z;
  m_falsePositives : Z;
  m_precision : Q;
  m_recall : Q;
  m_f1 : Q
}.

Definition countIf (f : TestResult -> bool) (l : list TestResult) : Z :=
  Z.of_nat (List.length (filter f l)).

Definition isCracked (r : TestResult) : bool :=
  match tr_expected r with Cracked => true | Clean => false end.

(** The metrics of a list of results.  A quotient with denominator 0 is NaN
    in the source and is replaced by 0 ([x / y || 0]); the division of
    rationals gives 0 as well. *)
Definition calculateMetrics (testResults : list TestResult) : Metrics :=
  let total := Z.of_nat (List.length testResults) in
  let correct := countIf tr_correct testResults in
  let truePositives :=
    countIf (fun r => isCracked r && tr_detected r) testResults in
  let falseNegatives :=
    countIf (fun r => isCracked r && negb (tr_detected r)) testResults in
  let trueNegatives :=
    countIf (fun r => negb (isCracked r) && negb (tr_detected r))
            testResults in
  let falsePositives :=
    countIf (fun r => negb (isCracked r) && tr_detected r) testResults in
  let precision :=
    inject_Z truePositives / inject_Z (truePositives + falsePositives) in
  let recall :=
    inject_Z truePositives / inject_Z (truePositives + falseNegatives) in
  let f1 := 2 * (precision * recall) / (precision + recall) in
  {| m_total := total;
     m_correct := correct;
     m_accuracy := inject_Z correct / inject_Z total * 100;
     m_truePositives := truePositives;
     m_falseNegatives := falseNegatives;
     m_trueNegatives := trueNegatives;
     m_falsePositives := falsePositives;
     m_precision := precision * 100;
     m_recall := recall * 100;
     m_f1 := f1 * 100 |}.

(** * The filter chain on binary64 numbers

    The methods above once more, with a JavaScript [number] as what it is: a
    binary64 floating-point number ([PrimFloat.float]), whose arithmetic
    rounds to nearest, ties to even, and whose comparisons are false on NaN.
    This is the model in which the thresholds of the chain are decided as
    the program decides them. *)

Module Binary64.
Import PrimFloat.
Local Open Scope float_scope.

(** ** Numbers *)

(** [Math.max] and [Math.min] of two numbers: NaN as soon as an argument is
    NaN, and +0 above -0. *)
Definition Math_max (a b : float) : float :=
  if is_nan a || is_nan b then nan
  else if a <? b then b
  else if b <? a then a
  else if get_sign a then b else a.

Definition Math_min (a b : float) : float :=
  if is_nan a || is_nan b then nan
  else if a <? b then a
  else if b <? a then b
  else if get_sign a then a else b.

(** [Math.pow(v, 2)]: the engines return [v * v] for the exponent 2. *)
Definition Math_pow2 (v : float) : float := v * v.

(** The value of [Math.round(v)]: an integer, NaN or an infinity (-0 and +0
    are both spelled "0" and are not told apart). *)
Inductive Rounded : Type :=
| Rint (z : Z)
| Rnan
| Rinf (negative : bool).

(** The rational number that a finite binary64 number stands for. *)
Definition exactValue (negative : bool) (m : positive) (e : Z) : Q :=
  (inject_Z (if negative then Z.neg m else Z.pos m) * (2 # 1) ^ e)%Q.

(** [Math.round] of an exact value. *)
Definition nearestInteger (q : Q) : Z := Math_round q.

(** [Math.round]: the integer nearest to the exact value, ties towards plus
    infinity. *)
Definition Math_round (v : float) : Rounded :=
  match FloatOps.Prim2SF v with
  | SpecFloat.S754_nan => Rnan
  | SpecFloat.S754_infinity negative => Rinf negative
  | SpecFloat.S754_zero _ => Rint 0
  | SpecFloat.S754_finite negative m e =>
      Rint (nearestInteger (exactValue negative m e))
  end.

(** The spelling of such a value inside a template literal.  (An integer of
    magnitude 10^21 or more is spelled with an exponent by the source; that
    spelling is as injective as this one, so that the keys of a [Map] are
    equal in the source exactly when they are equal here.) *)
Definition Rounded_toString (r : Rounded) : string :=
  match r with
  | Rint z => Z_to_string z
  | Rnan => "NaN"
  | Rinf false => "Infinity"
  | Rinf true => "-Infinity"
  end.

(** ** Geometry *)

Record BBox : Type := mkBBox {
  ymin : float;
  xmin : float;
  ymax : float;
  xmax : float
}.

(** [calculateIoU] (gemini.ts, lines 212-227). *)
Definition calculateIoU (box1 box2 : BBox) : float :=
  let xA := Math_max (xmin box1) (xmin box2) in
  let yA := Math_max (ymin box1) (ymin box2) in
  let xB := Math_min (xmax box1) (xmax box2) in
  let yB := Math_min (ymax box1) (ymax box2) in
  let intersection := Math_max 0 (xB - xA) * Math_max 0 (yB - yA) in
  let box1Area := (xmax box1 - xmin box1) * (ymax box1 - ymin box1) in
  let box2Area := (xmax box2 - xmin box2) * (ymax box2 - ymin box2) in
  let union := box1Area + box2Area - intersection in
  if 0 <? union then intersection / union else 0.

(** ** Deduplication (gemini.ts lines 346-385, forensicTypes.ts lines
    217-247) *)

Record RecentDetection : Type := mkRecent {
  rd_defectType : string;
  rd_bbox : option BBox;
  rd_timestamp : Z
}.

(** The [distance] of the loop: the distance between the centres of the two
    boxes, as the source computes it. *)
Definition centerDistance (bbox recent : BBox) : float :=
  let centerX1 := (xmin bbox + xmax bbox) / 2 in
  let centerY1 := (ymin bbox + ymax bbox) / 2 in
  let centerX2 := (xmin recent + xmax recent) / 2 in
  let centerY2 := (ymin recent + ymax recent) / 2 in
  sqrt (Math_pow2 (centerX1 - centerX2) + Math_pow2 (centerY1 - centerY2)).

Section Dedup.
Variable DEDUP_TIME_WINDOW_MS : Z.
Variable DEDUP_SPATIAL_TOLERANCE : float.

(** The filter "clean old detections". *)
Definition pruneRecent (now : Z) (l : list RecentDetection)
  : list RecentDetection :=
  filter (fun d => (now - rd_timestamp d <? DEDUP_TIME_WINDOW_MS)%Z) l.

(** The loop "check for duplicates". *)
Fixpoint scanRecent (defectType : string) (bbox : option BBox)
         (l : list RecentDetection) : bool :=
  match l with
  | [] => false
  | recent :: rest =>
      if negb (sameType (rd_defectType recent) defectType)
      then scanRecent defectType bbox rest
      else
        match bbox, rd_bbox recent with
        | Some b, Some rb =>
            if centerDistance b rb <? DEDUP_SPATIAL_TOLERANCE
            then true
            else scanRecent defectType bbox rest
        | _, _ => true
        end
  end.

(** [isDuplicate]: the answer and the pruned list. *)
Definition isDuplicateWith (now : Z) (defectType : string)
           (bbox : option BBox) (recentDetections : list RecentDetection)
  : bool * list RecentDetection :=
  let recentDetections := pruneRecent now recentDetections in
  (scanRecent defectType bbox recentDetections, recentDetections).
End Dedup.

(** [trackDetection]. *)
Definition trackDetection (now : Z) (defectType : string) (bbox : option BBox)
           (recentDetections : list RecentDetection) : list RecentDetection :=
  recentDetections ++ [mkRecent defectType bbox now].

(** ** Temporal consistency (gemini.ts lines 229-286) *)

Definition IOU_THRESHOLD : float := 0.25.

Record TemporalDetection : Type := mkTemporal {
  td_defectType : string;
  td_bbox : BBox;
  td_confidence : float;
  td_frameCount : Z;
  td_firstSeen : Z;
  td_lastSeen : Z
}.

Definition TemporalBuffer : Type := list (string * TemporalDetection).


Definition generateSpatialKey (defectType : string) (bbox : BBox) : string :=
  let centerX := Math_round ((xmin bbox + xmax bbox) / 2 * 10) in
  let centerY := Math_round ((ymin bbox + ymax bbox) / 2 * 10) in
  (toLowerCase defectType ++ "_" ++ Rounded_toString centerX ++ "_"
     ++ Rounded_toString centerY)%string.

(** The loop "clean old entries". *)
Definition cleanTemporal (now : Z) (m : TemporalBuffer) : TemporalBuffer :=
  filter (fun e => negb (now - td_lastSeen (snd e) >? TEMPORAL_WINDOW_MS)%Z) m.

(** The test of the second loop: same type and enough overlap. *)
Definition temporalMatch (defectType : string) (bbox : BBox)
           (detection : TemporalDetection) : bool :=
  sameType (td_defectType detection) defectType
  && (IOU_THRESHOLD <=? calculateIoU (td_bbox detection) bbox).

(** The in-place update of a matching entry. *)
Definition temporalUpdate (now : Z) (confidence : float)
           (detection : TemporalDetection) : TemporalDetection :=
  {| td_defectType := td_defectType detection;
     td_bbox := td_bbox detection;
     td_confidence := Math_max (td_confidence detection) confidence;
     td_frameCount := td_frameCount detection + 1;
     td_firstSeen := td_firstSeen detection;
     td_lastSeen := now |}.

Section Temporal.
Variable TEMPORAL_THRESHOLD : Z.

(** The loop "check for existing similar detection": the first matching
    entry is updated and the loop returns. *)
Fixpoint scanTemporal (now : Z) (defectType : string) (bbox : BBox)
         (confidence : float) (m : TemporalBuffer)
  : option (TemporalResult * TemporalBuffer) :=
  match m with
  | [] => None
  | (existingKey, detection) :: rest =>
      if temporalMatch defectType bbox detection then
        let detection := temporalUpdate now confidence detection in
        Some ({| isConfirmed :=
                   (td_frameCount detection >=? TEMPORAL_THRESHOLD)%Z;
                 frameCount := td_frameCount detection |},
              (existingKey, detection) :: rest)
      else
        match scanTemporal now defectType bbox confidence rest with
        | Some (r, rest') => Some (r, (existingKey, detection) :: rest')
        | None => None
        end
  end.

Definition checkTemporalConsistencyAt (now : Z) (defectType : string)
           (bbox : BBox) (confidence : float) (temporalBuffer : TemporalBuffer)
  : TemporalResult * TemporalBuffer :=
  let temporalBuffer := cleanTemporal now temporalBuffer in
  match scanTemporal now defectType bbox confidence temporalBuffer with
  | Some res => res
  | None =>
      let key := generateSpatialKey defectType bbox in
      ({| isConfirmed := (TEMPORAL_THRESHOLD <=? 1)%Z; frameCount := 1 |},
       mapSet key
         {| td_defectType := defectType;
            td_bbox := bbox;
            td_confidence := confidence;
            td_frameCount := 1;
            td_firstSeen := now;
            td_lastSeen := now |}
         temporalBuffer)
  end.
End Temporal.

(** ** Non-maximum suppression (gemini.ts lines 288-343) *)

Definition NMS_IOU_THRESHOLD : float := 0.5.

Record ConfirmedDetection : Type := mkConfirmed {
  cd_defectType : string;
  cd_bbox : BBox;
  cd_confidence : float;
  cd_timestamp : Z
}.

(** The filter "clean old confirmed detections". *)
Definition pruneConfirmed (now : Z) (l : list ConfirmedDetection)
  : list ConfirmedDetection :=
  filter (fun d => (now - cd_timestamp d <? NMS_WINDOW_MS)%Z) l.

(** The test inside the suppression loop. *)
Definition suppressedBy (bbox : BBox) (confidence : float)
           (confirmed : ConfirmedDetection) : bool :=
  (NMS_IOU_THRESHOLD <=? calculateIoU (cd_bbox confirmed) bbox)
  && (confidence <=? cd_confidence confirmed).

(** [shouldSuppressNMS]: the answer and the pruned list. *)
Definition shouldSuppressNMS (now : Z) (defectType : string) (bbox : BBox)
           (confidence : float) (confirmedDetections : list ConfirmedDetection)
  : bool * list ConfirmedDetection :=
  let confirmedDetections := pruneConfirmed now confirmedDetections in
  (existsb (suppressedBy bbox confidence) confirmedDetections,
   confirmedDetections).

(** The predicate of the filter in [trackConfirmedDetection]: [false] removes
    the old detection. *)
Definition survivesTrack (bbox : BBox) (confidence : float)
           (d : ConfirmedDetection) : bool :=
  if (NMS_IOU_THRESHOLD <=? calculateIoU (cd_bbox d) bbox)
     && (cd_confidence d <? confidence)
  then false else true.

Definition trackConfirmedDetection (now : Z) (defectType : string)
           (bbox : BBox) (confidence : float)
           (confirmedDetections : list ConfirmedDetection)
  : list ConfirmedDetection :=
  filter (survivesTrack bbox confidence) confirmedDetections
    ++ [mkConfirmed defectType bbox confidence now].

(** Lines 725-733 of [parseDefectResponse]: the suppression check, then the
    tracking of a detection that is not suppressed. *)
Definition checkThenTrack (now : Z) (defectType : string) (bbox : BBox)
           (confidence : float) (confirmedDetections : list ConfirmedDetection)
  : list ConfirmedDetection :=
  let '(suppress, confirmed) :=
    shouldSuppressNMS now defectType bbox confidence confirmedDetections in
  if suppress then confirmed
  else trackConfirmedDetection now defectType bbox confidence confirmed.

(** ** Raw payloads *)

#[warnings="-register-all"]
Inductive JSValue : Type :=
| JUndefined
| JNull
| JBool (b : bool)
| JNum (n : float)
| JStr (s : string)
| JArr (elements : list JSValue)
| JObj.

(** Truthiness: a number is falsy when it is a zero or NaN. *)
Definition truthy (v : JSValue) : bool :=
  match v with
  | JUndefined | JNull => false
  | JBool b => b
  | JNum n => negb (is_zero n || is_nan n)
  | JStr s => negb (String.eqb s "")
  | JArr _ | JObj => true
  end.

Definition isArray (v : JSValue) : bool :=
  match v with JArr _ => true | _ => false end.

Record Payload : Type := mkPayload {
  p_type : JSValue;
  p_defectType : JSValue;
  p_confidence : JSValue;
  p_box_2d : JSValue
}.

(** ** Box normalisation and validation (gemini.ts lines 628-707) *)

(** [Math.max(0, Math.min(1, v))]. *)
Definition clamp01 (v : float) : float := Math_max 0 (Math_min 1 v).

(** The sanity check of line 674. *)
Definition degenerateBox (boundingBox : BBox) : bool :=
  (ymax boundingBox <=? ymin boundingBox)
  || (xmax boundingBox <=? xmin boundingBox).

(** Lines 642-677. *)
Definition normalizeBox (ymin xmin ymax xmax : float) : option BBox :=
  let maxCoord := Math_max (Math_max (Math_max ymin xmin) ymax) xmax in
  let '(ymin, xmin, ymax, xmax) :=
    if 100 <? maxCoord then
      (ymin / 1000, xmin / 1000, ymax / 1000, xmax / 1000)
    else if 1 <? maxCoord then
      (ymin / 100, xmin / 100, ymax / 100, xmax / 100)
    else (ymin, xmin, ymax, xmax) in
  let '(ymin, ymax) := if ymax <? ymin then (ymax, ymin) else (ymin, ymax) in
  let '(xmin, xmax) := if xmax <? xmin then (xmax, xmin) else (xmin, xmax) in
  let boundingBox :=
    mkBBox (clamp01 ymin) (clamp01 xmin) (clamp01 ymax) (clamp01 xmax) in
  if degenerateBox boundingBox then None else Some boundingBox.

(** Lines 680-705: the strict validation of a box that passed the sanity
    check. *)
Definition validateBox (boundingBox : BBox) : option BBox :=
  let boxWidth := xmax boundingBox - xmin boundingBox in
  let boxHeight := ymax boundingBox - ymin boundingBox in
  let area := boxWidth * boxHeight in
  let aspectRatio :=
    Math_max boxWidth boxHeight / Math_min boxWidth boxHeight in
  if area <? 0.001 then None
  else if 0.70 <? area then None
  else if 15 <? aspectRatio then None
  else Some boundingBox.

(** Lines 628-707: the bounding box of a payload, if any. *)
Definition parseBox (box_2d : JSValue) : option BBox :=
  match box_2d with
  | JArr (JNum ymin :: JNum xmin :: JNum ymax :: JNum xmax :: _) =>
      match normalizeBox ymin xmin ymax xmax with
      | Some boundingBox => validateBox boundingBox
      | None => None
      end
  | _ => None
  end.

(** ** The property-defect client (gemini.ts) *)

Definition DEDUP_SPATIAL_TOLERANCE : float := 0.15.
Definition MIN_CONFIDENCE_THRESHOLD : float := 60.

Record ClientState : Type := mkClient {
  recentDetections : list RecentDetection;
  temporalBuffer : TemporalBuffer;
  confirmedDetections : list ConfirmedDetection;
  isReady : bool
}.

Definition isDuplicate :=
  isDuplicateWith DEDUP_TIME_WINDOW_MS DEDUP_SPATIAL_TOLERANCE.

Definition checkTemporalConsistency :=
  checkTemporalConsistencyAt TEMPORAL_THRESHOLD.

Record Defect : Type := mkDefect {
  d_timestamp : Z;
  d_type : string;
  d_boundingBox : option BBox;
  d_confidence : float
}.

Inductive Outcome : Type :=
| Dropped (reason : DropReason)
| Emitted (defect : Defect).

(** The confidence of a payload: lines 609-619. *)
Definition parseConfidence (v : JSValue) : float :=
  let confidence := match v with JNum n => n | _ => 70 end in
  Math_max 0 (Math_min 100 confidence).

(** [parseDefectResponse], from the parsed object on. *)
Definition parseDefectResponse (now : Z) (data : Payload) (st : ClientState)
  : Outcome * ClientState :=
  if truthy (p_box_2d data) && negb (isArray (p_box_2d data))
  then (Dropped Threw, st)
  else
  if match p_type data with JStr t => String.eqb t "clear" | _ => false end
     || negb (truthy (p_defectType data))
  then (Dropped ClearFrame, st)
  else
  match p_defectType data with
  | JStr defectType =>
      let confidence := parseConfidence (p_confidence data) in
      if confidence <? MIN_CONFIDENCE_THRESHOLD
      then (Dropped LowConfidence, st)
      else
      let boundingBox := parseBox (p_box_2d data) in
      let '(dup, recent) :=
        isDuplicate now defectType boundingBox (recentDetections st) in
      if dup then
        (Dropped Duplicate,
         mkClient recent (temporalBuffer st) (confirmedDetections st)
                  (isReady st))
      else
      let finish (buffer : TemporalBuffer)
                 (confirmed : list ConfirmedDetection) :=
        (Emitted (mkDefect now defectType boundingBox confidence),
         mkClient (trackDetection now defectType boundingBox recent)
                  buffer confirmed (isReady st)) in
      match boundingBox with
      | Some bbox =>
          let '(temporal, buffer) :=
            checkTemporalConsistency now defectType bbox confidence
                                     (temporalBuffer st) in
          if negb (isConfirmed temporal) then
            (Dropped AwaitingConfirmation,
             mkClient recent buffer (confirmedDetections st) (isReady st))
          else
          let '(suppress, confirmed) :=
            shouldSuppressNMS now defectType bbox confidence
                              (confirmedDetections st) in
          if suppress then
            (Dropped SuppressedByNMS,
             mkClient recent buffer confirmed (isReady st))
          else
            finish buffer
                   (trackConfirmedDetection now defectType bbox confidence
                                            confirmed)
      | None => finish (temporalBuffer st) (confirmedDetections st)
      end
  | _ => (Dropped MissingDefectType, st)
  end.

(** [GeminiLiveClient.stop]. *)
Definition stop (st : ClientState) : ClientState :=
  {| recentDetections := [];
     temporalBuffer := [];
     confirmedDetections := [];
     isReady := false |}.

Definition initialClient : ClientState := mkClient [] [] [] false.

Inductive ClientEvent : Type :=
| Message (now : Z) (data : Payload)
| Stop.

Definition stepClient (st : ClientState) (ev : ClientEvent) : ClientState :=
  match ev with
  | Message now data => snd (parseDefectResponse now data st)
  | Stop => stop st
  end.

Definition runClient (evs : list ClientEvent) (st : ClientState)
  : ClientState :=
  fold_left stepClient evs st.

(** ** The forensic client (forensicTypes.ts) *)

Definition Forensic_DEDUP_SPATIAL_TOLERANCE : float := 0.12.

Definition Forensic_isDuplicate :=
  isDuplicateWith Forensic.DEDUP_TIME_WINDOW_MS
                  Forensic_DEDUP_SPATIAL_TOLERANCE.

(** ** Vocabulary of the specification *)

(** A retained record makes the candidate a duplicate, in the words of the
    specification: same type, and either both have boxes whose centres are
    closer than the tolerance, or neither has a box. *)
Definition specDuplicateOf (tol : float) (defectType : string)
           (bbox : option BBox) (r : RecentDetection) : Prop :=
  equalIgnoringCase (rd_defectType r) defectType /\
  ((exists b rb, bbox = Some b /\ rd_bbox r = Some rb /\
                 (centerDistance b rb <? tol) = true)
   \/ (bbox = None /\ rd_bbox r = None)).

(** The same with the second case widened: the type match alone suffices as
    soon as the candidate or the record has no box. *)
Definition duplicateOf (tol : float) (defectType : string)
           (bbox : option BBox) (r : RecentDetection) : Prop :=
  equalIgnoringCase (rd_defectType r) defectType /\
  ((exists b rb, bbox = Some b /\ rd_bbox r = Some rb /\
                 (centerDistance b rb <? tol) = true)
   \/ bbox = None \/ rd_bbox r = None).

(** The centre of the box is a pair of finite numbers, as it is for every
    box with coordinates in [0,1]. *)
Definition finiteCentre (b : BBox) : Prop :=
  is_finite ((xmin b + xmax b) / 2) = true /\
  is_finite ((ymin b + ymax b) / 2) = true.

(** The numbers of a payload that [JSON.parse] produced: JSON has no
    notation for NaN. *)
Definition fromJSON (data : Payload) : Prop :=
  match p_confidence data with
  | JNum n => is_nan n = false
  | _ => True
  end.

(** The records of the NMS list, the earlier before the later, never
    overlap: the IoU that the source computes between an earlier and a later
    record is not [NMS_IOU_THRESHOLD] or more. *)
Definition nonOverlapping (l : list ConfirmedDetection) : Prop :=
  ForallOrdPairs
    (fun earlier later =>
       (NMS_IOU_THRESHOLD <=? calculateIoU (cd_bbox earlier) (cd_bbox later))
       = false)
    l.

(** The invariant of the NMS list: no earlier record overlaps a later one,
    and no confidence is NaN. *)
Definition nmsInvariant (l : list ConfirmedDetection) : Prop :=
  nonOverlapping l /\ Forall (fun r => is_nan (cd_confidence r) = false) l.

(** An event whose payload, if it has one, came out of [JSON.parse]. *)
Definition jsonEvent (ev : ClientEvent) : Prop :=
  match ev with
  | Message _ data => fromJSON data
  | Stop => True
  end.

End Binary64.

(** * Properties *)

(** ** The comparison operators *)

Lemma Qleb_iff x y : Qleb x y = true <-> x <= y.
Proof. apply Qle_bool_iff. Qed.

Lemma Qgeb_iff x y : Qgeb x y = true <-> y <= x.
Proof. apply Qle_bool_iff. Qed.

Lemma Qltb_iff x y : Qltb x y = true <-> x < y.
Proof.
  unfold Qltb. rewrite negb_true_iff. split; intro H.
  - apply Qnot_le_lt. intro Hle. apply Qle_bool_iff in Hle. congruence.
  - destruct (Qle_bool y x) eqn:E; trivial.
    apply Qle_bool_iff in E. exfalso. exact (Qlt_not_le _ _ H E).
Qed.

Lemma Qgtb_iff x y : Qgtb x y = true <-> y < x.
Proof. apply (Qltb_iff y x). Qed.

Lemma Qltb_false_iff x y : Qltb x y = false <-> y <= x.
Proof.
  unfold Qltb. rewrite negb_false_iff. apply Qle_bool_iff.
Qed.

Lemma Qgtb_false_iff x y : Qgtb x y = false <-> x <= y.
Proof. apply (Qltb_false_iff y x). Qed.

Lemma Qgeb_false_iff x y : Qgeb x y = false <-> x < y.
Proof.
  unfold Qgeb. split; intro H.
  - apply Qnot_le_lt. intro Hle. apply Qle_bool_iff in Hle. congruence.
  - destruct (Qle_bool y x) eqn:E; trivial.
    apply Qle_bool_iff in E. exfalso. exact (Qlt_not_le _ _ H E).
Qed.

#[global] Instance Qltb_comp : Proper (Qeq ==> Qeq ==> eq) Qltb.
Proof. intros a b Hab c d Hcd. unfold Qltb. now rewrite Hab, Hcd. Qed.

#[global] Instance Qgtb_comp : Proper (Qeq ==> Qeq ==> eq) Qgtb.
Proof. intros a b Hab c d Hcd. unfold Qgtb. now rewrite Hab, Hcd. Qed.

#[global] Instance Qgeb_comp : Proper (Qeq ==> Qeq ==> eq) Qgeb.
Proof. intros a b Hab c d Hcd. unfold Qgeb. now rewrite Hab, Hcd. Qed.

#[global] Instance Qleb_comp' : Proper (Qeq ==> Qeq ==> eq) Qleb.
Proof. intros a b Hab c d Hcd. unfold Qleb. now rewrite Hab, Hcd. Qed.

(** ** Properties of the geometry *)

Lemma calculateIoU_unfold box1 box2 :
  calculateIoU box1 box2 =
  if Qgtb (unionArea box1 box2) 0
  then intersectionArea box1 box2 / unionArea box1 box2 else 0.
Proof. reflexivity. Qed.

Lemma intersectionArea_sym a b :
  intersectionArea a b == intersectionArea b a.
Proof.
  unfold intersectionArea; cbv zeta.
  rewrite (Q.max_comm (xmin a)), (Q.max_comm (ymin a)).
  rewrite (Q.min_comm (xmax a)), (Q.min_comm (ymax a)).
  reflexivity.
Qed.

Lemma unionArea_sym a b : unionArea a b == unionArea b a.
Proof.
  unfold unionArea. rewrite (intersectionArea_sym a b). ring.
Qed.

Lemma calculateIoU_sym a b : calculateIoU a b == calculateIoU b a.
Proof.
  rewrite !calculateIoU_unfold.
  rewrite (Qgtb_comp _ _ (unionArea_sym a b) 0 0 (Qeq_refl 0)).
  destruct (Qgtb (unionArea b a) 0) eqn:E; [|reflexivity].
  apply Qgtb_iff in E.
  rewrite (intersectionArea_sym a b).
  apply Qdiv_comp; [reflexivity | apply unionArea_sym].
Qed.

Lemma Qmax0_nonneg x : 0 <= Qmax 0 x.
Proof. apply Q.le_max_l. Qed.

Lemma intersectionArea_nonneg a b : 0 <= intersectionArea a b.
Proof.
  unfold intersectionArea; cbv zeta.
  apply Qmult_le_0_compat; apply Qmax0_nonneg.
Qed.

(** The overlap of two intervals is no longer than either interval, unless
    it is empty. *)
Lemma overlap_cases lo1 hi1 lo2 hi2 :
  let d := Qmax 0 (Qmin hi1 hi2 - Qmax lo1 lo2) in
  d == 0 \/ (0 < d /\ d <= hi1 - lo1 /\ d <= hi2 - lo2).
Proof.
  cbv zeta.
  destruct (Q.max_spec 0 (Qmin hi1 hi2 - Qmax lo1 lo2)) as [[H1 H2]|[H1 H2]].
  - right. rewrite H2.
    pose proof (Q.le_min_l hi1 hi2). pose proof (Q.le_min_r hi1 hi2).
    pose proof (Q.le_max_l lo1 lo2). pose proof (Q.le_max_r lo1 lo2).
    split; [|split]; lra.
  - left. exact H2.
Qed.

Lemma intersectionArea_le_boxes a b :
  intersectionArea a b == 0 \/
  (0 < intersectionArea a b /\
   intersectionArea a b <= boxArea a /\ intersectionArea a b <= boxArea b).
Proof.
  unfold intersectionArea, boxArea; cbv zeta.
  pose proof (overlap_cases (xmin a) (xmax a) (xmin b) (xmax b)) as Hx.
  pose proof (overlap_cases (ymin a) (ymax a) (ymin b) (ymax b)) as Hy.
  cbv zeta in Hx, Hy.
  set (dx := Qmax 0 (Qmin (xmax a) (xmax b) - Qmax (xmin a) (xmin b))) in *.
  set (dy := Qmax 0 (Qmin (ymax a) (ymax b) - Qmax (ymin a) (ymin b))) in *.
  destruct Hx as [Hx|(Hx0 & Hxa & Hxb)].
  { left. rewrite Hx. ring. }
  destruct Hy as [Hy|(Hy0 & Hya & Hyb)].
  { left. rewrite Hy. ring. }
  right. split; [|split]; nra.
Qed.

Lemma calculateIoU_bounds a b :
  0 <= calculateIoU a b /\ calculateIoU a b <= 1.
Proof.
  rewrite calculateIoU_unfold.
  destruct (Qgtb (unionArea a b) 0) eqn:E; [|split; lra].
  apply Qgtb_iff in E.
  pose proof (intersectionArea_nonneg a b) as Hi.
  split.
  - apply Qle_shift_div_l; [exact E|]. lra.
  - apply Qle_shift_div_r; [exact E|].
    destruct (intersectionArea_le_boxes a b) as [H0|(Hp & Ha & Hb)].
    + rewrite H0. lra.
    + unfold unionArea in *. lra.
Qed.

Lemma intersectionArea_self a :
  oriented a -> intersectionArea a a == boxArea a.
Proof.
  intros [Hx Hy]. unfold intersectionArea, boxArea; cbv zeta.
  rewrite !Q.max_id, !Q.min_id.
  rewrite (Q.max_r 0 (xmax a - xmin a)) by lra.
  rewrite (Q.max_r 0 (ymax a - ymin a)) by lra.
  reflexivity.
Qed.

Lemma calculateIoU_self a :
  oriented a -> 0 < boxArea a -> calculateIoU a a == 1.
Proof.
  intros Ho Hpos. rewrite calculateIoU_unfold.
  pose proof (intersectionArea_self a Ho) as Hi.
  assert (Hu : unionArea a a == boxArea a).
  { unfold unionArea. rewrite Hi. ring. }
  rewrite (Qgtb_comp _ _ Hu 0 0 (Qeq_refl 0)).
  assert (E : Qgtb (boxArea a) 0 = true) by (apply Qgtb_iff; exact Hpos).
  rewrite E, Hi, Hu.
  field. intro Hz. rewrite Hz in Hpos. lra.
Qed.

Lemma calculateIoU_degenerate a b :
  unionArea a b <= 0 -> calculateIoU a b = 0.
Proof.
  intro H. rewrite calculateIoU_unfold.
  apply Qgtb_false_iff in H. now rewrite H.
Qed.

(** C8.  The overlap measure [calculateIoU] is symmetric and lies between 0
    and 1 for all boxes; a box with positive area overlaps itself with
    measure 1; and when the union area of the two boxes is 0 the function
    returns 0. *)
Theorem calculateIoU_symmetric_bounded :
  (forall a b : BBox, calculateIoU a b == calculateIoU b a) /\
  (forall a b : BBox, 0 <= calculateIoU a b /\ calculateIoU a b <= 1) /\
  (forall a : BBox, oriented a -> 0 < boxArea a -> calculateIoU a a == 1) /\
  (forall a b : BBox, unionArea a b == 0 -> calculateIoU a b = 0).
Proof.
  split; [exact calculateIoU_sym|].
  split; [exact calculateIoU_bounds|].
  split; [exact calculateIoU_self|].
  intros a b H. apply calculateIoU_degenerate. rewrite H. apply Qle_refl.
Qed.

(** The unit square overlaps itself completely; a point has no overlap with
    itself. *)
Lemma calculateIoU_symmetric_bounded_witness :
  let a := mkBBox 0 0 1 1 in
  let p := mkBBox (1 # 2) (1 # 2) (1 # 2) (1 # 2) in
  (oriented a /\ 0 < boxArea a /\ calculateIoU a a == 1) /\
  (unionArea p p == 0 /\ calculateIoU p p = 0).
Proof.
  cbv zeta.
  assert (Ho : oriented (mkBBox 0 0 1 1)) by (split; discriminate).
  assert (Ha : 0 < boxArea (mkBBox 0 0 1 1)) by reflexivity.
  assert (Hu : unionArea (mkBBox (1 # 2) (1 # 2) (1 # 2) (1 # 2))
                         (mkBBox (1 # 2) (1 # 2) (1 # 2) (1 # 2)) == 0)
    by reflexivity.
  split.
  - split; [exact Ho|]. split; [exact Ha|].
    exact (proj1 (proj2 (proj2 calculateIoU_symmetric_bounded)) _ Ho Ha).
  - split; [exact Hu|].
    exact (proj2 (proj2 (proj2 calculateIoU_symmetric_bounded)) _ _ Hu).
Defined.

(** ** The square-root test *)

Lemma sqrt_ltb_iff (s t : Q) :
  sqrt_ltb s t = true <-> 0 < t /\ s < t * t.
Proof.
  unfold sqrt_ltb. rewrite andb_true_iff, Qgtb_iff, Qltb_iff. tauto.
Qed.

(** On a non-negative argument, [sqrt_ltb s t] decides [Math.sqrt(s) < t] for
    the real square root. *)
Lemma sqrt_ltb_spec (s t : Q) :
  0 <= s -> (sqrt_ltb s t = true <-> (sqrt (Q2R s) < Q2R t)%R).
Proof.
  intro Hs. rewrite sqrt_ltb_iff.
  assert (Hs' : (0 <= Q2R s)%R).
  { replace 0%R with (Q2R 0) by (unfold Q2R; simpl; Lra.lra).
    now apply Qle_Rle. }
  split.
  - intros [Ht Hst].
    assert (Ht' : (0 < Q2R t)%R).
    { replace 0%R with (Q2R 0) by (unfold Q2R; simpl; Lra.lra).
      now apply Qlt_Rlt. }
    apply Qlt_Rlt in Hst. rewrite Q2R_mult in Hst.
    rewrite <- (sqrt_square (Q2R t)) by Lra.lra.
    apply sqrt_lt_1; try assumption.
    apply Rmult_le_pos; Lra.lra.
  - intro H.
    pose proof (sqrt_pos (Q2R s)) as Hp.
    assert (Ht' : (0 < Q2R t)%R) by Lra.lra.
    split.
    + apply Rlt_Qlt. replace (Q2R 0) with 0%R by (unfold Q2R; simpl; Lra.lra).
      exact Ht'.
    + apply Rlt_Qlt. rewrite Q2R_mult.
      rewrite <- (sqrt_sqrt (Q2R s)) at 1 by assumption.
      apply Rmult_le_0_lt_compat; assumption.
Qed.

Lemma centerDistanceSq_nonneg a b : 0 <= centerDistanceSq a b.
Proof.
  unfold centerDistanceSq; cbv zeta.
  set (dx := (xmin a + xmax a) / 2 - (xmin b + xmax b) / 2).
  set (dy := (ymin a + ymax a) / 2 - (ymin b + ymax b) / 2).
  assert (Hx : dx ^ 2 == dx * dx) by (simpl; ring).
  assert (Hy : dy ^ 2 == dy * dy) by (simpl; ring).
  rewrite Hx, Hy. nra.
Qed.

(** ** Box normalisation *)

#[global] Instance clamp01_comp : Proper (Qeq ==> Qeq) clamp01.
Proof. intros x y H. unfold clamp01. now rewrite H. Qed.

Lemma clamp01_range v : 0 <= clamp01 v /\ clamp01 v <= 1.
Proof.
  unfold clamp01. split; [apply Q.le_max_l|].
  apply Q.max_lub; [discriminate | apply Q.le_min_l].
Qed.

Lemma clamp01_id v : 0 <= v -> v <= 1 -> clamp01 v == v.
Proof.
  intros H0 H1. unfold clamp01.
  rewrite (Q.min_r 1 v) by exact H1. now rewrite Q.max_r.
Qed.

Lemma clamp01_mono u v : u <= v -> clamp01 u <= clamp01 v.
Proof.
  intro H. unfold clamp01.
  apply Q.max_le_compat_l. now apply Q.min_le_compat_l.
Qed.

(** The swap of an inverted pair leaves (min, max). *)
Lemma swap_pair a c :
  let p := if Qgtb a c then (c, a) else (a, c) in
  fst p == Qmin a c /\ snd p == Qmax a c.
Proof.
  cbv zeta. destruct (Qgtb a c) eqn:E; simpl.
  - apply Qgtb_iff in E. apply Qlt_le_weak in E.
    now rewrite (Q.min_r a c), (Q.max_l a c).
  - apply Qgtb_false_iff in E.
    now rewrite (Q.min_l a c), (Q.max_r a c).
Qed.

Lemma normalizeBox_stages y0 x0 y1 x1 :
  exists a b c d,
    scaled (maxCoordOf y0 x0 y1 x1) y0 a /\
    scaled (maxCoordOf y0 x0 y1 x1) x0 b /\
    scaled (maxCoordOf y0 x0 y1 x1) y1 c /\
    scaled (maxCoordOf y0 x0 y1 x1) x1 d /\
    normalizeBox y0 x0 y1 x1 = orientAndClamp a b c d.
Proof.
  unfold normalizeBox, maxCoordOf; cbv zeta.
  set (m := Qmax (Qmax (Qmax y0 x0) y1) x1).
  destruct (Qgtb m 100) eqn:E1.
  - apply Qgtb_iff in E1.
    exists (y0 / 1000), (x0 / 1000), (y1 / 1000), (x1 / 1000).
    repeat (split; [now apply scaled_permille|]). reflexivity.
  - apply Qgtb_false_iff in E1. destruct (Qgtb m 1) eqn:E2.
    + apply Qgtb_iff in E2.
      exists (y0 / 100), (x0 / 100), (y1 / 100), (x1 / 100).
      repeat (split; [now apply scaled_percent|]). reflexivity.
    + apply Qgtb_false_iff in E2.
      exists y0, x0, y1, x1.
      repeat (split; [now apply scaled_unit|]). reflexivity.
Qed.

Lemma degenerateBox_iff b :
  degenerateBox b = true <-> boxHeightOf b <= 0 \/ boxWidthOf b <= 0.
Proof.
  unfold degenerateBox, boxHeightOf, boxWidthOf.
  rewrite orb_true_iff, !Qleb_iff. split; intros [H|H]; (left; lra) || (right; lra).
Qed.

Lemma degenerateBox_false_iff b :
  degenerateBox b = false <-> 0 < boxHeightOf b /\ 0 < boxWidthOf b.
Proof.
  unfold degenerateBox, boxHeightOf, boxWidthOf.
  rewrite orb_false_iff. unfold Qleb.
  split.
  - intros [H1 H2]. apply Qgeb_false_iff in H1. apply Qgeb_false_iff in H2.
    split; lra.
  - intros [H1 H2]. split; apply Qgeb_false_iff; lra.
Qed.

Lemma orientAndClamp_spec a b c d :
  let B := orientedClampedBox a b c d in
  match orientAndClamp a b c d with
  | Some bx => bbox_eq bx B /\ 0 < boxHeightOf B /\ 0 < boxWidthOf B
  | None => boxHeightOf B <= 0 \/ boxWidthOf B <= 0
  end.
Proof.
  cbv zeta. unfold orientAndClamp.
  pose proof (swap_pair a c) as Hy. pose proof (swap_pair b d) as Hx.
  cbv zeta in Hy, Hx.
  destruct (if Qgtb a c then (c, a) else (a, c)) as [lo_y hi_y].
  destruct (if Qgtb b d then (d, b) else (b, d)) as [lo_x hi_x].
  simpl in Hy, Hx. destruct Hy as [Hy1 Hy2], Hx as [Hx1 Hx2].
  set (bx := {| ymin := clamp01 lo_y; xmin := clamp01 lo_x;
                ymax := clamp01 hi_y; xmax := clamp01 hi_x |}).
  assert (Heq : bbox_eq bx (orientedClampedBox a b c d)).
  { unfold bbox_eq, bx, orientedClampedBox; simpl.
    rewrite Hy1, Hy2, Hx1, Hx2. repeat split; reflexivity. }
  assert (Hh : boxHeightOf bx == boxHeightOf (orientedClampedBox a b c d)).
  { destruct Heq as (H1 & H2 & H3 & H4). unfold boxHeightOf.
    now rewrite H1, H3. }
  assert (Hw : boxWidthOf bx == boxWidthOf (orientedClampedBox a b c d)).
  { destruct Heq as (H1 & H2 & H3 & H4). unfold boxWidthOf.
    now rewrite H2, H4. }
  destruct (degenerateBox bx) eqn:E.
  - apply degenerateBox_iff in E. rewrite <- Hh, <- Hw. exact E.
  - apply degenerateBox_false_iff in E. rewrite <- Hh, <- Hw.
    split; [exact Heq | exact E].
Qed.

Lemma orientAndClamp_normalized a b c d bx :
  orientAndClamp a b c d = Some bx -> normalized bx.
Proof.
  unfold orientAndClamp.
  destruct (if Qgtb a c then (c, a) else (a, c)) as [lo_y hi_y].
  destruct (if Qgtb b d then (d, b) else (b, d)) as [lo_x hi_x].
  cbv zeta.
  destruct (degenerateBox _) eqn:E; [discriminate|].
  intro H; injection H as <-.
  apply degenerateBox_false_iff in E. destruct E as [Eh Ew].
  unfold boxHeightOf, boxWidthOf in Eh, Ew. simpl in Eh, Ew.
  unfold normalized; simpl.
  repeat (split; [apply clamp01_range|]).
  split; lra.
Qed.

Lemma normalizeBox_normalized y0 x0 y1 x1 bx :
  normalizeBox y0 x0 y1 x1 = Some bx -> normalized bx.
Proof.
  destruct (normalizeBox_stages y0 x0 y1 x1) as (a & b & c & d & _ & _ & _ & _ & E).
  rewrite E. apply orientAndClamp_normalized.
Qed.

Lemma maxCoordOf_le y0 x0 y1 x1 u :
  y0 <= u -> x0 <= u -> y1 <= u -> x1 <= u -> maxCoordOf y0 x0 y1 x1 <= u.
Proof.
  intros. unfold maxCoordOf. repeat apply Q.max_lub; assumption.
Qed.

Lemma normalizeBox_fixes_normalized b :
  normalized b ->
  exists b', normalizeBox (ymin b) (xmin b) (ymax b) (xmax b) = Some b'
             /\ bbox_eq b' b.
Proof.
  intros ((Hy0 & Hy1) & (Hx0 & Hx1) & (Hy2 & Hy3) & (Hx2 & Hx3) & Hy & Hx).
  assert (Hm : maxCoordOf (ymin b) (xmin b) (ymax b) (xmax b) <= 1)
    by (apply maxCoordOf_le; assumption).
  unfold normalizeBox. fold (maxCoordOf (ymin b) (xmin b) (ymax b) (xmax b)).
  cbv zeta.
  assert (E1 : Qgtb (maxCoordOf (ymin b) (xmin b) (ymax b) (xmax b)) 100 = false)
    by (apply Qgtb_false_iff; lra).
  assert (E2 : Qgtb (maxCoordOf (ymin b) (xmin b) (ymax b) (xmax b)) 1 = false)
    by (apply Qgtb_false_iff; lra).
  assert (E3 : Qgtb (ymin b) (ymax b) = false) by (apply Qgtb_false_iff; lra).
  assert (E4 : Qgtb (xmin b) (xmax b) = false) by (apply Qgtb_false_iff; lra).
  rewrite E1, E2, E3, E4.
  pose proof (clamp01_id _ Hy0 Hy1) as C1. pose proof (clamp01_id _ Hx0 Hx1) as C2.
  pose proof (clamp01_id _ Hy2 Hy3) as C3. pose proof (clamp01_id _ Hx2 Hx3) as C4.
  set (bx := {| ymin := clamp01 (ymin b); xmin := clamp01 (xmin b);
                ymax := clamp01 (ymax b); xmax := clamp01 (xmax b) |}).
  assert (E : degenerateBox bx = false).
  { apply degenerateBox_false_iff. unfold boxHeightOf, boxWidthOf, bx; simpl.
    rewrite C1, C2, C3, C4. split; lra. }
  rewrite E. exists bx. split; [reflexivity|].
  unfold bbox_eq, bx; simpl. repeat split; assumption.
Qed.

(** C1.  Box normalisation scales the raw 4-tuple by the rule on its maximum
    value, puts every pair in (min, max) order, clamps to [0,1] and discards
    the box exactly when the resulting width or height is zero or negative;
    a box that is already normalised comes back unchanged, and so does the
    result of a normalisation that is normalised again; the tuple
    [200,150,450,180] normalises to (0.2, 0.15, 0.45, 0.18).  A payload whose
    box is discarded has no box, and its detection goes on without one. *)
Theorem normalizeBox_autoscale :
  (forall y0 x0 y1 x1 : Q,
     exists a b c d : Q,
       scaled (maxCoordOf y0 x0 y1 x1) y0 a /\
       scaled (maxCoordOf y0 x0 y1 x1) x0 b /\
       scaled (maxCoordOf y0 x0 y1 x1) y1 c /\
       scaled (maxCoordOf y0 x0 y1 x1) x1 d /\
       let B := orientedClampedBox a b c d in
       match normalizeBox y0 x0 y1 x1 with
       | Some bx => bbox_eq bx B /\ 0 < boxHeightOf B /\ 0 < boxWidthOf B
       | None => boxHeightOf B <= 0 \/ boxWidthOf B <= 0
       end) /\
  (forall b : BBox,
     normalized b ->
     exists b', normalizeBox (ymin b) (xmin b) (ymax b) (xmax b) = Some b'
                /\ bbox_eq b' b) /\
  (forall (y0 x0 y1 x1 : Q) (b : BBox),
     normalizeBox y0 x0 y1 x1 = Some b ->
     exists b', normalizeBox (ymin b) (xmin b) (ymax b) (xmax b) = Some b'
                /\ bbox_eq b' b) /\
  (exists b : BBox,
     normalizeBox 200 150 450 180 = Some b /\
     bbox_eq b (mkBBox (2 # 10) (15 # 100) (45 # 100) (18 # 100))) /\
  (forall (y0 x0 y1 x1 : Q) (rest : list JSValue),
     normalizeBox y0 x0 y1 x1 = None ->
     parseBox (JArr (JNum y0 :: JNum x0 :: JNum y1 :: JNum x1 :: rest))
     = None) /\
  (let flat := JArr [JNum (5 # 10); JNum (2 # 10); JNum (5 # 10);
                     JNum (9 # 10)] in
   fst (parseDefectResponse 0
          (mkPayload (JStr "defect") (JStr "crack") (JNum 85) flat)
          (mkClient [] [] [] true))
   = Emitted (mkDefect 0 "crack" None 85)).
Proof.
  split; [|split; [|split; [|split; [|split]]]];
    [| | | |intros y0 x0 y1 x1 rest H; simpl; now rewrite H|reflexivity].
  - intros y0 x0 y1 x1.
    destruct (normalizeBox_stages y0 x0 y1 x1)
      as (a & b & c & d & Ha & Hb & Hc & Hd & E).
    exists a, b, c, d. repeat (split; [assumption|]).
    rewrite E. apply orientAndClamp_spec.
  - exact normalizeBox_fixes_normalized.
  - intros y0 x0 y1 x1 b H.
    apply normalizeBox_fixes_normalized.
    exact (normalizeBox_normalized _ _ _ _ _ H).
  - eexists. split; [reflexivity|].
    unfold bbox_eq; simpl. repeat split; reflexivity.
Qed.

(** The box (0.2, 0.3, 0.4, 0.5) of the prompt is normalised and returned as
    it is. *)
Lemma normalizeBox_autoscale_witness :
  let b := mkBBox (2 # 10) (3 # 10) (4 # 10) (5 # 10) in
  normalized b /\
  exists b', normalizeBox (ymin b) (xmin b) (ymax b) (xmax b) = Some b'
             /\ bbox_eq b' b.
Proof.
  cbv zeta.
  assert (Hn : normalized (mkBBox (2 # 10) (3 # 10) (4 # 10) (5 # 10))).
  { unfold normalized; simpl.
    repeat match goal with |- _ /\ _ => split end;
      (discriminate || reflexivity). }
  split; [exact Hn|].
  exact (proj1 (proj2 normalizeBox_autoscale) _ Hn).
Defined.

(** ** Box validation *)

Lemma validateBox_None_iff b :
  validateBox b = None <->
  boxWidthOf b * boxHeightOf b < 1 # 1000 \/
  70 # 100 < boxWidthOf b * boxHeightOf b \/
  15 < Qmax (boxWidthOf b) (boxHeightOf b) / Qmin (boxWidthOf b) (boxHeightOf b).
Proof.
  unfold validateBox, boxWidthOf, boxHeightOf; cbv zeta.
  set (area := (xmax b - xmin b) * (ymax b - ymin b)).
  set (ratio := Qmax (xmax b - xmin b) (ymax b - ymin b)
                / Qmin (xmax b - xmin b) (ymax b - ymin b)).
  destruct (Qltb area (1 # 1000)) eqn:E1.
  { apply Qltb_iff in E1. tauto. }
  apply Qltb_false_iff in E1.
  destruct (Qgtb area (70 # 100)) eqn:E2.
  { apply Qgtb_iff in E2. tauto. }
  apply Qgtb_false_iff in E2.
  destruct (Qgtb ratio 15) eqn:E3.
  { apply Qgtb_iff in E3. tauto. }
  apply Qgtb_false_iff in E3.
  split; [discriminate|].
  intros [H|[H|H]]; exfalso; lra.
Qed.

Lemma validateBox_cases b : validateBox b = None \/ validateBox b = Some b.
Proof.
  unfold validateBox; cbv zeta.
  repeat match goal with |- context [if ?c then _ else _] => destruct c end;
    auto.
Qed.

Lemma validateBox_Some_iff b :
  validateBox b = Some b <->
  ~ (boxWidthOf b * boxHeightOf b < 1 # 1000 \/
     70 # 100 < boxWidthOf b * boxHeightOf b \/
     15 < Qmax (boxWidthOf b) (boxHeightOf b)
          / Qmin (boxWidthOf b) (boxHeightOf b)).
Proof.
  rewrite <- validateBox_None_iff.
  destruct (validateBox_cases b) as [H|H]; rewrite H; split;
    congruence || (intro; discriminate) || tauto.
Qed.

(** ** The validator of the property-defect client *)

Lemma parseBox_normalized v b : parseBox v = Some b -> normalized b.
Proof.
  unfold parseBox.
  destruct v as [| | | | |l|]; try discriminate.
  destruct l as [|[| | |y0| | |] l]; try discriminate.
  destruct l as [|[| | |x0| | |] l]; try discriminate.
  destruct l as [|[| | |y1| | |] l]; try discriminate.
  destruct l as [|[| | |x1| | |] l]; try discriminate.
  destruct (normalizeBox y0 x0 y1 x1) as [bx|] eqn:E; [|discriminate].
  intro H. destruct (validateBox_cases bx) as [Hv|Hv]; rewrite Hv in H.
  - discriminate.
  - injection H as <-. exact (normalizeBox_normalized _ _ _ _ _ E).
Qed.

Lemma parseConfidence_range v :
  0 <= parseConfidence v /\ parseConfidence v <= 100.
Proof.
  unfold parseConfidence; cbv zeta. split; [apply Q.le_max_l|].
  apply Q.max_lub; [discriminate | apply Q.le_min_l].
Qed.

Lemma parseConfidence_default v :
  (forall n, v <> JNum n) -> parseConfidence v = 70.
Proof.
  intro H. destruct v; try reflexivity. now destruct (H n).
Qed.

(** What is known of a defect that [parseDefectResponse] reports. *)
Lemma parseDefectResponse_emitted now data st d st' :
  parseDefectResponse now data st = (Emitted d, st') ->
  exists defectType,
    p_defectType data = JStr defectType /\
    d = mkDefect now defectType (parseBox (p_box_2d data))
                 (parseConfidence (p_confidence data)) /\
    MIN_CONFIDENCE_THRESHOLD <= parseConfidence (p_confidence data).
Proof.
  unfold parseDefectResponse.
  destruct (truthy (p_box_2d data) && negb (isArray (p_box_2d data)));
    [discriminate|].
  destruct (_ || _); [discriminate|].
  destruct (p_defectType data) as [| | | |defectType| |]; try discriminate.
  destruct (Qltb _ MIN_CONFIDENCE_THRESHOLD) eqn:Ec; [discriminate|].
  apply Qltb_false_iff in Ec.
  destruct (isDuplicate _ _ _ _) as [dup recent].
  destruct dup; [discriminate|].
  intro H. exists defectType. split; [reflexivity|]. split; [|exact Ec].
  destruct (parseBox (p_box_2d data)) as [bbox|].
  - destruct (checkTemporalConsistency _ _ _ _ _) as [temporal buffer].
    destruct (negb (isConfirmed temporal)); [discriminate|].
    destruct (shouldSuppressNMS _ _ _ _ _) as [suppress confirmed].
    destruct suppress; [discriminate|].
    now injection H as <- _.
  - now injection H as <- _.
Qed.

(** Every box that the property-defect client reports satisfies the
    NormalizedBox invariant, and every reported confidence lies between the
    threshold and 100. *)
Lemma parseDefectResponse_emitted_valid now data st d st' :
  parseDefectResponse now data st = (Emitted d, st') ->
  (forall b, d_boundingBox d = Some b -> normalized b) /\
  MIN_CONFIDENCE_THRESHOLD <= d_confidence d /\ d_confidence d <= 100.
Proof.
  intro H. apply parseDefectResponse_emitted in H.
  destruct H as (ty & _ & -> & Hc). simpl.
  split; [intros b Hb; exact (parseBox_normalized _ _ Hb)|].
  split; [exact Hc | apply parseConfidence_range].
Qed.

(** A detection below the threshold is never reported. *)
Lemma parseDefectResponse_low_confidence now data st :
  parseConfidence (p_confidence data) < MIN_CONFIDENCE_THRESHOLD ->
  forall d st', parseDefectResponse now data st <> (Emitted d, st').
Proof.
  intros Hlow d st' H. apply parseDefectResponse_emitted in H.
  destruct H as (_ & _ & _ & Hc). lra.
Qed.

(** C5.  A payload without a confidence field gets the default 70, which is
    not below the threshold of either client (60 and 70): on a fresh state
    the property-defect client reports the defect, and the forensic client
    records the evidence, both with confidence 70. *)
Theorem missing_confidence_is_reported :
  let fresh := mkClient [] [] [] true in
  let data := mkPayload (JStr "defect") (JStr "crack") JUndefined JUndefined in
  let ffresh := Forensic.mkForensic (Some []) [] true in
  let fdata := Forensic.mkEvidencePayload (Some "blood_stain"%string)
                                          JUndefined JUndefined in
  parseConfidence JUndefined = 70 /\
  Qltb 70 MIN_CONFIDENCE_THRESHOLD = false /\
  Qltb 70 Forensic.MIN_CONFIDENCE_THRESHOLD = false /\
  fst (parseDefectResponse 0 data fresh)
    = Emitted (mkDefect 0 "crack" None 70) /\
  fst (Forensic.handleEvidenceDetection 0 fdata ffresh)
    = Some (Forensic.mkEvidence "blood_stain" 70 None 0).
Proof.
  cbv zeta. repeat split; vm_compute; reflexivity.
Qed.

(** ** The validator of the forensic client *)

(** A box of the forensic client has its coordinates in [0,1]. *)
Lemma Forensic_parseBox_range v b :
  Forensic.parseBox v = Some b ->
  (0 <= ymin b /\ ymin b <= 1) /\ (0 <= xmin b /\ xmin b <= 1) /\
  (0 <= ymax b /\ ymax b <= 1) /\ (0 <= xmax b /\ xmax b <= 1).
Proof.
  unfold Forensic.parseBox.
  destruct v as [| | | | |l|]; try discriminate.
  destruct l as [|[| | |y0| | |] l]; try discriminate.
  destruct l as [|[| | |x0| | |] l]; try discriminate.
  destruct l as [|[| | |y1| | |] l]; try discriminate.
  destruct l as [|[| | |x1| | |] l]; try discriminate.
  intro H; injection H as <-. simpl.
  repeat (split; [apply clamp01_range|]). apply clamp01_range.
Qed.

(** C7.  The forensic client only clamps: from the raw box
    [0.5, 0.5, 0.2, 0.2] it hands the box (0.5, 0.5, 0.2, 0.2) to the
    deduplication stage and records it, although [ymin > ymax] and
    [xmin > xmax]; the property-defect client un-inverts the same tuple
    into a box that satisfies the NormalizedBox invariant. *)
Theorem forensic_box_not_normalized :
  let st := Forensic.mkForensic (Some []) [] true in
  let raw := JArr [JNum (5 # 10); JNum (5 # 10); JNum (2 # 10); JNum (2 # 10)] in
  let data := Forensic.mkEvidencePayload (Some "blood_stain"%string)
                                         (JNum 90) raw in
  let b := mkBBox (5 # 10) (5 # 10) (2 # 10) (2 # 10) in
  Forensic.parseBox raw = Some b /\
  fst (Forensic.handleEvidenceDetection 0 data st)
    = Some (Forensic.mkEvidence "blood_stain" 90 (Some b) 0) /\
  Forensic.recentDetections (snd (Forensic.handleEvidenceDetection 0 data st))
    = [mkRecent "blood_stain" (Some b) 0] /\
  ~ normalized b /\
  (exists b', parseBox raw = Some b' /\ normalized b').
Proof.
  cbv zeta. split; [reflexivity|]. split; [reflexivity|].
  split; [reflexivity|]. split.
  - unfold normalized; simpl. intros (_ & _ & _ & _ & H & _).
    discriminate H.
  - eexists. split; [reflexivity|].
    apply (parseBox_normalized
             (JArr [JNum (5 # 10); JNum (5 # 10); JNum (2 # 10); JNum (2 # 10)])).
    reflexivity.
Qed.

(** ** Deduplication *)

Lemma near_iff tol b rb :
  sqrt_ltb (centerDistanceSq b rb) tol = true
  <-> (centerDistance b rb < Q2R tol)%R.
Proof. apply sqrt_ltb_spec, centerDistanceSq_nonneg. Qed.

Lemma sameType_refl s : sameType s s = true.
Proof. apply String.eqb_refl. Qed.

Lemma scanRecent_true_iff tol defectType bbox l :
  scanRecent tol defectType bbox l = true <->
  exists r, In r l /\ duplicateOf tol defectType bbox r.
Proof.
  induction l as [|recent rest IH]; simpl.
  - split; [discriminate | intros (r & [] & _)].
  - destruct (sameType (rd_defectType recent) defectType) eqn:Et; simpl.
    + destruct bbox as [b|].
      * destruct (rd_bbox recent) as [rb|] eqn:Er.
        -- destruct (sqrt_ltb (centerDistanceSq b rb) tol) eqn:Ed.
           ++ split; [intros _|reflexivity].
              exists recent. split; [now left|]. split; [exact Et|].
              left. exists b, rb. repeat split; trivial.
              now apply near_iff.
           ++ rewrite IH. split.
              ** intros (r & Hin & Hd). exists r. split; [now right|exact Hd].
              ** intros (r & [<-|Hin] & Hd); [|now exists r].
                 exfalso. destruct Hd as (_ & [(b' & rb' & Hb & Hrb & Hn)|[Hb|Hrb]]);
                   try congruence.
                 injection Hb as <-. rewrite Er in Hrb. injection Hrb as <-.
                 apply near_iff in Hn. congruence.
        -- split; [intros _|reflexivity].
           exists recent. split; [now left|]. split; [exact Et|].
           right; right. exact Er.
      * split; [intros _|reflexivity].
        exists recent. split; [now left|]. split; [exact Et|].
        right; left. reflexivity.
    + rewrite IH. split.
      * intros (r & Hin & Hd). exists r. split; [now right|exact Hd].
      * intros (r & [<-|Hin] & Hd); [|now exists r].
        destruct Hd as (Ht & _). congruence.
Qed.

Lemma isDuplicateWith_true_iff window tol now defectType bbox l :
  fst (isDuplicateWith window tol now defectType bbox l) = true <->
  exists r, In r l /\ (now - rd_timestamp r < window)%Z /\
            duplicateOf tol defectType bbox r.
Proof.
  unfold isDuplicateWith; simpl. rewrite scanRecent_true_iff.
  unfold pruneRecent. split.
  - intros (r & Hin & Hd). apply filter_In in Hin. destruct Hin as [Hin Hw].
    apply Z.ltb_lt in Hw. now exists r.
  - intros (r & Hin & Hw & Hd). exists r. split; [|exact Hd].
    apply filter_In. split; [exact Hin|]. now apply Z.ltb_lt.
Qed.

Lemma centerDistanceSq_self b : centerDistanceSq b b == 0.
Proof. unfold centerDistanceSq; cbv zeta. simpl. ring. Qed.

(** ** Temporal consistency *)

Lemma cleanTemporal_In now m e :
  In e (cleanTemporal now m) <->
  In e m /\ (now - td_lastSeen (snd e) <= TEMPORAL_WINDOW_MS)%Z.
Proof.
  unfold cleanTemporal. rewrite filter_In, negb_true_iff, Z.gtb_ltb, Z.ltb_ge.
  reflexivity.
Qed.

Lemma temporalMatch_iff defectType bbox d :
  temporalMatch defectType bbox d = true <->
  sameType (td_defectType d) defectType = true /\
  IOU_THRESHOLD <= calculateIoU (td_bbox d) bbox.
Proof.
  unfold temporalMatch. now rewrite andb_true_iff, Qgeb_iff.
Qed.

Lemma mapSet_In {V} key (v : V) m : In (key, v) (mapSet key v m).
Proof.
  induction m as [|[k d] m IH]; simpl; [now left|].
  destruct (String.eqb k key) eqn:E.
  - apply String.eqb_eq in E. subst. now left.
  - now right.
Qed.

(** ** Non-maximum suppression *)

(** C10.  The type label plays no part in non-maximum suppression: the
    suppression check gives the same answer and the same pruned list for any
    two labels, and tracking keeps the same prior records for any two
    labels, the label appearing only in the appended record.  So a confirmed
    "crack" suppresses an overlapping, less confident "mold", and is evicted
    by an overlapping, more confident one. *)
Theorem nms_type_agnostic :
  (forall now (t1 t2 : string) bbox confidence l,
     shouldSuppressNMS now t1 bbox confidence l
     = shouldSuppressNMS now t2 bbox confidence l) /\
  (forall now (t1 t2 : string) bbox confidence l,
     exists kept,
       trackConfirmedDetection now t1 bbox confidence l
       = kept ++ [mkConfirmed t1 bbox confidence now] /\
       trackConfirmedDetection now t2 bbox confidence l
       = kept ++ [mkConfirmed t2 bbox confidence now]) /\
  (let b := mkBBox (2 # 10) (3 # 10) (4 # 10) (5 # 10) in
   let l := checkThenTrack 0 "crack" b 90 [] in
   l = [mkConfirmed "crack" b 90 0] /\
   fst (shouldSuppressNMS 1000 "mold" b 60 l) = true /\
   checkThenTrack 1000 "mold" b 95 l = [mkConfirmed "mold" b 95 1000]).
Proof.
  split; [reflexivity|]. split.
  - intros. eexists. split; reflexivity.
  - cbv zeta. repeat split; reflexivity.
Qed.

(** ** Session reset *)

Lemma parseDefectResponse_after_stop now data st :
  forall reason,
    fst (parseDefectResponse now data (stop st)) = Dropped reason ->
    reason <> Duplicate /\ reason <> AwaitingConfirmation
    /\ reason <> SuppressedByNMS.
Proof.
  intro reason. unfold parseDefectResponse.
  destruct (truthy (p_box_2d data) && negb (isArray (p_box_2d data)));
    [simpl; intro H; injection H as <-; repeat split; discriminate|].
  destruct (_ || _);
    [simpl; intro H; injection H as <-; repeat split; discriminate|].
  destruct (p_defectType data) as [| | | |defectType| |];
    try (simpl; intro H; injection H as <-; repeat split; discriminate).
  destruct (Qltb _ MIN_CONFIDENCE_THRESHOLD);
    [simpl; intro H; injection H as <-; repeat split; discriminate|].
  simpl. destruct (parseBox (p_box_2d data)); simpl; discriminate.
Qed.

(** C9.  After [stop] the three rolling collections of the property-defect
    client are empty, and so is the deduplication list of the forensic
    client (its only rolling collection).  On the state left by [stop] no
    detection is a duplicate, none matches a temporal candidate (the frame
    count is 1 for every threshold), none is suppressed by NMS, and the whole
    chain drops no message as a duplicate, as awaiting confirmation or as
    suppressed. *)
Theorem stop_clears_state :
  (forall st : ClientState,
     recentDetections (stop st) = [] /\
     temporalBuffer (stop st) = [] /\
     confirmedDetections (stop st) = []) /\
  (forall (st : ClientState) now defectType bbox,
     fst (isDuplicate now defectType bbox (recentDetections (stop st)))
     = false) /\
  (forall (st : ClientState) TH now defectType bbox confidence,
     fst (checkTemporalConsistencyAt TH now defectType bbox confidence
                                     (temporalBuffer (stop st)))
     = {| isConfirmed := (TH <=? 1)%Z; frameCount := 1 |}) /\
  (forall (st : ClientState) now defectType bbox confidence,
     fst (shouldSuppressNMS now defectType bbox confidence
                            (confirmedDetections (stop st))) = false) /\
  (forall (st : ClientState) now data reason,
     fst (parseDefectResponse now data (stop st)) = Dropped reason ->
     reason <> Duplicate /\ reason <> AwaitingConfirmation
     /\ reason <> SuppressedByNMS) /\
  (forall (st : Forensic.ForensicState) now evidenceType bbox,
     Forensic.recentDetections (Forensic.stop st) = [] /\
     fst (Forensic.isDuplicate now evidenceType bbox
            (Forensic.recentDetections (Forensic.stop st))) = false).
Proof.
  split; [intro st; repeat split; reflexivity|].
  split; [reflexivity|]. split; [reflexivity|]. split; [reflexivity|].
  split; [intros st now data reason; apply parseDefectResponse_after_stop|].
  intros. split; reflexivity.
Qed.

(** A crack reported before [stop] is reported again by the next session. *)
Lemma stop_clears_state_witness :
  let data := mkPayload (JStr "defect") (JStr "crack") (JNum 85)
                (JArr [JNum 200; JNum 150; JNum 450; JNum 180]) in
  let st1 := snd (parseDefectResponse 0 data (mkClient [] [] [] true)) in
  fst (parseDefectResponse 1000 data st1) = Dropped Duplicate /\
  (forall reason,
     fst (parseDefectResponse 1000 data (stop st1)) = Dropped reason ->
     reason <> Duplicate /\ reason <> AwaitingConfirmation
     /\ reason <> SuppressedByNMS) /\
  exists d, fst (parseDefectResponse 1000 data (stop st1)) = Emitted d.
Proof.
  cbv zeta. split; [reflexivity|]. split.
  - intro reason. exact (proj1 (proj2 (proj2 (proj2 (proj2
      stop_clears_state)))) _ 1000%Z _ reason).
  - eexists. reflexivity.
Defined.

(** * Further properties of the filter chain *)

(** ** Messages that the validation rejects *)

(** A message rejected before the deduplication stage leaves the state as
    it was. *)
Lemma parseDefectResponse_reject_keeps_state now data st :
  validatorReject (fst (parseDefectResponse now data st)) = true ->
  snd (parseDefectResponse now data st) = st.
Proof.
  unfold parseDefectResponse.
  destruct (truthy (p_box_2d data) && negb (isArray (p_box_2d data)));
    [reflexivity|].
  destruct (_ || _); [reflexivity|].
  destruct (p_defectType data) as [| | | |defectType| |]; try reflexivity.
  destruct (Qltb _ MIN_CONFIDENCE_THRESHOLD); [reflexivity|].
  destruct (isDuplicate _ _ _ _) as [[|] recent]; [discriminate|].
  destruct (parseBox (p_box_2d data)) as [bbox|]; [|discriminate].
  destruct (checkTemporalConsistency _ _ _ _ _) as [temporal buffer].
  destruct (negb (isConfirmed temporal)); [discriminate|].
  destruct (shouldSuppressNMS _ _ _ _ _) as [[|] confirmed]; discriminate.
Qed.

(** X1.  A message that is rejected before the deduplication stage (an
    exception in the debug log, a clear frame, a label that is not a string,
    a confidence below the threshold) is rejected whatever the state and the
    instant, and leaves the state as it was. *)
Theorem parseDefectResponse_reject_stateless now data st :
  validatorReject (fst (parseDefectResponse now data st)) = true ->
  forall now2 st2,
    parseDefectResponse now2 data st2
    = (fst (parseDefectResponse now data st), st2).
Proof.
  unfold parseDefectResponse.
  destruct (truthy (p_box_2d data) && negb (isArray (p_box_2d data)));
    [reflexivity|].
  destruct (_ || _); [reflexivity|].
  destruct (p_defectType data) as [| | | |defectType| |]; try reflexivity.
  destruct (Qltb _ MIN_CONFIDENCE_THRESHOLD); [reflexivity|].
  destruct (isDuplicate _ _ _ _) as [[|] recent]; [discriminate|].
  destruct (parseBox (p_box_2d data)) as [bbox|]; [|discriminate].
  destruct (checkTemporalConsistency _ _ _ _ _) as [temporal buffer].
  destruct (negb (isConfirmed temporal)); [discriminate|].
  destruct (shouldSuppressNMS _ _ _ _ _) as [[|] confirmed]; discriminate.
Qed.

(** A payload whose [box_2d] is a string makes the debug log throw: nothing
    is reported and a state with history is left untouched. *)
Lemma parseDefectResponse_reject_stateless_witness :
  let data := mkPayload (JStr "defect") (JStr "crack") (JNum 95)
                        (JStr "0.2,0.3,0.4,0.5") in
  let st := mkClient [mkRecent "mold" None 5] [] [] true in
  parseDefectResponse 1000 data st = (Dropped Threw, st).
Proof.
  cbv zeta.
  exact (parseDefectResponse_reject_stateless 0
           (mkPayload (JStr "defect") (JStr "crack") (JNum 95)
                      (JStr "0.2,0.3,0.4,0.5"))
           initialClient eq_refl 1000%Z
           (mkClient [mkRecent "mold" None 5] [] [] true)).
Defined.

(** ** The record that a report leaves *)

Lemma duplicateOf_self tol defectType bbox now :
  0 < tol ->
  duplicateOf tol defectType bbox (mkRecent defectType bbox now).
Proof.
  intro Htol. split; [apply sameType_refl|]. simpl.
  destruct bbox as [b|]; [|now right; left].
  left. exists b, b. repeat split; trivial.
  apply near_iff, sqrt_ltb_iff. split; [exact Htol|].
  rewrite centerDistanceSq_self. nra.
Qed.

(** The state that a reported detection leaves. *)
Lemma parseDefectResponse_emitted_recent now data st d st' :
  parseDefectResponse now data st = (Emitted d, st') ->
  recentDetections st'
  = trackDetection now (d_type d) (d_boundingBox d)
      (pruneRecent DEDUP_TIME_WINDOW_MS now (recentDetections st)) /\
  scanRecent DEDUP_SPATIAL_TOLERANCE (d_type d) (d_boundingBox d)
    (pruneRecent DEDUP_TIME_WINDOW_MS now (recentDetections st)) = false.
Proof.
  unfold parseDefectResponse.
  destruct (truthy (p_box_2d data) && negb (isArray (p_box_2d data)));
    [discriminate|].
  destruct (_ || _); [discriminate|].
  destruct (p_defectType data) as [| | | |defectType| |]; try discriminate.
  destruct (Qltb _ MIN_CONFIDENCE_THRESHOLD); [discriminate|].
  unfold isDuplicate, isDuplicateWith.
  destruct (scanRecent _ _ _ _) eqn:Es; [discriminate|].
  destruct (parseBox (p_box_2d data)) as [bbox|].
  - destruct (checkTemporalConsistency _ _ _ _ _) as [temporal buffer].
    destruct (negb (isConfirmed temporal)); [discriminate|].
    destruct (shouldSuppressNMS _ _ _ _ _) as [[|] confirmed];
      [discriminate|].
    intro H. injection H as <- <-. simpl. now split.
  - intro H. injection H as <- <-. simpl. now split.
Qed.

(** ** Invariants of the temporal buffer *)

Lemma filter_keys_incl {A B} (f : A * B -> bool) (m : list (A * B)) k :
  In k (map fst (filter f m)) -> In k (map fst m).
Proof.
  rewrite !in_map_iff. intros (e & He & Hin). apply filter_In in Hin.
  exists e. tauto.
Qed.

Lemma filter_keys_NoDup {A B} (f : A * B -> bool) (m : list (A * B)) :
  NoDup (map fst m) -> NoDup (map fst (filter f m)).
Proof.
  induction m as [|e m IH]; simpl; intro H; [constructor|].
  inversion H as [|k ks Hk Hks]; subst.
  destruct (f e); simpl; [|now apply IH].
  constructor; [|now apply IH].
  intro Hin. apply Hk. exact (filter_keys_incl f m _ Hin).
Qed.

Lemma mapSet_keys {V} key (v : V) m :
  map fst (mapSet key v m)
  = if existsb (String.eqb key) (map fst m) then map fst m
    else map fst m ++ [key].
Proof.
  induction m as [|[k d] m IH]; simpl; [reflexivity|].
  rewrite (String.eqb_sym key k).
  destruct (String.eqb k key) eqn:E; simpl; [reflexivity|].
  rewrite IH. now destruct (existsb (String.eqb key) (map fst m)).
Qed.

Lemma mapSet_NoDup {V} key (v : V) m :
  NoDup (map fst m) -> NoDup (map fst (mapSet key v m)).
Proof.
  intro H. rewrite mapSet_keys.
  destruct (existsb (String.eqb key) (map fst m)) eqn:E; [exact H|].
  apply NoDup_app; [exact H | repeat constructor; intros [] |].
  intros k Hk [Heq|[]]. subst k.
  assert (existsb (String.eqb key) (map fst m) = true); [|congruence].
  apply existsb_exists. exists key. split; [exact Hk | apply String.eqb_refl].
Qed.

Lemma mapSet_Forall {V} (P : string * V -> Prop) key v m :
  P (key, v) -> Forall P m -> Forall P (mapSet key v m).
Proof.
  intros Hv H. induction H as [|[k d] m Hd Hm IH]; simpl.
  - now repeat constructor.
  - destruct (String.eqb k key) eqn:E.
    + apply String.eqb_eq in E. subst. now constructor.
    + now constructor.
Qed.

Lemma mapSet_length {V} key (v : V) m :
  (List.length (mapSet key v m) <= S (List.length m))%nat.
Proof.
  induction m as [|[k d] m IH]; simpl; [lia|].
  destruct (String.eqb k key); simpl; lia.
Qed.

Lemma scanTemporal_Some TH now defectType bbox confidence m r m' :
  scanTemporal TH now defectType bbox confidence m = Some (r, m') ->
  map fst m' = map fst m /\
  List.length m' = List.length m /\
  (forall P : string * TemporalDetection -> Prop,
     (forall k d, P (k, d) -> temporalMatch defectType bbox d = true ->
                  P (k, temporalUpdate now confidence d)) ->
     Forall P m -> Forall P m') /\
  exists k d,
    In (k, d) m /\ temporalMatch defectType bbox d = true /\
    In (k, temporalUpdate now confidence d) m' /\
    r = {| isConfirmed := (td_frameCount d + 1 >=? TH)%Z;
           frameCount := td_frameCount d + 1 |}.
Proof.
  revert r m'. induction m as [|[k d] m IH]; simpl; intros r m' H;
    [discriminate|].
  destruct (temporalMatch defectType bbox d) eqn:E.
  - injection H as <- <-. simpl. repeat split; trivial.
    + intros P HP HF. inversion HF; subst. constructor; [now apply HP|trivial].
    + exists k, d. repeat split; trivial; now left.
  - destruct (scanTemporal TH now defectType bbox confidence m)
      as [[r0 m0]|]; [|discriminate].
    injection H as <- <-.
    destruct (IH r0 m0 eq_refl) as (Hk & Hl & HP & k0 & d0 & Hin & Hm & Hin' & Hr).
    simpl. repeat split.
    + now rewrite Hk.
    + now rewrite Hl.
    + intros P HPu HF. inversion HF; subst. constructor; [trivial|].
      now apply HP.
    + exists k0, d0. repeat split; trivial; now right.
Qed.

(** The temporal check preserves the well-formedness of its buffer and
    returns a frame count of at least 1. *)
Lemma checkTemporalConsistencyAt_ok TH now defectType bbox confidence buf :
  temporalOk buf ->
  let res := checkTemporalConsistencyAt TH now defectType bbox confidence buf in
  temporalOk (snd res) /\ (1 <= frameCount (fst res))%Z.
Proof.
  intros [Hnd Hfc] res. subst res. unfold checkTemporalConsistencyAt.
  cbv zeta.
  set (kept := cleanTemporal now buf).
  assert (Hnd' : NoDup (map fst kept)) by now apply filter_keys_NoDup.
  assert (Hfc' : Forall (fun e => (1 <= td_frameCount (snd e))%Z) kept).
  { apply Forall_forall. intros e He. apply filter_In in He.
    rewrite Forall_forall in Hfc. now apply Hfc. }
  destruct (scanTemporal TH now defectType bbox confidence kept)
    as [[r m']|] eqn:Es.
  - destruct (scanTemporal_Some _ _ _ _ _ _ _ _ Es)
      as (Hk & Hl & HP & k & d & Hin & Hm & Hin' & ->).
    simpl.
    assert (Hd : (1 <= td_frameCount d)%Z).
    { rewrite Forall_forall in Hfc'. exact (Hfc' _ Hin). }
    split; [split|lia].
    + now rewrite Hk.
    + apply HP; [|exact Hfc']. simpl. intros; lia.
  - simpl. split; [split|lia].
    + now apply mapSet_NoDup.
    + apply mapSet_Forall; [simpl; lia | exact Hfc'].
Qed.

(** X3.  The temporal check keeps its buffer well formed, for every value of
    the threshold: on a buffer with distinct keys and frame counts of at
    least 1 it returns such a buffer, at most one entry longer, in which
    every candidate was last seen at most 3 s ago and which holds a candidate
    of the detection's type with the returned frame count, last seen now;
    the returned frame count is at least 1. *)
Theorem checkTemporalConsistencyAt_invariant
        TH now defectType bbox confidence buf :
  temporalOk buf ->
  let res := checkTemporalConsistencyAt TH now defectType bbox confidence buf in
  temporalOk (snd res) /\
  Forall (fun e => (now - td_lastSeen (snd e) <= 3000)%Z) (snd res) /\
  (List.length (snd res) <= S (List.length buf))%nat /\
  (1 <= frameCount (fst res))%Z /\
  exists k d,
    In (k, d) (snd res) /\
    sameType (td_defectType d) defectType = true /\
    td_frameCount d = frameCount (fst res) /\
    td_lastSeen d = now.
Proof.
  intros Hok res. subst res.
  destruct (checkTemporalConsistencyAt_ok TH now defectType bbox confidence
              buf Hok) as [Hok' Hpos].
  split; [exact Hok'|].
  enough (H : Forall (fun e => (now - td_lastSeen (snd e) <= 3000)%Z)
                (snd (checkTemporalConsistencyAt TH now defectType bbox
                        confidence buf)) /\
              (List.length (snd (checkTemporalConsistencyAt TH now defectType
                                   bbox confidence buf))
               <= S (List.length buf))%nat /\
              exists k d,
                In (k, d) (snd (checkTemporalConsistencyAt TH now defectType
                                  bbox confidence buf)) /\
                sameType (td_defectType d) defectType = true /\
                td_frameCount d
                = frameCount (fst (checkTemporalConsistencyAt TH now
                                     defectType bbox confidence buf)) /\
                td_lastSeen d = now).
  { destruct H as (A & B & C).
    split; [exact A|]. split; [exact B|]. split; [exact Hpos|exact C]. }
  clear Hok Hok' Hpos. unfold checkTemporalConsistencyAt. cbv zeta.
  set (kept := cleanTemporal now buf).
  assert (Hfresh : Forall (fun e => (now - td_lastSeen (snd e) <= 3000)%Z)
                     kept).
  { apply Forall_forall. intros e He. now apply cleanTemporal_In in He. }
  assert (Hlen : (List.length kept <= List.length buf)%nat)
    by apply filter_length_le.
  destruct (scanTemporal TH now defectType bbox confidence kept)
    as [[r m']|] eqn:Es.
  - destruct (scanTemporal_Some _ _ _ _ _ _ _ _ Es)
      as (Hk & Hl & HP & k & d & Hin & Hm & Hin' & ->).
    simpl. split.
    + apply HP; [|exact Hfresh]. simpl. intros; lia.
    + split; [lia|].
      exists k, (temporalUpdate now confidence d). simpl.
      apply temporalMatch_iff in Hm. tauto.
  - simpl.
    set (cand := {| td_defectType := defectType; td_bbox := bbox;
                    td_confidence := confidence; td_frameCount := 1;
                    td_firstSeen := now; td_lastSeen := now |}).
    split.
    + apply mapSet_Forall; [simpl; lia | exact Hfresh].
    + split.
      * pose proof (mapSet_length (generateSpatialKey defectType bbox)
                                  cand kept). lia.
      * exists (generateSpatialKey defectType bbox), cand.
        split; [apply mapSet_In|]. simpl.
        split; [apply sameType_refl | split; reflexivity].
Qed.

(** The buffer left by a first sighting is well formed, and so is the one
    left by a second sighting of the same box. *)
Lemma checkTemporalConsistencyAt_invariant_witness :
  let b := mkBBox (2 # 10) (3 # 10) (4 # 10) (5 # 10) in
  let m1 := snd (checkTemporalConsistencyAt 2 0 "crack" b 80 []) in
  temporalOk m1 /\
  temporalOk (snd (checkTemporalConsistencyAt 2 1000 "Crack" b 85 m1)).
Proof.
  cbv zeta.
  assert (H0 : temporalOk []) by (split; constructor).
  pose proof (checkTemporalConsistencyAt_invariant 2 0 "crack"
                (mkBBox (2 # 10) (3 # 10) (4 # 10) (5 # 10)) 80 [] H0) as H1.
  cbv zeta in H1. destruct H1 as [H1 _].
  split; [exact H1|].
  exact (proj1 (checkTemporalConsistencyAt_invariant 2 1000 "Crack"
                  (mkBBox (2 # 10) (3 # 10) (4 # 10) (5 # 10)) 85 _ H1)).
Defined.

(** ** Reachable states of the property-defect client *)

Lemma checkTemporalConsistencyAt_confirmed_iff
      TH now defectType bbox confidence buf :
  let res := checkTemporalConsistencyAt TH now defectType bbox confidence buf in
  isConfirmed (fst res) = (frameCount (fst res) >=? TH)%Z.
Proof.
  cbv zeta. unfold checkTemporalConsistencyAt; cbv zeta.
  destruct (scanTemporal _ _ _ _ _ _) as [[r m']|] eqn:Es.
  - destruct (scanTemporal_Some _ _ _ _ _ _ _ _ Es)
      as (_ & _ & _ & k & d & _ & _ & _ & ->). reflexivity.
  - simpl. now rewrite Z.geb_leb.
Qed.

(** How a message changes the temporal buffer and the NMS list. *)
Lemma parseDefectResponse_buffers now data st :
  let st' := snd (parseDefectResponse now data st) in
  (temporalBuffer st' = temporalBuffer st \/
   exists defectType bbox confidence,
     temporalBuffer st'
     = snd (checkTemporalConsistency now defectType bbox confidence
                                     (temporalBuffer st))) /\
  (confirmedDetections st' = confirmedDetections st \/
   exists defectType bbox confidence,
     confirmedDetections st'
     = checkThenTrack now defectType bbox confidence
                      (confirmedDetections st)).
Proof.
  cbv zeta. unfold parseDefectResponse, checkThenTrack.
  destruct (truthy (p_box_2d data) && negb (isArray (p_box_2d data)));
    [simpl; tauto|].
  destruct (_ || _); [simpl; tauto|].
  destruct (p_defectType data) as [| | | |defectType| |]; try (simpl; tauto).
  destruct (Qltb _ MIN_CONFIDENCE_THRESHOLD); [simpl; tauto|].
  destruct (isDuplicate _ _ _ _) as [[|] recent]; [simpl; tauto|].
  destruct (parseBox (p_box_2d data)) as [bbox|]; [|simpl; tauto].
  set (confidence := parseConfidence (p_confidence data)).
  destruct (checkTemporalConsistency now defectType bbox confidence
                                     (temporalBuffer st))
    as [temporal buffer] eqn:Et.
  assert (Hb : buffer
               = snd (checkTemporalConsistency now defectType bbox confidence
                                               (temporalBuffer st)))
    by now rewrite Et.
  destruct (negb (isConfirmed temporal)).
  { simpl. split; [right; now exists defectType, bbox, confidence | now left]. }
  destruct (shouldSuppressNMS now defectType bbox confidence
                              (confirmedDetections st))
    as [suppress confirmed] eqn:En.
  split.
  - right. exists defectType, bbox, confidence.
    now destruct suppress.
  - right. exists defectType, bbox, confidence. rewrite En.
    now destruct suppress.
Qed.

Lemma Forall_app_one {A} (P : A -> Prop) l x :
  Forall P l -> P x -> Forall P (l ++ [x]).
Proof. intros Hl Hx. apply Forall_app. split; [exact Hl|now constructor]. Qed.

Lemma ForallOrdPairs_app_one {A} (R : A -> A -> Prop) l x :
  ForallOrdPairs R l -> Forall (fun a => R a x) l ->
  ForallOrdPairs R (l ++ [x]).
Proof.
  induction 1 as [|a l Ha Hl IH]; simpl; intro Hx.
  - repeat constructor.
  - inversion Hx; subst. constructor; [|now apply IH].
    now apply Forall_app_one.
Qed.

Lemma ForallOrdPairs_filter {A} (R : A -> A -> Prop) f l :
  ForallOrdPairs R l -> ForallOrdPairs R (filter f l).
Proof.
  induction 1 as [|a l Ha Hl IH]; simpl; [constructor|].
  destruct (f a); [|exact IH]. constructor; [|exact IH].
  apply Forall_forall. intros y Hy. apply filter_In in Hy.
  rewrite Forall_forall in Ha. now apply Ha.
Qed.

Lemma stepClient_invariant st ev :
  temporalOk (temporalBuffer st) ->
  temporalOk (temporalBuffer (stepClient st ev)).
Proof.
  intros Ht. destruct ev as [now data|]; simpl.
  - destruct (parseDefectResponse_buffers now data st) as [Hb _].
    destruct Hb as [->|(ty & b & c & ->)]; [exact Ht|].
    exact (proj1 (checkTemporalConsistencyAt_ok
                    TEMPORAL_THRESHOLD now ty b c _ Ht)).
  - split; constructor.
Qed.

Lemma runClient_invariant evs st :
  temporalOk (temporalBuffer st) ->
  temporalOk (temporalBuffer (runClient evs st)).
Proof.
  revert st. induction evs as [|ev evs IH]; intros st H; [exact H|].
  simpl. apply IH. now apply stepClient_invariant.
Qed.

Lemma initialClient_invariant : temporalOk (temporalBuffer initialClient).
Proof. split; constructor. Qed.

(** X4.  With the threshold of the source (1) the temporal stage never holds
    a detection back: whatever messages and stops a client has gone through,
    no message is dropped as awaiting confirmation. *)
Theorem deployed_threshold_never_waits :
  forall (evs : list ClientEvent) (now : Z) (data : Payload),
    fst (parseDefectResponse now data (runClient evs initialClient))
    <> Dropped AwaitingConfirmation.
Proof.
  intros evs now data.
  pose proof (runClient_invariant evs _ initialClient_invariant) as Ht.
  set (st := runClient evs initialClient) in *.
  unfold parseDefectResponse.
  destruct (truthy (p_box_2d data) && negb (isArray (p_box_2d data)));
    [discriminate|].
  destruct (_ || _); [discriminate|].
  destruct (p_defectType data) as [| | | |defectType| |]; try discriminate.
  destruct (Qltb _ MIN_CONFIDENCE_THRESHOLD); [discriminate|].
  destruct (isDuplicate _ _ _ _) as [[|] recent]; [discriminate|].
  destruct (parseBox (p_box_2d data)) as [bbox|]; [|discriminate].
  set (confidence := parseConfidence (p_confidence data)).
  pose proof (checkTemporalConsistencyAt_confirmed_iff TEMPORAL_THRESHOLD now
                defectType bbox confidence (temporalBuffer st)) as Hc.
  pose proof (checkTemporalConsistencyAt_ok TEMPORAL_THRESHOLD now
                defectType bbox confidence (temporalBuffer st) Ht) as Hi.
  cbv zeta in Hc, Hi. destruct Hi as [_ Hfc].
  unfold checkTemporalConsistency.
  destruct (checkTemporalConsistencyAt TEMPORAL_THRESHOLD now defectType bbox
              confidence (temporalBuffer st)) as [temporal buffer].
  simpl in Hc, Hfc. rewrite Hc.
  assert (E : (frameCount temporal >=? TEMPORAL_THRESHOLD)%Z = true).
  { rewrite Z.geb_leb. apply Z.leb_le. exact Hfc. }
  rewrite E. cbn [negb].
  destruct (shouldSuppressNMS _ _ _ _ _) as [[|] confirmed]; discriminate.
Qed.

(** ** No duplicate is ever reported *)

(** How a message changes the deduplication list. *)
Lemma parseDefectResponse_recent_cases now data st :
  let res := parseDefectResponse now data st in
  let pruned := pruneRecent DEDUP_TIME_WINDOW_MS now (recentDetections st) in
  (validatorReject (fst res) = true /\ snd res = st) \/
  (validatorReject (fst res) = false /\
   ((exists reason, fst res = Dropped reason) /\
    recentDetections (snd res) = pruned
    \/
    exists d, fst res = Emitted d /\ d_timestamp d = now /\
              recentDetections (snd res)
              = pruned ++ [mkRecent (d_type d) (d_boundingBox d) now] /\
              forall r, In r pruned ->
                        ~ duplicateOf DEDUP_SPATIAL_TOLERANCE (d_type d)
                            (d_boundingBox d) r)).
Proof.
  cbv zeta.
  destruct (validatorReject (fst (parseDefectResponse now data st))) eqn:Ev.
  { left. split; [reflexivity|].
    now apply parseDefectResponse_reject_keeps_state. }
  right. split; [reflexivity|].
  destruct (parseDefectResponse now data st) as [[reason|d] st'] eqn:E.
  - left. split; [now exists reason|]. simpl. revert E Ev.
    unfold parseDefectResponse.
    destruct (truthy (p_box_2d data) && negb (isArray (p_box_2d data)));
      [intro H; injection H as <- <-; discriminate|].
    destruct (_ || _); [intro H; injection H as <- <-; discriminate|].
    destruct (p_defectType data) as [| | | |defectType| |];
      try (intro H; injection H as <- <-; discriminate).
    destruct (Qltb _ MIN_CONFIDENCE_THRESHOLD);
      [intro H; injection H as <- <-; discriminate|].
    unfold isDuplicate, isDuplicateWith.
    destruct (scanRecent _ _ _ _);
      [intro H; injection H as <- <-; reflexivity|].
    destruct (parseBox (p_box_2d data)) as [bbox|]; [|discriminate].
    destruct (checkTemporalConsistency _ _ _ _ _) as [temporal buffer].
    destruct (negb (isConfirmed temporal));
      [intro H; injection H as <- <-; reflexivity|].
    destruct (shouldSuppressNMS _ _ _ _ _) as [[|] confirmed];
      [intro H; injection H as <- <-; reflexivity | discriminate].
  - right. exists d.
    destruct (parseDefectResponse_emitted_recent _ _ _ _ _ E) as [Hr Hs].
    destruct (parseDefectResponse_emitted _ _ _ _ _ E) as (ty & _ & Hd & _).
    split; [reflexivity|]. split; [now subst d|]. split; [exact Hr|].
    intros r Hin Hdup.
    assert (scanRecent DEDUP_SPATIAL_TOLERANCE (d_type d) (d_boundingBox d)
              (pruneRecent DEDUP_TIME_WINDOW_MS now (recentDetections st))
            = true); [|congruence].
    apply scanRecent_true_iff. now exists r.
Qed.

(** A record of the deduplication list stays in it through a message that
    is processed less than 30 s after the record was made. *)
Lemma parseDefectResponse_keeps_recent now data st r :
  In r (recentDetections st) ->
  (now - rd_timestamp r < DEDUP_TIME_WINDOW_MS)%Z ->
  In r (recentDetections (snd (parseDefectResponse now data st))).
Proof.
  intros Hin Hw.
  assert (Hp : In r (pruneRecent DEDUP_TIME_WINDOW_MS now
                                 (recentDetections st))).
  { apply filter_In. split; [exact Hin|]. now apply Z.ltb_lt. }
  pose proof (parseDefectResponse_recent_cases now data st) as H.
  cbv zeta in H.
  destruct H as [[_ ->]|[_ [[_ ->]|(d & _ & _ & -> & _)]]].
  - exact Hin.
  - exact Hp.
  - apply in_or_app. now left.
Qed.

Lemma runMessages_keeps_recent msgs st r :
  In r (recentDetections st) ->
  Forall (fun m => (fst m - rd_timestamp r < DEDUP_TIME_WINDOW_MS)%Z) msgs ->
  In r (recentDetections (snd (runMessages msgs st))).
Proof.
  intros Hin Hall. revert st Hin.
  induction Hall as [|[now data] msgs Hm _ IH]; intros st Hin; [exact Hin|].
  simpl.
  pose proof (parseDefectResponse_keeps_recent now data st r Hin Hm) as H1.
  destruct (parseDefectResponse now data st) as [out st1].
  specialize (IH st1 H1).
  destruct (runMessages msgs st1) as [ds st2]. exact IH.
Qed.

(** X2.  Once a detection has been reported, the same payload is dropped as
    a duplicate when it arrives again less than 30 s after the report,
    whatever messages the client has processed in between, each of them less
    than 30 s after the report (the client is not stopped in between: [stop]
    empties the list). *)
Theorem parseDefectResponse_repeat_is_duplicate
        now data st d st' msgs now2 :
  parseDefectResponse now data st = (Emitted d, st') ->
  Forall (fun m => (fst m - now < 30000)%Z) msgs ->
  (now2 - now < 30000)%Z ->
  fst (parseDefectResponse now2 data (snd (runMessages msgs st')))
  = Dropped Duplicate.
Proof.
  intros H Hmsgs Hw.
  pose proof (parseDefectResponse_emitted_recent _ _ _ _ _ H) as [Hrec _].
  pose proof (parseDefectResponse_emitted _ _ _ _ _ H) as (ty & Hty & Hd & Hc).
  subst d. simpl in Hrec.
  set (r := mkRecent ty (parseBox (p_box_2d data)) now).
  assert (Hin : In r (recentDetections st')).
  { rewrite Hrec. unfold trackDetection. apply in_or_app. right. now left. }
  pose proof (runMessages_keeps_recent msgs st' r Hin Hmsgs) as Hin2.
  set (st2 := snd (runMessages msgs st')) in *.
  assert (Hdup : fst (isDuplicate now2 ty (parseBox (p_box_2d data))
                                  (recentDetections st2)) = true).
  { apply isDuplicateWith_true_iff. exists r. split; [exact Hin2|].
    split; [exact Hw|]. now apply duplicateOf_self. }
  revert H. unfold parseDefectResponse. rewrite Hty.
  destruct (truthy (p_box_2d data) && negb (isArray (p_box_2d data)));
    [discriminate|].
  destruct (_ || _); [discriminate|].
  destruct (Qltb _ MIN_CONFIDENCE_THRESHOLD); [discriminate|].
  intros _.
  destruct (isDuplicate now2 ty _ (recentDetections st2)) as [dup2 recent2].
  simpl in Hdup. subst dup2. reflexivity.
Qed.

(** The crack of the prompt, reported at 0 and sent again 29.999 s later,
    after a stain, a clear frame and a mold were processed in between. *)
Lemma parseDefectResponse_repeat_is_duplicate_witness :
  let data := mkPayload (JStr "defect") (JStr "crack") (JNum 85)
                (JArr [JNum 200; JNum 150; JNum 450; JNum 180]) in
  let between :=
    [(5000%Z, mkPayload (JStr "defect") (JStr "stain") (JNum 90)
                (JArr [JNum 500; JNum 500; JNum 700; JNum 800]));
     (9000%Z, mkPayload (JStr "clear") JUndefined JUndefined JUndefined);
     (20000%Z, mkPayload (JStr "defect") (JStr "mold") (JNum 75)
                 JUndefined)] in
  let r := parseDefectResponse 0 data initialClient in
  (exists d, fst r = Emitted d) /\
  List.length (fst (runMessages between (snd r))) = 2%nat /\
  fst (parseDefectResponse 29999 data (snd (runMessages between (snd r))))
  = Dropped Duplicate.
Proof.
  cbv zeta. split; [eexists; reflexivity|]. split; [reflexivity|].
  refine (parseDefectResponse_repeat_is_duplicate 0
            (mkPayload (JStr "defect") (JStr "crack") (JNum 85)
               (JArr [JNum 200; JNum 150; JNum 450; JNum 180]))
            initialClient _ _ _ 29999 _ _ _);
    [reflexivity | repeat constructor | reflexivity].
Defined.

Section NoDuplicates.

(** The records of the defects reported so far that are still inside the
    window at [tlast] are in the deduplication list. *)
Let covers (tlast : Z) (prev : list Defect) (recent : list RecentDetection)
  : Prop :=
  forall d, In d prev ->
            (tlast - d_timestamp d < DEDUP_TIME_WINDOW_MS)%Z ->
            In (mkRecent (d_type d) (d_boundingBox d) (d_timestamp d)) recent.

Lemma runMessages_distinct msgs :
  forall st prev tlast,
    covers tlast prev (recentDetections st) ->
    Forall (fun m => (tlast <= fst m)%Z) msgs ->
    StronglySorted Z.le (map fst msgs) ->
    ForallOrdPairs distinctReports (fst (runMessages msgs st)) /\
    Forall (fun d2 => Forall (fun d1 => distinctReports d1 d2) prev)
           (fst (runMessages msgs st)).
Proof.
  induction msgs as [|[now data] rest IH]; intros st prev tlast Hcov Hge Hs.
  { simpl. split; constructor. }
  simpl in Hs. apply StronglySorted_inv in Hs. destruct Hs as [Hs Hnow].
  inversion Hge as [|m ms Htl Hge']; subst. simpl in Htl.
  assert (Hrest : Forall (fun m => (now <= fst m)%Z) rest).
  { rewrite Forall_map in Hnow. exact Hnow. }
  simpl.
  pose proof (parseDefectResponse_recent_cases now data st) as Hc.
  cbv zeta in Hc.
  destruct (parseDefectResponse now data st) as [out st1]. simpl in Hc.
  (* the records inside the window survive the message *)
  assert (Hkeep : forall d, In d prev ->
            (now - d_timestamp d < DEDUP_TIME_WINDOW_MS)%Z ->
            In (mkRecent (d_type d) (d_boundingBox d) (d_timestamp d))
               (pruneRecent DEDUP_TIME_WINDOW_MS now (recentDetections st))).
  { intros d Hd Hw. apply filter_In. split.
    - apply Hcov; [exact Hd | lia].
    - simpl. now apply Z.ltb_lt. }
  destruct Hc as [[Hv ->]|[Hv [[[reason ->] Hr]|(d & -> & Hts & Hr & Hnd)]]].
  - (* rejected by the validation *)
    destruct out as [reason|d]; [|discriminate].
    assert (Hcov' : covers now prev (recentDetections st)).
    { intros d Hd Hw. apply Hcov; [exact Hd | lia]. }
    specialize (IH st prev now Hcov' Hrest Hs).
    destruct (runMessages rest st) as [ds st2]. exact IH.
  - (* dropped by a later stage *)
    assert (Hcov' : covers now prev (recentDetections st1)).
    { intros d Hd Hw. rewrite Hr. now apply Hkeep. }
    specialize (IH st1 prev now Hcov' Hrest Hs).
    destruct (runMessages rest st1) as [ds st2]. exact IH.
  - (* reported *)
    assert (Hcov' : covers now (prev ++ [d]) (recentDetections st1)).
    { intros d0 Hd0 Hw. rewrite Hr. apply in_or_app.
      apply in_app_or in Hd0. destruct Hd0 as [Hd0|[<-|[]]].
      - left. now apply Hkeep.
      - right. left. now rewrite Hts. }
    specialize (IH st1 (prev ++ [d]) now Hcov' Hrest Hs).
    destruct (runMessages rest st1) as [ds st2]. simpl in IH |- *.
    destruct IH as [IH1 IH2].
    assert (Hd : Forall (fun d1 => distinctReports d1 d) prev).
    { apply Forall_forall. intros d1 Hd1 Hw. rewrite Hts in Hw.
      apply Hnd. now apply Hkeep. }
    split.
    + constructor; [|exact IH1].
      apply Forall_forall. intros d2 Hd2.
      rewrite Forall_forall in IH2. specialize (IH2 d2 Hd2).
      rewrite Forall_forall in IH2. apply IH2.
      apply in_or_app. right. now left.
    + constructor; [exact Hd|].
      apply Forall_forall. intros d2 Hd2.
      rewrite Forall_forall in IH2. specialize (IH2 d2 Hd2).
      apply Forall_forall. intros d1 Hd1.
      rewrite Forall_forall in IH2. apply IH2.
      apply in_or_app. now left.
Qed.

End NoDuplicates.

(** X6.  When the messages of a session are processed at non-decreasing
    instants, no reported defect is a duplicate of an earlier reported one:
    of two reports less than 30 s apart, the later one has another type, or
    both have boxes whose centres are at least 0.15 apart.  This holds from
    any starting state. *)
Theorem runMessages_reports_distinct msgs st :
  StronglySorted Z.le (map fst msgs) ->
  ForallOrdPairs distinctReports (fst (runMessages msgs st)).
Proof.
  intro Hs. destruct msgs as [|[now data] rest]; [constructor|].
  refine (proj1 (runMessages_distinct ((now, data) :: rest) st [] now _ _ Hs)).
  - intros d [].
  - constructor; [simpl; lia|].
    simpl in Hs. apply StronglySorted_inv in Hs. destruct Hs as [_ Hs].
    rewrite Forall_map in Hs. exact Hs.
Qed.

(** A crack, the same crack one second later, and a crack elsewhere: the
    first and the third are reported. *)
Lemma runMessages_reports_distinct_witness :
  let crack box := mkPayload (JStr "defect") (JStr "crack") (JNum 85) box in
  let here := JArr [JNum 200; JNum 150; JNum 450; JNum 180] in
  let there := JArr [JNum 600; JNum 700; JNum 800; JNum 900] in
  let msgs := [(0%Z, crack here); (1000%Z, crack here); (2000%Z, crack there)] in
  StronglySorted Z.le (map fst msgs) /\
  List.length (fst (runMessages msgs initialClient)) = 2%nat /\
  ForallOrdPairs distinctReports (fst (runMessages msgs initialClient)).
Proof.
  cbv zeta.
  assert (Hs : StronglySorted Z.le
                 (map fst
                    [(0%Z, mkPayload (JStr "defect") (JStr "crack") (JNum 85)
                             (JArr [JNum 200; JNum 150; JNum 450; JNum 180]));
                     (1000%Z, mkPayload (JStr "defect") (JStr "crack") (JNum 85)
                                (JArr [JNum 200; JNum 150; JNum 450; JNum 180]));
                     (2000%Z, mkPayload (JStr "defect") (JStr "crack") (JNum 85)
                                (JArr [JNum 600; JNum 700; JNum 800;
                                       JNum 900]))])).
  { simpl. repeat constructor; discriminate. }
  split; [exact Hs|]. split; [reflexivity|].
  exact (runMessages_reports_distinct _ initialClient Hs).
Defined.

(** ** The evidence hash *)

Lemma toInt32_range z : (- 2147483648 <= toInt32 z < 2147483648)%Z.
Proof.
  unfold toInt32.
  pose proof (Z.mod_pos_bound (z + 2147483648) 4294967296 eq_refl). lia.
Qed.

Lemma toInt32_congr a b :
  ((a - b) mod 4294967296 = 0)%Z -> toInt32 a = toInt32 b.
Proof.
  intro H. unfold toInt32. f_equal.
  apply Z.mod_divide in H; [|discriminate]. destruct H as [k Hk].
  replace (a + 2147483648)%Z with (b + 2147483648 + k * 4294967296)%Z by lia.
  apply Z.mod_add. discriminate.
Qed.

Lemma toInt32_mod z : ((toInt32 z - z) mod 4294967296 = 0)%Z.
Proof.
  unfold toInt32.
  rewrite (Z.mod_eq (z + 2147483648) 4294967296) by discriminate.
  replace (z + 2147483648
           - 4294967296 * ((z + 2147483648) / 4294967296)
           - 2147483648 - z)%Z
    with (- ((z + 2147483648) / 4294967296) * 4294967296)%Z by lia.
  apply Z.mod_mul. discriminate.
Qed.

Lemma hashLoop_poly31 data h :
  hashLoop data (toInt32 h) = toInt32 (poly31 data h).
Proof.
  revert h. induction data as [|c rest IH]; intro h; [reflexivity|].
  simpl. rewrite <- IH. f_equal.
  apply toInt32_congr.
  pose proof (toInt32_mod h) as H1.
  pose proof (toInt32_mod (toInt32 h * 32)) as H2.
  apply Z.mod_divide in H1; [|discriminate].
  apply Z.mod_divide in H2; [|discriminate].
  destruct H1 as [k1 H1], H2 as [k2 H2].
  apply Z.mod_divide; [discriminate|].
  exists (k2 + 31 * k1)%Z. lia.
Qed.

Lemma hexDigitValue_hexDigit d :
  (0 <= d < 16)%Z -> hexDigitValue (hexDigit d) = d.
Proof.
  intro H.
  assert (d = 0 \/ d = 1 \/ d = 2 \/ d = 3 \/ d = 4 \/ d = 5 \/ d = 6 \/ d = 7
          \/ d = 8 \/ d = 9 \/ d = 10 \/ d = 11 \/ d = 12 \/ d = 13 \/ d = 14
          \/ d = 15)%Z as Hd by lia.
  repeat (destruct Hd as [->|Hd]; [reflexivity|]). now subst.
Qed.

Lemma hexValueFrom_app s t v :
  hexValueFrom (s ++ t) v = hexValueFrom t (hexValueFrom s v).
Proof. revert v. induction s; intro v; simpl; [reflexivity|apply IHs]. Qed.

Lemma string_length_app s t :
  String.length (s ++ t) = (String.length s + String.length t)%nat.
Proof. induction s; simpl; [reflexivity|now rewrite IHs]. Qed.

Lemma string_app_assoc (s t u : string) :
  ((s ++ t) ++ u = s ++ (t ++ u))%string.
Proof. induction s; simpl; [reflexivity|now rewrite IHs]. Qed.

(** The digits that [toHexDigits] puts in front of the accumulator: at least
    one, at most [k] when [n < 16^k], and they denote [n]. *)
Lemma toHexDigits_spec fuel :
  forall (k : nat) (n : Z) (acc : string),
    (1 <= k <= fuel)%nat -> (0 <= n < 16 ^ Z.of_nat k)%Z ->
    exists ds,
      toHexDigits fuel n acc = (ds ++ acc)%string /\
      (1 <= String.length ds <= k)%nat /\
      forall v, hexValueFrom ds v
                = (v * 16 ^ Z.of_nat (String.length ds) + n)%Z.
Proof.
  induction fuel as [|fuel IH]; intros k n acc Hk Hn; [lia|].
  simpl.
  assert (Hmod : (0 <= n mod 16 < 16)%Z) by (apply Z.mod_pos_bound; lia).
  destruct (n / 16 =? 0)%Z eqn:E.
  - apply Z.eqb_eq in E.
    exists (String (hexDigit (n mod 16)) EmptyString). simpl.
    split; [reflexivity|]. split; [lia|].
    intro v. rewrite hexDigitValue_hexDigit by exact Hmod.
    pose proof (Z.div_mod n 16 ltac:(lia)). lia.
  - apply Z.eqb_neq in E.
    assert (Hk2 : (2 <= k)%nat).
    { destruct k as [|[|k]]; [lia| |lia]. exfalso. apply E.
      apply Z.div_small. simpl in Hn. lia. }
    assert (Hdiv : (0 <= n / 16 < 16 ^ Z.of_nat (k - 1))%Z).
    { split; [apply Z.div_pos; lia|].
      apply Z.div_lt_upper_bound; [lia|].
      replace (16 * 16 ^ Z.of_nat (k - 1))%Z with (16 ^ Z.of_nat k)%Z; [lia|].
      replace (Z.of_nat k) with (Z.succ (Z.of_nat (k - 1))) by lia.
      rewrite Z.pow_succ_r by lia. reflexivity. }
    destruct (IH (k - 1)%nat (n / 16)%Z
                 (String (hexDigit (n mod 16)) acc) ltac:(lia) Hdiv)
      as (ds & Hds & Hlen & Hval).
    exists (ds ++ String (hexDigit (n mod 16)) EmptyString)%string.
    split; [rewrite Hds, string_app_assoc; reflexivity|].
    rewrite string_length_app. simpl. split; [lia|].
    intro v. rewrite hexValueFrom_app, Hval. simpl.
    rewrite hexDigitValue_hexDigit by exact Hmod.
    replace (Z.of_nat (String.length ds + 1))
      with (Z.succ (Z.of_nat (String.length ds))) by lia.
    rewrite Z.pow_succ_r by lia.
    pose proof (Z.div_mod n 16 ltac:(lia)). lia.
Qed.

Lemma toString16_spec (k : nat) (n : Z) :
  (1 <= k)%nat -> (0 <= n < 16 ^ Z.of_nat k)%Z ->
  (1 <= String.length (toString16 n) <= k)%nat /\
  hexValue (toString16 n) = n.
Proof.
  intros Hk Hn. unfold toString16.
  set (fuel := S (Z.to_nat (Z.log2 n))).
  assert (Hfuel : (0 <= n < 16 ^ Z.of_nat fuel)%Z).
  { split; [lia|]. unfold fuel.
    destruct (Z.eq_dec n 0) as [->|Hn0]; [reflexivity|].
    pose proof (Z.log2_nonneg n).
    pose proof (Z.log2_spec n ltac:(lia)) as [_ Hlt].
    rewrite Nat2Z.inj_succ, Z2Nat.id by lia.
    eapply Z.lt_le_trans; [exact Hlt|].
    apply Z.pow_le_mono_l. lia. }
  destruct (le_lt_dec k fuel) as [Hle|Hgt].
  - destruct (toHexDigits_spec fuel k n "" ltac:(lia) Hn)
      as (ds & Hds & Hlen & Hval).
    rewrite Hds. replace (ds ++ "")%string with ds
      by (clear; induction ds; simpl; congruence).
    split; [exact Hlen|]. unfold hexValue. rewrite Hval. lia.
  - destruct (toHexDigits_spec fuel fuel n "" ltac:(unfold fuel; lia) Hfuel)
      as (ds & Hds & Hlen & Hval).
    rewrite Hds. replace (ds ++ "")%string with ds
      by (clear; induction ds; simpl; congruence).
    split; [lia|]. unfold hexValue. rewrite Hval. lia.
Qed.

Lemma repeatChar_add a b c :
  repeatChar (a + b) c = (repeatChar a c ++ repeatChar b c)%string.
Proof. induction a; simpl; [reflexivity|now rewrite IHa]. Qed.

Lemma repeatChar_length n c : String.length (repeatChar n c) = n.
Proof. induction n; simpl; [reflexivity|now rewrite IHn]. Qed.

Lemma hexValueFrom_zeros n s :
  hexValueFrom (repeatChar n "0" ++ s) 0 = hexValueFrom s 0.
Proof. induction n; simpl; [reflexivity|exact IHn]. Qed.

(** X7.  The evidence hash is the 31-polynomial of the code units wrapped to
    a signed 32-bit integer, printed without its sign: the 16 characters of
    [generateHash] always start with eight zeros, the other eight are the
    hexadecimal digits of the absolute value of that integer, and the value
    never exceeds 2^31. *)
Theorem generateHash_shape (data : string) :
  exists t : string,
    generateHash data = ("00000000" ++ t)%string /\
    String.length t = 8%nat /\
    hexValue (generateHash data) = Z.abs (toInt32 (poly31 data 0)) /\
    hexValue t = Z.abs (toInt32 (poly31 data 0)) /\
    (Z.abs (toInt32 (poly31 data 0)) <= 2147483648)%Z.
Proof.
  unfold generateHash; cbv zeta.
  change 0%Z with (toInt32 0) at 1 2. rewrite hashLoop_poly31.
  set (h := toInt32 (poly31 data 0)).
  pose proof (toInt32_range (poly31 data 0)) as Hr. fold h in Hr.
  assert (Hn : (0 <= Z.abs h < 16 ^ Z.of_nat 8)%Z) by (simpl; lia).
  destruct (toString16_spec 8 (Z.abs h) ltac:(lia) Hn) as [Hlen Hval].
  set (hex := toString16 (Z.abs h)) in *.
  unfold padStart.
  replace (16 - String.length hex)%nat
    with (8 + (8 - String.length hex))%nat by lia.
  rewrite repeatChar_add, string_app_assoc.
  exists (repeatChar (8 - String.length hex) "0" ++ hex)%string.
  split; [reflexivity|]. split.
  - rewrite string_length_app, repeatChar_length. lia.
  - unfold hexValue in *.
    change ("00000000"%string) with (repeatChar 8 "0").
    rewrite !hexValueFrom_zeros. repeat split; trivial. lia.
Qed.

(** ** Overlay geometry *)

#[global] Instance Math_round_comp : Proper (Qeq ==> eq) Math_round.
Proof. intros a b H. unfold Math_round. now rewrite H. Qed.

Lemma Math_round_le a b : a <= b -> (Math_round a <= Math_round b)%Z.
Proof. intro H. unfold Math_round. apply Qfloor_resp_le. lra. Qed.

Lemma Math_round_bounds a :
  a - (1 # 2) < inject_Z (Math_round a)
  /\ inject_Z (Math_round a) <= a + (1 # 2).
Proof.
  unfold Math_round. split.
  - pose proof (Qlt_floor (a + (1 # 2))) as H.
    rewrite inject_Z_plus in H. change (inject_Z 1) with 1 in H. lra.
  - apply Qfloor_le.
Qed.

Section DisplayRect.
Variables vw vh cw ch : Q.
Hypothesis Hvw : 0 < vw.
Hypothesis Hvh : 0 < vh.
Hypothesis Hcw : 0 < cw.
Hypothesis Hch : 0 < ch.

(** The video is wider than the container. *)
Lemma ratio_gt_iff : cw / ch < vw / vh <-> cw * vh < vw * ch.
Proof.
  assert (E1 : cw == cw / ch * ch) by (field; lra).
  assert (E2 : vw == vw / vh * vh) by (field; lra).
  set (a := cw / ch) in *. set (b := vw / vh) in *.
  assert (Hp : 0 < ch * vh) by (apply Qmult_lt_0_compat; assumption).
  split; intro H.
  - rewrite E1, E2.
    apply (Qmult_lt_compat_r _ _ (ch * vh)) in H; [|exact Hp]. lra.
  - rewrite E1, E2 in H.
    apply (Qmult_lt_r _ _ (ch * vh)); [exact Hp|]. lra.
Qed.

Lemma displayRect_cover :
  let r := getVideoDisplayRect vw vh cw ch Cover in
  (cw * vh < vw * ch /\ fitsHeight vw vh cw ch r)
  \/ (vw * ch <= cw * vh /\ fitsWidth vw vh cw ch r).
Proof.
  cbv zeta. unfold getVideoDisplayRect, fitsHeight, fitsWidth; cbv zeta.
  destruct (Qgtb (vw / vh) (cw / ch)) eqn:E; simpl.
  - apply Qgtb_iff, ratio_gt_iff in E. left. split; [exact E|].
    repeat split; field; lra.
  - right. split.
    + apply Qgtb_false_iff in E. apply Qnot_lt_le. intro H.
      apply ratio_gt_iff in H. lra.
    + repeat split; field; lra.
Qed.

Lemma displayRect_contain :
  let r := getVideoDisplayRect vw vh cw ch Contain in
  (cw * vh < vw * ch /\ fitsWidth vw vh cw ch r)
  \/ (vw * ch <= cw * vh /\ fitsHeight vw vh cw ch r).
Proof.
  cbv zeta. unfold getVideoDisplayRect, fitsHeight, fitsWidth; cbv zeta.
  destruct (Qgtb (vw / vh) (cw / ch)) eqn:E; simpl.
  - apply Qgtb_iff, ratio_gt_iff in E. left. split; [exact E|].
    repeat split; field; lra.
  - right. split.
    + apply Qgtb_false_iff in E. apply Qnot_lt_le. intro H.
      apply ratio_gt_iff in H. lra.
    + repeat split; field; lra.
Qed.

Lemma div_le_iff a b c : 0 < c -> (a / c <= b <-> a <= b * c).
Proof.
  intro Hc. split; intro H.
  - assert (E : a == a / c * c) by (field; lra). rewrite E.
    apply Qmult_le_compat_r; lra.
  - apply Qle_shift_div_r; assumption.
Qed.

Lemma le_div_iff a b c : 0 < c -> (b <= a / c <-> b * c <= a).
Proof.
  intro Hc. split; intro H.
  - assert (E : a == a / c * c) by (field; lra). rewrite E.
    apply Qmult_le_compat_r; lra.
  - apply Qle_shift_div_l; assumption.
Qed.

(** The display rectangle keeps the aspect ratio, is the video scaled by
    [scale], is centred and matches the container in one dimension. *)
Lemma displayRect_scaled (fit : ObjectFit) :
  let r := getVideoDisplayRect vw vh cw ch fit in
  dr_width r * vh == dr_height r * vw /\
  (0 < dr_scale r /\ dr_width r == dr_scale r * vw
   /\ dr_height r == dr_scale r * vh) /\
  (dr_x r * 2 + dr_width r == cw /\ dr_y r * 2 + dr_height r == ch) /\
  (dr_width r == cw \/ dr_height r == ch).
Proof.
  cbv zeta.
  assert (Hfw : forall r, fitsWidth vw vh cw ch r ->
            dr_width r * vh == dr_height r * vw /\
            (0 < dr_scale r /\ dr_width r == dr_scale r * vw
             /\ dr_height r == dr_scale r * vh) /\
            (dr_x r * 2 + dr_width r == cw
             /\ dr_y r * 2 + dr_height r == ch) /\
            (dr_width r == cw \/ dr_height r == ch)).
  { intros r (Hw & Hh & Hx & Hy & Hs). rewrite Hw, Hh, Hx, Hy, Hs.
    split; [field; lra|]. split; [|split; [split; field; lra|now left]].
    split; [apply Qlt_shift_div_l; lra|]. split; field; lra. }
  assert (Hfh : forall r, fitsHeight vw vh cw ch r ->
            dr_width r * vh == dr_height r * vw /\
            (0 < dr_scale r /\ dr_width r == dr_scale r * vw
             /\ dr_height r == dr_scale r * vh) /\
            (dr_x r * 2 + dr_width r == cw
             /\ dr_y r * 2 + dr_height r == ch) /\
            (dr_width r == cw \/ dr_height r == ch)).
  { intros r (Hh & Hw & Hy & Hx & Hs). rewrite Hw, Hh, Hx, Hy, Hs.
    split; [field; lra|]. split; [|split; [split; field; lra|now right]].
    split; [apply Qlt_shift_div_l; lra|]. split; field; lra. }
  destruct fit.
  - destruct displayRect_cover as [[_ Hr]|[_ Hr]]; auto.
  - destruct displayRect_contain as [[_ Hr]|[_ Hr]]; auto.
Qed.

(** Under "contain" the display rectangle lies inside the container. *)
Lemma displayRect_contain_inside :
  let r := getVideoDisplayRect vw vh cw ch Contain in
  dr_width r <= cw /\ dr_height r <= ch /\ 0 <= dr_x r /\ 0 <= dr_y r.
Proof.
  cbv zeta.
  destruct displayRect_contain as [[Hwide Hr]|[Hnarrow Hr]].
  - destruct Hr as (Hw & Hh & Hx & Hy & Hs). rewrite Hw, Hh, Hx, Hy.
    assert (cw * vh / vw <= ch) by (apply div_le_iff; lra).
    set (q := cw * vh / vw) in *. clearbody q.
    split; [|split; [|split]]; try lra.
    apply Qle_shift_div_l; lra.
  - destruct Hr as (Hh & Hw & Hy & Hx & Hs). rewrite Hw, Hh, Hx, Hy.
    assert (ch * vw / vh <= cw) by (apply div_le_iff; lra).
    set (q := ch * vw / vh) in *. clearbody q.
    split; [|split; [|split]]; try lra.
    apply Qle_shift_div_l; lra.
Qed.

End DisplayRect.

(** X10.  The pixel box of a normalised box lies in the display rectangle of
    the video, up to the rounding of each value: its corner is at most half a
    pixel outside, its width and height are between 0 and those of the
    rectangle plus a half.  Under "contain" the corner lies in the container,
    between the half-pixel offset and the size of the container plus one. *)
Theorem transformBoundingBox_inside (b : BBox) vw vh cw ch fit :
  0 < vw -> 0 < vh -> 0 < cw -> 0 < ch ->
  normalized b ->
  let r := getVideoDisplayRect vw vh cw ch fit in
  let p := transformBoundingBox b vw vh cw ch fit in
  (dr_x r - (1 # 2) < px_x p - (1 # 2)
   /\ px_x p - (1 # 2) <= dr_x r + dr_width r + (1 # 2)) /\
  (dr_y r - (1 # 2) < px_y p - (1 # 2)
   /\ px_y p - (1 # 2) <= dr_y r + dr_height r + (1 # 2)) /\
  (0 <= px_width p /\ px_width p <= dr_width r + (1 # 2)) /\
  (0 <= px_height p /\ px_height p <= dr_height r + (1 # 2)) /\
  (fit = Contain ->
   (1 # 2) <= px_x p /\ px_x p <= cw + 1 /\
   (1 # 2) <= px_y p /\ px_y p <= ch + 1).
Proof.
  intros Hvw Hvh Hcw Hch
         ((Hy0 & Hy1) & (Hx0 & Hx1) & (Hy2 & Hy3) & (Hx2 & Hx3) & Hy & Hx).
  cbv zeta.
  pose proof (displayRect_scaled vw vh cw ch Hvw Hvh Hcw Hch fit) as H.
  cbv zeta in H.
  destruct H as (_ & (Hs & Hw & Hh) & (Hcx & Hcy) & _).
  assert (Hfit : fit = Contain ->
                 let r := getVideoDisplayRect vw vh cw ch fit in
                 dr_width r <= cw /\ dr_height r <= ch
                 /\ 0 <= dr_x r /\ 0 <= dr_y r).
  { intros ->. apply displayRect_contain_inside; assumption. }
  cbv zeta in Hfit.
  unfold transformBoundingBox; cbv zeta.
  set (r := getVideoDisplayRect vw vh cw ch fit) in *. simpl.
  (* the edges inside the display rectangle *)
  assert (EL : dr_x r + xmin b * vw * dr_scale r == dr_x r + xmin b * dr_width r)
    by (rewrite Hw; ring).
  assert (ET : dr_y r + ymin b * vh * dr_scale r == dr_y r + ymin b * dr_height r)
    by (rewrite Hh; ring).
  assert (EW : (xmax b - xmin b) * vw * dr_scale r
               == (xmax b - xmin b) * dr_width r) by (rewrite Hw; ring).
  assert (EH : (ymax b - ymin b) * vh * dr_scale r
               == (ymax b - ymin b) * dr_height r) by (rewrite Hh; ring).
  rewrite (Math_round_comp _ _ EL), (Math_round_comp _ _ ET),
    (Math_round_comp _ _ EW), (Math_round_comp _ _ EH).
  assert (Hdw : 0 < dr_width r) by (rewrite Hw; apply Qmult_lt_0_compat; lra).
  assert (Hdh : 0 < dr_height r) by (rewrite Hh; apply Qmult_lt_0_compat; lra).
  pose proof (Math_round_bounds (dr_x r + xmin b * dr_width r)) as [BL1 BL2].
  pose proof (Math_round_bounds (dr_y r + ymin b * dr_height r)) as [BT1 BT2].
  pose proof (Math_round_bounds ((xmax b - xmin b) * dr_width r)) as [BW1 BW2].
  pose proof (Math_round_bounds ((ymax b - ymin b) * dr_height r)) as [BH1 BH2].
  assert (PW : 0 <= inject_Z (Math_round ((xmax b - xmin b) * dr_width r))).
  { change 0 with (inject_Z 0). rewrite <- Zle_Qle.
    change 0%Z with (Math_round 0). apply Math_round_le. nra. }
  assert (PH : 0 <= inject_Z (Math_round ((ymax b - ymin b) * dr_height r))).
  { change 0 with (inject_Z 0). rewrite <- Zle_Qle.
    change 0%Z with (Math_round 0). apply Math_round_le. nra. }
  split; [split; nra|]. split; [split; nra|].
  split; [split; nra|]. split; [split; nra|].
  intros E. destruct (Hfit E) as (Hfw & Hfh & Hfx & Hfy).
  assert (PL : 0 <= inject_Z (Math_round (dr_x r + xmin b * dr_width r))).
  { change 0 with (inject_Z 0). rewrite <- Zle_Qle.
    change 0%Z with (Math_round 0). apply Math_round_le. nra. }
  assert (PT : 0 <= inject_Z (Math_round (dr_y r + ymin b * dr_height r))).
  { change 0 with (inject_Z 0). rewrite <- Zle_Qle.
    change 0%Z with (Math_round 0). apply Math_round_le. nra. }
  repeat split; nra.
Qed.

(** The crack of the prompt on a 1280 x 720 video letterboxed in a square
    container. *)
Lemma transformBoundingBox_inside_witness :
  let b := mkBBox (2 # 10) (15 # 100) (45 # 100) (18 # 100) in
  let p := transformBoundingBox b 1280 720 720 720 Contain in
  p = mkPixelBox (217 # 2) (479 # 2) 22 101 /\
  (1 # 2) <= px_x p /\ px_x p <= 720 + 1 /\
  (1 # 2) <= px_y p /\ px_y p <= 720 + 1.
Proof.
  cbv zeta. split; [vm_compute; reflexivity|].
  refine (proj2 (proj2 (proj2 (proj2
    (transformBoundingBox_inside
       (mkBBox (2 # 10) (15 # 100) (45 # 100) (18 # 100))
       1280 720 720 720 Contain eq_refl eq_refl eq_refl eq_refl _)))) eq_refl).
  unfold normalized; simpl.
  repeat match goal with |- _ /\ _ => split end;
    (discriminate || reflexivity).
Defined.

(** ** Label-based helpers *)

Lemma lower_ascii_idem c : lower_ascii (lower_ascii c) = lower_ascii c.
Proof.
  destruct c as [[] [] [] [] [] [] [] []]; reflexivity.
Qed.

Lemma toLowerCase_idem s : toLowerCase (toLowerCase s) = toLowerCase s.
Proof.
  induction s as [|c s IH]; simpl; [reflexivity|].
  now rewrite lower_ascii_idem, IH.
Qed.

Lemma sameType_lower a b :
  sameType a b = true -> toLowerCase a = toLowerCase b.
Proof. unfold sameType. apply String.eqb_eq. Qed.

(** The helpers that read the label of a defect see it only up to the case
    of its letters: two labels that the deduplication holds for the same
    type get the same category, the same recommendation and the same cost
    estimate. *)
Lemma label_helpers_ignore_case (a b : string) :
  sameType a b = true ->
  inferCategory a = inferCategory b /\
  (forall severity, getRecommendation a severity = getRecommendation b severity)
  /\
  (forall severity, getEstimatedCost a severity = getEstimatedCost b severity).
Proof.
  intro H. apply sameType_lower in H.
  unfold inferCategory, getRecommendation, getEstimatedCost; cbv zeta.
  rewrite H. repeat split.
Qed.

Lemma label_helpers_ignore_case_witness :
  inferCategory "Water STAIN" = inferCategory "water stain" /\
  getEstimatedCost "Water STAIN" Medium = "$200-800"%string.
Proof.
  split.
  - exact (proj1 (label_helpers_ignore_case "Water STAIN" "water stain"
                    eq_refl)).
  - reflexivity.
Defined.

(** X11.  The cost estimate is not monotone in the severity: a critical
    defect whose label names none of crack, structural, foundation, mold and
    water gets the estimate of a minor defect, "$50-200", while the same
    label at medium severity gets "$200-800" or "$100-500". *)
Theorem getEstimatedCost_critical_fallback (defectType : string) :
  includesAny (toLowerCase defectType)
              ["crack"; "structural"; "foundation"; "mold"; "water"]%string
  = false ->
  getEstimatedCost defectType Critical = "$50-200"%string /\
  getEstimatedCost defectType Critical = getEstimatedCost defectType Minor /\
  (getEstimatedCost defectType Medium = "$200-800"%string \/
   getEstimatedCost defectType Medium = "$100-500"%string).
Proof.
  unfold includesAny, getEstimatedCost; cbv zeta. simpl.
  set (type := toLowerCase defectType).
  destruct (includes type "crack"); [discriminate|].
  destruct (includes type "structural"); [discriminate|].
  destruct (includes type "foundation"); [discriminate|].
  destruct (includes type "mold"); [discriminate|].
  destruct (includes type "water"); [discriminate|].
  intros _. simpl. split; [reflexivity|]. split; [reflexivity|].
  destruct (includes type "stain"); [now left | now right].
Qed.

Lemma getEstimatedCost_critical_fallback_witness :
  getEstimatedCost "paint peeling" Critical = "$50-200"%string /\
  getEstimatedCost "paint peeling" Medium = "$100-500"%string.
Proof.
  split.
  - exact (proj1 (getEstimatedCost_critical_fallback "paint peeling"
                    eq_refl)).
  - reflexivity.
Defined.

(** ** The damage algorithm *)

Lemma insertScore_perm x l : Permutation (insertScore x l) (x :: l).
Proof.
  induction l as [|y l IH]; simpl; [reflexivity|].
  destruct (Qgtb (ds_utilityScore y) (ds_utilityScore x)); [|reflexivity].
  rewrite IH. apply perm_swap.
Qed.

Lemma sortByScore_perm l : Permutation (sortByScore l) l.
Proof.
  induction l as [|x l IH]; simpl; [reflexivity|].
  rewrite insertScore_perm. now constructor.
Qed.

Lemma insertScore_sorted x l :
  StronglySorted byScore l -> StronglySorted byScore (insertScore x l).
Proof.
  induction 1 as [|y l Hl IH Hy]; simpl; [repeat constructor|].
  destruct (Qgtb (ds_utilityScore y) (ds_utilityScore x)) eqn:E.
  - constructor; [exact IH|].
    apply Qgtb_iff in E.
    eapply Permutation_Forall; [symmetry; apply insertScore_perm|].
    constructor; [unfold byScore; lra | exact Hy].
  - apply Qgtb_false_iff in E.
    constructor; [now constructor|].
    constructor; [exact E|].
    apply Forall_forall. intros z Hz. rewrite Forall_forall in Hy.
    specialize (Hy z Hz). unfold byScore in *. lra.
Qed.

Lemma sortByScore_sorted l : StronglySorted byScore (sortByScore l).
Proof.
  induction l as [|x l IH]; simpl; [constructor|].
  now apply insertScore_sorted.
Qed.

(** A list that is already in order is left as it is: the sort is stable. *)
Lemma sortByScore_fixes_sorted l :
  StronglySorted byScore l -> sortByScore l = l.
Proof.
  induction 1 as [|x l Hl IH Hx]; simpl; [reflexivity|].
  rewrite IH. destruct l as [|y l]; [reflexivity|]. simpl.
  inversion Hx as [|? ? Hy _]; subst. unfold byScore in Hy.
  apply Qgtb_false_iff in Hy. now rewrite Hy.
Qed.

Lemma assignRanks_length i l : List.length (assignRanks i l) = List.length l.
Proof. revert i. induction l; intro i; simpl; [reflexivity|now rewrite IHl]. Qed.

Lemma assignRanks_ranks i l :
  map ds_priorityRank (assignRanks i l)
  = map (fun k => (i + Z.of_nat k)%Z) (seq 1 (List.length l)).
Proof.
  revert i. induction l as [|x l IH]; intro i; simpl; [reflexivity|].
  f_equal.
  rewrite IH, <- (seq_shift (List.length l) 1), map_map.
  apply map_ext. intro k. lia.
Qed.

Lemma assignRanks_unrank i l :
  map (withRank 0) (assignRanks i l) = map (withRank 0) l.
Proof.
  revert i. induction l as [|x l IH]; intro i; simpl; [reflexivity|].
  now rewrite IH.
Qed.

Lemma withRank_calculate d :
  withRank 0 (calculateUtilityScore d) = calculateUtilityScore d.
Proof. reflexivity. Qed.

Lemma assignRanks_Forall (P : DamageScore -> Prop) i l :
  (forall r s, P s -> P (withRank r s)) ->
  Forall P l -> Forall P (assignRanks i l).
Proof.
  intros HP H. revert i. induction H as [|x l Hx Hl IH]; intro i; simpl;
    [constructor|].
  constructor; [now apply HP | apply IH].
Qed.

Lemma assignRanks_sorted i l :
  StronglySorted byScore l -> StronglySorted byScore (assignRanks i l).
Proof.
  intro H. revert i. induction H as [|x l Hl IH Hx]; intro i; simpl;
    [constructor|].
  constructor; [apply IH|].
  apply assignRanks_Forall; [intros r s Hs; exact Hs | exact Hx].
Qed.

(** X12.  [prioritizeDefects] returns the scores of the defects, each defect
    once, in the order of non-increasing utility score, with the ranks 1, 2,
    ..., n in that order; defects whose scores already come in that order
    keep their order (the sort is stable). *)
Theorem prioritizeDefects_sorted_ranked (defects : list StoreDefect) :
  let scores := prioritizeDefects defects in
  (exists ordered,
     Permutation ordered defects /\
     map (withRank 0) scores = map calculateUtilityScore ordered) /\
  StronglySorted byScore scores /\
  map ds_priorityRank scores
  = map Z.of_nat (seq 1 (List.length defects)) /\
  (StronglySorted byScore (map calculateUtilityScore defects) ->
   map ds_defectId scores = map sd_id defects).
Proof.
  cbv zeta. unfold prioritizeDefects; cbv zeta.
  set (raw := map calculateUtilityScore defects).
  split; [|split; [|split]].
  - destruct (Permutation_map_inv _ _ (sortByScore_perm raw))
      as (ordered & Ho & Hp).
    exists ordered. split; [now symmetry|].
    rewrite assignRanks_unrank, Ho, map_map.
    apply map_ext. intro d. apply withRank_calculate.
  - apply assignRanks_sorted, sortByScore_sorted.
  - rewrite assignRanks_ranks.
    rewrite (Permutation_length (sortByScore_perm raw)).
    unfold raw. rewrite length_map. apply map_ext. intro k. lia.
  - intro Hs. rewrite (sortByScore_fixes_sorted raw Hs).
    unfold raw. clear. generalize 0%Z.
    induction defects as [|d l IH]; intro i; simpl; [reflexivity|].
    now rewrite IH.
Qed.

Lemma severity_count_partition (l : list DamageScore) :
  (List.length (filter (isSeverity Critical) l)
   + List.length (filter (isSeverity Medium) l)
   + List.length (filter (isSeverity Minor) l) = List.length l)%nat.
Proof.
  induction l as [|x l IH]; [reflexivity|].
  cbn [filter].
  assert (E : forall s, isSeverity s x
                        = match s, ds_adjustedSeverity x with
                          | Critical, Critical | Medium, Medium
                          | Minor, Minor => true
                          | _, _ => false
                          end) by reflexivity.
  rewrite !E. destruct (ds_adjustedSeverity x); cbn [List.length]; lia.
Qed.

Lemma filter_length_perm {A} (f : A -> bool) l l' :
  Permutation l l' ->
  List.length (filter f l) = List.length (filter f l').
Proof.
  induction 1 as [|x l l' _ IH|x y l|l l' l'' _ IH1 _ IH2]; simpl;
    [reflexivity| | |congruence].
  - destruct (f x); simpl; congruence.
  - destruct (f x), (f y); reflexivity.
Qed.

Lemma filter_length_assignRanks s i l :
  List.length (filter (isSeverity s) (assignRanks i l))
  = List.length (filter (isSeverity s) l).
Proof.
  revert i. induction l as [|x l IH]; intro i; simpl; [reflexivity|].
  change (isSeverity s (withRank (i + 1) x)) with (isSeverity s x).
  destruct (isSeverity s x); simpl; now rewrite IH.
Qed.

(** The count of a severity among the prioritised scores is its count among
    the scores of the defects. *)
Lemma prioritizeDefects_count s defects :
  List.length (filter (isSeverity s) (prioritizeDefects defects))
  = List.length (filter (isSeverity s) (map calculateUtilityScore defects)).
Proof.
  unfold prioritizeDefects; cbv zeta.
  rewrite filter_length_assignRanks.
  apply filter_length_perm, sortByScore_perm.
Qed.

Lemma filter_length_pos {A} (f : A -> bool) l :
  (0 < List.length (filter f l))%nat <-> exists x, In x l /\ f x = true.
Proof.
  split.
  - destruct (filter f l) as [|x r] eqn:E; simpl; [lia|]. intros _.
    exists x. apply filter_In. rewrite E. now left.
  - intros (x & Hin & Hf).
    assert (In x (filter f l)) by (apply filter_In; now split).
    destruct (filter f l); [contradiction|simpl; lia].
Qed.

Lemma category_costs (c : DamageCategory) :
  In c (unknownCategory :: DAMAGE_CATEGORIES) ->
  0 < dc_costMin c /\ dc_costMin c <= dc_costMax c.
Proof.
  intro H. simpl in H.
  repeat (destruct H as [<-|H]; [split; [reflexivity|discriminate]|]).
  destruct H.
Qed.

Lemma findDamageCategory_In d :
  In (findDamageCategory d) (unknownCategory :: DAMAGE_CATEGORIES).
Proof.
  unfold findDamageCategory; cbv zeta.
  destruct (find _ DAMAGE_CATEGORIES) as [c|] eqn:E; [|now left].
  right. now apply find_some in E.
Qed.

Lemma calculateUtilityScore_costs d :
  (0 <= ds_costMin (calculateUtilityScore d)
   <= ds_costMax (calculateUtilityScore d))%Z.
Proof.
  unfold calculateUtilityScore; cbv zeta. simpl.
  destruct (category_costs _ (findDamageCategory_In d)) as [Hpos Hle].
  set (c := findDamageCategory d) in *.
  set (m := severityMultiplierOf _).
  set (f := Qmax 1 _).
  assert (Hm : 1 <= m).
  { unfold m, severityMultiplierOf.
    match goal with |- 1 <= match ?s with _ => _ end => destruct s end;
      discriminate. }
  assert (Hf : 1 <= f) by apply Q.le_max_l.
  clearbody m f c.
  assert (Hmf : 1 <= m * f) by nra.
  split.
  - change 0%Z with (Math_round 0). apply Math_round_le.
    rewrite <- Qmult_assoc. nra.
  - apply Math_round_le. rewrite <- !Qmult_assoc.
    apply Qmult_le_compat_r; lra.
Qed.

Lemma prioritizeDefects_Forall (P : DamageScore -> Prop) defects :
  (forall r s, P s -> P (withRank r s)) ->
  (forall d, In d defects -> P (calculateUtilityScore d)) ->
  Forall P (prioritizeDefects defects).
Proof.
  intros HP H. unfold prioritizeDefects; cbv zeta.
  apply assignRanks_Forall; [exact HP|].
  eapply Permutation_Forall; [symmetry; apply sortByScore_perm|].
  apply Forall_map, Forall_forall. exact H.
Qed.

Lemma cost_totals_ordered (l : list DamageScore) :
  Forall (fun s => (0 <= ds_costMin s <= ds_costMax s)%Z) l ->
  forall a b : Z,
    (0 <= a <= b)%Z ->
    (0 <= fold_left (fun sum d => (sum + ds_costMin d)%Z) l a
     <= fold_left (fun sum d => (sum + ds_costMax d)%Z) l b)%Z.
Proof.
  induction 1 as [|s l Hs Hl IH]; intros a b Hab; simpl; [exact Hab|].
  apply IH. lia.
Qed.

(** X13.  In the analysis of an inspection the critical, medium and minor
    counts add up to the number of defects; the overall risk level is
    CRITICAL exactly when some defect has the adjusted severity critical,
    which every defect reported as critical has; and the total of the
    minimum cost estimates is non-negative and at most the total of the
    maximum estimates. *)
Theorem analyzeInspection_summary (defects : list StoreDefect) :
  let a := analyzeInspection defects in
  (ia_criticalCount a + ia_mediumCount a + ia_minorCount a
   = ia_totalDefects a)%Z /\
  (ia_overallRiskLevel a = LevelCritical <->
   exists d, In d defects
             /\ ds_adjustedSeverity (calculateUtilityScore d) = Critical) /\
  (forall d, In d defects -> sd_severity d = Critical ->
             ia_overallRiskLevel a = LevelCritical) /\
  (0 <= ia_totalMin a <= ia_totalMax a)%Z.
Proof.
  cbv zeta. unfold analyzeInspection; cbv zeta. simpl.
  set (p := prioritizeDefects defects).
  assert (Hlen : List.length p = List.length defects).
  { unfold p, prioritizeDefects; cbv zeta.
    now rewrite assignRanks_length, (Permutation_length (sortByScore_perm _)),
      length_map. }
  assert (Hcrit : (0 < List.length (filter (isSeverity Critical) p))%nat <->
                  exists d, In d defects
                    /\ ds_adjustedSeverity (calculateUtilityScore d) = Critical).
  { unfold p. rewrite prioritizeDefects_count, filter_length_pos. split.
    - intros (s & Hin & Hs). apply in_map_iff in Hin.
      destruct Hin as (d & <- & Hd). exists d. split; [exact Hd|].
      unfold isSeverity in Hs.
      destruct (ds_adjustedSeverity (calculateUtilityScore d));
        trivial; discriminate.
    - intros (d & Hd & Hs). exists (calculateUtilityScore d).
      split; [now apply in_map|]. unfold isSeverity. now rewrite Hs. }
  assert (Hrisk :
    (if (Z.of_nat (List.length (filter (isSeverity Critical) p)) >? 0)%Z
     then LevelCritical
     else if (Z.of_nat (List.length (filter (isSeverity Medium) p)) >? 2)%Z
          then LevelHigh
          else if (Z.of_nat (List.length (filter (isSeverity Medium) p)) >? 0)%Z
               then LevelMedium else LevelLow) = LevelCritical <->
    (0 < List.length (filter (isSeverity Critical) p))%nat).
  { destruct (Z.of_nat (List.length (filter (isSeverity Critical) p)) >? 0)%Z
      eqn:E.
    - rewrite Z.gtb_ltb in E. apply Z.ltb_lt in E. split; [lia|reflexivity].
    - rewrite Z.gtb_ltb in E. apply Z.ltb_ge in E.
      split; [|lia].
      repeat match goal with |- context [if ?c then _ else _] => destruct c end;
        discriminate. }
  split; [|split; [|split]].
  - pose proof (severity_count_partition p). lia.
  - rewrite Hrisk. exact Hcrit.
  - intros d Hd Hs. apply Hrisk, Hcrit. exists d. split; [exact Hd|].
    unfold calculateUtilityScore; cbv zeta. cbn [ds_adjustedSeverity].
    rewrite Hs.
    match goal with |- (if ?c then _ else _) = _ => now destruct c end.
  - apply cost_totals_ordered; [|lia].
    apply prioritizeDefects_Forall; [intros r s Hs; exact Hs|].
    intros d _. apply calculateUtilityScore_costs.
Qed.

(** A hairline crack, a peeling paint reported as critical and a mould: the
    mould comes first, the paint last, and the risk is critical. *)
Lemma analyzeInspection_summary_witness :
  let defects :=
    [mkStoreDefect "d1" "hairline crack" Minor "thin line in plaster" None;
     mkStoreDefect "d2" "paint peeling" Critical "flaking on the wall" None;
     mkStoreDefect "d3" "mold" Medium "dark spots in the corner" None] in
  map ds_defectId (prioritizeDefects defects) = ["d3"; "d1"; "d2"]%string /\
  map ds_priorityRank (prioritizeDefects defects) = [1; 2; 3]%Z /\
  ia_overallRiskLevel (analyzeInspection defects) = LevelCritical.
Proof.
  cbv zeta. split; [vm_compute; reflexivity|].
  split; [vm_compute; reflexivity|].
  refine (proj1 (proj2 (proj2 (analyzeInspection_summary _)))
            (mkStoreDefect "d2" "paint peeling" Critical
                           "flaking on the wall" None) _ eq_refl).
  right; left; reflexivity.
Defined.

(** ** The store *)

Lemma storeStep_bounded state a :
  storeBounded state -> storeBounded (storeStep state a).
Proof.
  intros (Hl & Hp & Hc & Hs). unfold storeBounded.
  destruct a; cbn [storeStep];
    try match goal with
        | |- context [match s_inspectionStartTime state with _ => _ end] =>
            destruct (s_inspectionStartTime state) as [start|];
            [destruct (start =? 0)%Z|]
        end;
    cbn [s_logs s_processLogs s_consoleLogs s_screenshots];
    repeat match goal with
           | |- _ /\ _ => split
           | |- (List.length (firstn _ _) <= _)%nat => apply firstn_le_length
           | |- context [List.length (map _ _)] => rewrite length_map
           end; trivial; simpl; lia.
Qed.

(** X14.  Whatever actions the store goes through, it never holds more than
    50 log lines, 100 process logs, 200 console lines and 50 screenshots. *)
Theorem runStore_bounded (actions : list StoreAction) :
  storeBounded (runStore actions initialStore).
Proof.
  assert (H : forall state, storeBounded state ->
                            storeBounded (runStore actions state)).
  { induction actions as [|a actions IH]; intros state Hs; [exact Hs|].
    simpl. apply IH. now apply storeStep_bounded. }
  apply H. unfold storeBounded; simpl. lia.
Qed.

(** X15.  The report lists the first three nearby services, followed by
    "Structural Solutions" exactly when the analysis counts a critical
    defect; "Handyman Hub" is never listed, and the mentions of paint, tile
    and water in the defects change nothing. *)
Theorem nearbyServicesOf_shape (defects : list StoreDefect) :
  nearbyServicesOf defects
  = firstn 3 NEARBY_SERVICES
    ++ (if (ia_criticalCount (analyzeInspection defects) >? 0)%Z
        then [mkService "Structural Solutions" "Structural Engineer"]
        else []).
Proof.
  unfold nearbyServicesOf; cbv zeta.
  destruct (ia_criticalCount (analyzeInspection defects) >? 0)%Z;
    destruct (existsb _ defects);
    destruct (existsb _ defects);
    destruct (existsb _ defects); reflexivity.
Qed.

(** ** The chain of custody *)

Module ForensicSessionFacts.
Import ForensicSession.

(** An entry is appended to the chain of a session whose lists of items may
    have grown by the item that the entry names. *)
Lemma custody_append s s' e :
  custodyComplete s ->
  sessionId s' = sessionId s -> officerId s' = officerId s ->
  chainOfCustody s' = chainOfCustody s ++ [e] ->
  ce_officerId e = officerId s -> ce_sessionId e = sessionId s ->
  (ce_evidenceId e <> None <->
   isEvidenceEntry e = true \/ isAlertEntry e = true) ->
  map (fun ev => (Some (ev_id ev), evidenceAction ev)) (evidence s')
  = map (fun ev => (Some (ev_id ev), evidenceAction ev)) (evidence s)
    ++ (if isEvidenceEntry e then [(ce_evidenceId e, ce_action e)] else []) ->
  map (fun al => Some (al_id al)) (authenticityAlerts s')
  = map (fun al => Some (al_id al)) (authenticityAlerts s)
    ++ (if isAlertEntry e then [ce_evidenceId e] else []) ->
  custodyComplete s'.
Proof.
  intros ((first & rest & Hc & Hf) & Hev & Hal & Hall) Hsid Hoid Hchain
         Heo Hes Hname Hev' Hal'.
  unfold custodyComplete. rewrite Hchain, Hsid, Hoid.
  split; [|split; [|split]].
  - exists first, (rest ++ [e]). rewrite Hc. split; [reflexivity|exact Hf].
  - rewrite filter_app, map_app, Hev, Hev'. f_equal. simpl.
    now destruct (isEvidenceEntry e).
  - rewrite filter_app, map_app, Hal, Hal'. f_equal. simpl.
    now destruct (isAlertEntry e).
  - apply Forall_app. split; [exact Hall|]. constructor; [|constructor].
    repeat split; tauto.
Qed.

Lemma step_complete c ev : sessionComplete c -> sessionComplete (step c ev).
Proof.
  unfold sessionComplete. intro H.
  destruct ev as [uuid entryId caseNow startNow logNow config
                 |uuid entryId now hashNow stampNow logNow data
                 |uuid entryId stampNow logNow frameData category notes
                 |entryId endNow logNow|].
  - (* startSession *)
    simpl. unfold custodyComplete, logChainOfCustody; simpl.
    split; [|split; [|split]].
    + eexists _, []. repeat split.
    + reflexivity.
    + reflexivity.
    + constructor; [|constructor]. simpl.
      repeat split; try tauto; try discriminate.
      intros [E|E]; discriminate.
  - (* a response of the model *)
    simpl. unfold parseForensicResponse.
    destruct (session c) as [s|] eqn:Es; [|now rewrite Es].
    destruct (String.eqb _ "scanning"); [now rewrite Es|].
    destruct (String.eqb _ "authenticity_alert").
    + unfold handleAuthenticityAlert. rewrite Es. cbn [session].
      eapply (custody_append s); [exact H|reflexivity..| | |];
        unfold logChainOfCustody; simpl.
      * split; [intros _; now right | discriminate].
      * now rewrite app_nil_r.
      * now rewrite map_app.
    + destruct (_ && _); [|now rewrite Es].
      unfold handleEvidenceDetection. rewrite Es.
      destruct (Forensic.handleEvidenceDetection now (fd_evidence data) _)
        as [[e|] filtered]; cbn [session]; [|exact H].
      eapply (custody_append s); [exact H|reflexivity..| | |];
        unfold logChainOfCustody; simpl.
      * split; [intros _; now left | discriminate].
      * now rewrite map_app.
      * now rewrite app_nil_r.
  - (* a manual capture *)
    simpl. unfold captureEvidence.
    destruct (session c) as [s|] eqn:Es; cbn [snd session]; [|now rewrite Es].
    eapply (custody_append s); [exact H|reflexivity..| | |];
      unfold logChainOfCustody; simpl.
    + split; [intros _; now left | discriminate].
    + now rewrite map_app.
    + now rewrite app_nil_r.
  - (* endSession *)
    simpl. unfold endSession.
    destruct (session c) as [s|] eqn:Es; cbn [session]; [|now rewrite Es].
    eapply (custody_append s); [exact H|reflexivity..| | |];
      unfold logChainOfCustody; simpl.
    + split; [congruence | intros [E|E]; discriminate].
    + now rewrite app_nil_r.
    + now rewrite app_nil_r.
  - exact H.
Qed.

(** X16.  Whatever sessions a forensic client starts and ends, whatever
    responses of the model it handles and whatever frames are captured by
    hand, at whatever readings of the clock, the chain of custody of its
    session accounts for the session: it begins with the entry of the
    opening of the session; its entries for evidence name the items of
    evidence, one entry an item and in their order, "evidence_captured" for
    a manual capture and "evidence_detected" otherwise; its entries for
    authenticity concerns name the alerts in the same way; an entry names an
    item exactly when it is one of these; and every entry carries the officer
    and the identifier of the session. *)
Theorem chain_of_custody_complete (evs : list Event) :
  match session (run evs initial) with
  | Some s => custodyComplete s
  | None => True
  end.
Proof.
  change (sessionComplete (run evs initial)).
  assert (H : forall c, sessionComplete c -> sessionComplete (run evs c)).
  { induction evs as [|ev evs IH]; intros c Hc; [exact Hc|].
    simpl. apply IH. now apply step_complete. }
  apply H. exact I.
Qed.

Local Open Scope string_scope.

(** A session with a blood stain detected by the model, a frame captured by
    hand and an authenticity alert: the chain has the four entries and the
    closing one, each with the reading of the clock that
    [logChainOfCustody] made, after the timestamp of its item. *)
Lemma chain_of_custody_complete_witness :
  let blood :=
    mkForensicData (Some "evidence")
      (Forensic.mkEvidencePayload (Some "Blood stain") (JNum 90) JUndefined)
      None None None None in
  let alert :=
    mkForensicData (Some "authenticity_alert")
      (Forensic.mkEvidencePayload None JUndefined JUndefined)
      None (Some "staging") (Some "high") (Some "moved furniture") in
  let evs :=
    [StartSession "s1" "c0" 1000 1000 1001 (mkConfig None None None None);
     Response "e1" "c1" 2000 2001 2001 2002 blood;
     Capture "e2" "c2" 3000 3001 "frame" None None;
     Response "a1" "c3" 4000 4000 4001 4003 alert;
     EndSession "c4" 5000 5001] in
  sessionComplete (run evs initial) /\
  option_map
    (fun s =>
       (map ev_timestamp (evidence s), map al_timestamp (authenticityAlerts s),
        map (fun e => (ce_action e, ce_evidenceId e, ce_timestamp e))
            (chainOfCustody s)))
    (session (run evs initial))
  = Some ([2001; 3000]%Z, [4001]%Z,
          [("session_started", None, 1001%Z);
           ("evidence_detected", Some "e1", 2002%Z);
           ("evidence_captured", Some "e2", 3001%Z);
           ("authenticity_concern", Some "a1", 4003%Z);
           ("session_ended", None, 5001%Z)]).
Proof.
  intros blood alert evs.
  split; [exact (chain_of_custody_complete evs)|].
  vm_compute. reflexivity.
Defined.

End ForensicSessionFacts.

(** ** What is reported *)

Lemma parseBox_valid v b :
  parseBox v = Some b ->
  normalized b /\
  1 # 1000 <= boxWidthOf b * boxHeightOf b /\
  boxWidthOf b * boxHeightOf b <= 70 # 100 /\
  Qmax (boxWidthOf b) (boxHeightOf b) / Qmin (boxWidthOf b) (boxHeightOf b)
  <= 15.
Proof.
  intro H. split; [exact (parseBox_normalized _ _ H)|].
  assert (Hv : validateBox b = Some b).
  { revert H. unfold parseBox.
    destruct v as [| | | | |l|]; try discriminate.
    destruct l as [|[| | |y0| | |] l]; try discriminate.
    destruct l as [|[| | |x0| | |] l]; try discriminate.
    destruct l as [|[| | |y1| | |] l]; try discriminate.
    destruct l as [|[| | |x1| | |] l]; try discriminate.
    destruct (normalizeBox y0 x0 y1 x1) as [bx|]; [|discriminate].
    intro H. destruct (validateBox_cases bx) as [E|E]; rewrite E in H;
      [discriminate|]. injection H as <-. exact E. }
  apply validateBox_Some_iff in Hv.
  split; [|split]; apply Qnot_lt_le; intro C; apply Hv; tauto.
Qed.

(** X17.  Every defect that the property-defect client reports carries a
    non-empty label, the instant of the message and a confidence between 60
    and 100; its box, when it has one, satisfies the NormalizedBox invariant,
    covers between 0.1% and 70% of the frame and has an aspect ratio of at
    most 15. *)
Theorem reported_defect_valid now data st d st' :
  parseDefectResponse now data st = (Emitted d, st') ->
  d_type d <> ""%string /\
  d_timestamp d = now /\
  60 <= d_confidence d /\ d_confidence d <= 100 /\
  forall b, d_boundingBox d = Some b ->
    normalized b /\
    1 # 1000 <= boxWidthOf b * boxHeightOf b /\
    boxWidthOf b * boxHeightOf b <= 70 # 100 /\
    Qmax (boxWidthOf b) (boxHeightOf b) / Qmin (boxWidthOf b) (boxHeightOf b)
    <= 15.
Proof.
  intro H.
  pose proof (parseDefectResponse_emitted _ _ _ _ _ H) as (ty & Hty & -> & Hc).
  simpl. split.
  - revert H. unfold parseDefectResponse. rewrite Hty.
    destruct (truthy (p_box_2d data) && negb (isArray (p_box_2d data)));
      [discriminate|].
    simpl truthy. destruct (String.eqb ty "") eqn:E.
    + rewrite orb_true_r. discriminate.
    + intros _. now apply String.eqb_neq.
  - split; [reflexivity|]. split; [exact Hc|].
    split; [apply parseConfidence_range|].
    intros b Hb. exact (parseBox_valid (p_box_2d data) b Hb).
Qed.

Lemma reported_defect_valid_witness :
  let data := mkPayload (JStr "defect") (JStr "crack") (JNum 85)
                (JArr [JNum 200; JNum 150; JNum 450; JNum 180]) in
  let r := parseDefectResponse 7 data initialClient in
  exists d, fst r = Emitted d /\ d_type d <> ""%string /\
            60 <= d_confidence d /\ d_confidence d <= 100.
Proof.
  cbv zeta. eexists. split; [reflexivity|].
  pose proof (reported_defect_valid 7
                (mkPayload (JStr "defect") (JStr "crack") (JNum 85)
                   (JArr [JNum 200; JNum 150; JNum 450; JNum 180]))
                initialClient _ _ eq_refl) as (H1 & _ & H2 & H3 & _).
  exact (conj H1 (conj H2 H3)).
Defined.

(** ** Repeated sightings *)

Lemma sightings_from TH defectType bbox confidence times :
  IOU_THRESHOLD <= calculateIoU bbox bbox ->
  forall key d,
    td_defectType d = defectType -> td_bbox d = bbox ->
    gapsWithin (td_lastSeen d) times ->
    sightings TH defectType bbox confidence times [(key, d)]
    = map (fun i => {| isConfirmed :=
                         (td_frameCount d + Z.of_nat i >=? TH)%Z;
                       frameCount := td_frameCount d + Z.of_nat i |})
          (seq 1 (List.length times)).
Proof.
  intro Hiou. induction times as [|u rest IH]; intros key d Hty Hb Hg;
    [reflexivity|].
  destruct Hg as [Hu Hg].
  assert (E1 : (u - td_lastSeen d >? TEMPORAL_WINDOW_MS)%Z = false)
    by (rewrite Z.gtb_ltb; apply Z.ltb_ge; exact Hu).
  assert (E2 : temporalMatch defectType bbox d = true).
  { apply temporalMatch_iff. rewrite Hty, Hb.
    split; [apply sameType_refl | exact Hiou]. }
  cbn [sightings]. unfold checkTemporalConsistencyAt, cleanTemporal.
  cbn [filter snd]. rewrite E1. cbn [negb scanTemporal]. rewrite E2.
  cbn [List.length seq map].
  rewrite (IH key (temporalUpdate u confidence d) Hty Hb Hg).
  cbn [temporalUpdate td_frameCount].
  f_equal.
  rewrite <- (seq_shift (List.length rest) 1), map_map.
  apply map_ext. intro i.
  replace (td_frameCount d + 1 + Z.of_nat i)%Z
    with (td_frameCount d + Z.of_nat (S i))%Z by lia.
  reflexivity.
Qed.

(** X18.  For every threshold, successive sightings of one detection of a
    normalised box, each at most 3 s after the one before, count up from an
    empty buffer: the k-th sighting returns frame count k and is confirmed
    exactly when k has reached the threshold. *)
Theorem sightings_count_up TH defectType bbox confidence t0 times :
  normalized bbox ->
  gapsWithin t0 times ->
  sightings TH defectType bbox confidence (t0 :: times) []
  = map (fun k => {| isConfirmed := (Z.of_nat k >=? TH)%Z;
                     frameCount := Z.of_nat k |})
        (seq 1 (S (List.length times))).
Proof.
  intros Hn Hg.
  assert (Hiou : IOU_THRESHOLD <= calculateIoU bbox bbox).
  { destruct Hn as (_ & _ & _ & _ & Hy & Hx).
    rewrite calculateIoU_self; [discriminate| |].
    - split; lra.
    - unfold boxArea. apply Qmult_lt_0_compat; lra. }
  cbn [sightings]. unfold checkTemporalConsistencyAt. cbn.
  rewrite Z.geb_leb.
  rewrite (sightings_from TH defectType bbox confidence times Hiou
             (generateSpatialKey defectType bbox)
             (mkTemporal defectType bbox confidence 1 t0 t0)
             eq_refl eq_refl Hg).
  cbn [td_frameCount]. f_equal.
  rewrite <- (seq_shift (List.length times) 1), map_map.
  apply map_ext. intro i.
  replace (1 + Z.of_nat i)%Z with (Z.of_nat (S i)) by lia. reflexivity.
Qed.

(** Three sightings one second apart with threshold 3. *)
Lemma sightings_count_up_witness :
  let b := mkBBox (2 # 10) (3 # 10) (4 # 10) (5 # 10) in
  sightings 3 "crack" b 80 [0; 1000; 2000]%Z []
  = [ {| isConfirmed := false; frameCount := 1 |};
      {| isConfirmed := false; frameCount := 2 |};
      {| isConfirmed := true; frameCount := 3 |} ].
Proof.
  cbv zeta.
  refine (sightings_count_up 3 "crack"
            (mkBBox (2 # 10) (3 # 10) (4 # 10) (5 # 10)) 80 0
            [1000; 2000]%Z _ _).
  - unfold normalized; simpl.
    repeat match goal with |- _ /\ _ => split end;
      (discriminate || reflexivity).
  - simpl. repeat split; discriminate.
Defined.

(** ** The metrics of the test page *)

Lemma confusion_partition (l : list TestResult) :
  (countIf (fun r => isCracked r && tr_detected r) l
   + countIf (fun r => isCracked r && negb (tr_detected r)) l
   + countIf (fun r => negb (isCracked r) && negb (tr_detected r)) l
   + countIf (fun r => negb (isCracked r) && tr_detected r) l
   = Z.of_nat (List.length l))%Z.
Proof.
  unfold countIf. induction l as [|r l IH]; [reflexivity|].
  cbn [filter]. destruct (isCracked r), (tr_detected r);
    cbn [andb negb List.length]; lia.
Qed.

Lemma countIf_nonneg f l : (0 <= countIf f l)%Z.
Proof. unfold countIf. lia. Qed.

Lemma countIf_le f l : (countIf f l <= Z.of_nat (List.length l))%Z.
Proof. unfold countIf. pose proof (filter_length_le f l). lia. Qed.

(** A share [a / (a + b)] of non-negative integers lies between 0 and 1. *)
Lemma share_range (a b : Z) :
  (0 <= a)%Z -> (0 <= b)%Z ->
  0 <= inject_Z a / inject_Z (a + b) /\ inject_Z a / inject_Z (a + b) <= 1.
Proof.
  intros Ha Hb.
  destruct (Z.eq_dec (a + b) 0) as [E|E].
  - assert (H : inject_Z a / inject_Z (a + b) == 0).
    { rewrite E. unfold Qdiv. change (/ inject_Z 0) with 0.
      apply Qmult_0_r. }
    rewrite H. split; discriminate.
  - assert (Hp : 0 < inject_Z (a + b)).
    { change 0 with (inject_Z 0). rewrite <- Zlt_Qlt. lia. }
    split.
    + apply Qle_shift_div_l; [exact Hp|]. rewrite Qmult_0_l.
      change 0 with (inject_Z 0). rewrite <- Zle_Qle. exact Ha.
    + apply Qle_shift_div_r; [exact Hp|]. rewrite Qmult_1_l.
      rewrite <- Zle_Qle. lia.
Qed.

Lemma harmonic_range p r :
  0 <= p -> p <= 1 -> 0 <= r -> r <= 1 ->
  0 <= 2 * (p * r) / (p + r) /\ 2 * (p * r) / (p + r) <= 1.
Proof.
  intros Hp0 Hp1 Hr0 Hr1.
  destruct (Qeq_dec (p + r) 0) as [E|E].
  - assert (H : 2 * (p * r) / (p + r) == 0).
    { rewrite E. unfold Qdiv. change (/ 0) with 0. apply Qmult_0_r. }
    rewrite H. split; discriminate.
  - assert (Hs : 0 < p + r).
    { apply Qnot_le_lt. intro H. apply E. lra. }
    split.
    + apply Qle_shift_div_l; [exact Hs|]. nra.
    + apply Qle_shift_div_r; [exact Hs|]. nra.
Qed.

(** X19.  The metrics of the test page: the four confusion counts add up to
    the number of results; precision, recall and F1 lie between 0 and 100
    and are all 0 when there is no true positive (a zero denominator gives
    0, never an error); the accuracy of a non-empty run lies between 0 and
    100; and when every result was recorded by the page, the number of
    correct results is the number of true positives plus true negatives. *)
Theorem calculateMetrics_ranges (testResults : list TestResult) :
  let m := calculateMetrics testResults in
  (m_truePositives m + m_falseNegatives m + m_trueNegatives m
   + m_falsePositives m = m_total m)%Z /\
  (0 <= m_precision m /\ m_precision m <= 100) /\
  (0 <= m_recall m /\ m_recall m <= 100) /\
  (0 <= m_f1 m /\ m_f1 m <= 100) /\
  (m_truePositives m = 0%Z ->
   m_precision m == 0 /\ m_recall m == 0 /\ m_f1 m == 0) /\
  (testResults <> [] -> 0 <= m_accuracy m /\ m_accuracy m <= 100) /\
  ((forall r, In r testResults ->
              r = recordResult (tr_expected r) (tr_detected r)) ->
   m_correct m = (m_truePositives m + m_trueNegatives m)%Z).
Proof.
  cbv zeta. unfold calculateMetrics; cbv zeta. simpl.
  set (tp := countIf (fun r => isCracked r && tr_detected r) testResults).
  set (fn := countIf (fun r => isCracked r && negb (tr_detected r))
                     testResults).
  set (tn := countIf (fun r => negb (isCracked r) && negb (tr_detected r))
                     testResults).
  set (fp := countIf (fun r => negb (isCracked r) && tr_detected r)
                     testResults).
  assert (Htp : (0 <= tp)%Z) by apply countIf_nonneg.
  assert (Hfn : (0 <= fn)%Z) by apply countIf_nonneg.
  assert (Hfp : (0 <= fp)%Z) by apply countIf_nonneg.
  destruct (share_range tp fp Htp Hfp) as [P0 P1].
  destruct (share_range tp fn Htp Hfn) as [R0 R1].
  destruct (harmonic_range _ _ P0 P1 R0 R1) as [F0 F1].
  split; [apply confusion_partition|].
  split; [split; lra|]. split; [split; lra|]. split; [split; lra|].
  split; [|split].
  - intro E. rewrite E.
    assert (Z0 : forall d, inject_Z 0 / d == 0)
      by (intro d; unfold Qdiv; apply Qmult_0_l).
    rewrite !Z0. split; [|split]; reflexivity.
  - intro Hne.
    assert (Hlen : (0 < Z.of_nat (List.length testResults))%Z)
      by (destruct testResults; [contradiction|simpl; lia]).
    pose proof (countIf_nonneg tr_correct testResults) as C0.
    pose proof (countIf_le tr_correct testResults) as C1.
    assert (Hp : 0 < inject_Z (Z.of_nat (List.length testResults))).
    { change 0 with (inject_Z 0). rewrite <- Zlt_Qlt. exact Hlen. }
    assert (A0 : 0 <= inject_Z (countIf tr_correct testResults)
                      / inject_Z (Z.of_nat (List.length testResults))).
    { apply Qle_shift_div_l; [exact Hp|]. rewrite Qmult_0_l.
      change 0 with (inject_Z 0). rewrite <- Zle_Qle. exact C0. }
    assert (A1 : inject_Z (countIf tr_correct testResults)
                 / inject_Z (Z.of_nat (List.length testResults)) <= 1).
    { apply Qle_shift_div_r; [exact Hp|]. rewrite Qmult_1_l.
      rewrite <- Zle_Qle. exact C1. }
    split; lra.
  - intro Hrec. unfold tp, tn, countIf. clear - Hrec.
    induction testResults as [|r l IH]; [reflexivity|].
    assert (Hr := Hrec r (or_introl eq_refl)).
    specialize (IH (fun x Hx => Hrec x (or_intror Hx))).
    destruct r as [e d c]. unfold recordResult in Hr. simpl in Hr.
    injection Hr as Hc. rewrite Hc.
    destruct e, d;
      cbn [filter isCracked tr_expected tr_detected tr_correct andb negb
           Bool.eqb List.length];
      rewrite ?Nat2Z.inj_succ; lia.
Qed.

(** * Properties of binary64 numbers *)

Section Binary64Numbers.
Import PrimFloat SpecFloat FloatOps FloatAxioms.
Local Open Scope float_scope.

Lemma SFcompare_refl s : s <> S754_nan -> SFcompare s s = Some Eq.
Proof.
  destruct s as [sg|sg| |sg m e]; intro H; try congruence; simpl.
  - reflexivity.
  - now destruct sg.
  - rewrite Z.compare_refl, Pos.compare_cont_refl. now destruct sg.
Qed.

Lemma is_nan_iff x : is_nan x = true <-> Prim2SF x = S754_nan.
Proof.
  unfold is_nan. rewrite eqb_spec, negb_true_iff. unfold SFeqb.
  split.
  - intro H. destruct (Prim2SF x) eqn:E; try reflexivity;
      rewrite SFcompare_refl in H by discriminate; discriminate.
  - intros ->. reflexivity.
Qed.

Lemma is_nan_false_iff x : is_nan x = false <-> Prim2SF x <> S754_nan.
Proof.
  rewrite <- is_nan_iff. destruct (is_nan x); split; congruence.
Qed.

(** The representation of a finite number. *)
Lemma is_finite_iff x :
  is_finite x = true <->
  (exists sg, Prim2SF x = S754_zero sg)
  \/ exists sg m e, Prim2SF x = S754_finite sg m e.
Proof.
  unfold is_finite, is_infinity.
  rewrite negb_true_iff, orb_false_iff, is_nan_false_iff.
  rewrite eqb_spec, abs_spec.
  change (Prim2SF infinity) with (S754_infinity false).
  destruct (Prim2SF x) as [sg|sg| |sg m e]; simpl; split.
  - intros _. left. now exists sg.
  - intros _. split; [discriminate|reflexivity].
  - intros [_ H]. discriminate.
  - intros [(sg' & H)|(sg' & m & e & H)]; discriminate.
  - intros [H _]. congruence.
  - intros [(sg' & H)|(sg' & m & e & H)]; discriminate.
  - intros _. right. now exists sg, m, e.
  - intros _. split; [discriminate|reflexivity].
Qed.

(** A finite number minus itself is +0. *)
Lemma sub_diag x : is_finite x = true -> x - x = 0.
Proof.
  intro H. apply Prim2SF_inj. rewrite sub_spec.
  change (Prim2SF 0) with (S754_zero false).
  apply is_finite_iff in H.
  destruct H as [(sg & ->)|(sg & m & e & ->)].
  - now destruct sg.
  - unfold SF64sub, SFsub. rewrite Z.sub_diag. reflexivity.
Qed.

Lemma SFcompare_None_iff s1 s2 :
  SFcompare s1 s2 = None <-> s1 = S754_nan \/ s2 = S754_nan.
Proof.
  destruct s1 as [a|a| |a m e], s2 as [b|b| |b n f]; simpl;
    split; intro H; try discriminate; try tauto;
    try (destruct H; discriminate).
Qed.

Lemma SFcompare_antisym s1 s2 c :
  SFcompare s1 s2 = Some c -> SFcompare s2 s1 = Some (CompOpp c).
Proof.
  destruct s1 as [a|a| |a m e], s2 as [b|b| |b n f]; simpl;
    try discriminate;
    try (intro H; injection H as <-;
         repeat match goal with x : bool |- _ => destruct x end;
         reflexivity).
  intro H. injection H as <-. f_equal.
  rewrite (Z.compare_antisym e f).
  assert (Hm : Pos.compare_cont Eq n m = CompOpp (Pos.compare_cont Eq m n))
    by (symmetry; apply (Pos.compare_cont_antisym m n Eq)).
  rewrite Hm.
  destruct a, b; simpl; try reflexivity;
    destruct (e ?= f)%Z; simpl; try reflexivity;
    destruct (Pos.compare_cont Eq m n); reflexivity.
Qed.

(** On numbers that are not NaN, [a <= b] fails exactly when [b < a]. *)
Lemma leb_false_ltb a b :
  is_nan a = false -> is_nan b = false ->
  (a <=? b) = false -> (b <? a) = true.
Proof.
  rewrite !is_nan_false_iff, leb_spec, ltb_spec. unfold SFleb, SFltb.
  intros Ha Hb.
  destruct (SFcompare (Prim2SF a) (Prim2SF b)) as [c|] eqn:E.
  - rewrite (SFcompare_antisym _ _ _ E). now destruct c.
  - apply SFcompare_None_iff in E. tauto.
Qed.

Lemma ltb_leb_false a b : (a <? b) = true -> (b <=? a) = false.
Proof.
  rewrite leb_spec, ltb_spec. unfold SFleb, SFltb.
  destruct (SFcompare (Prim2SF a) (Prim2SF b)) as [c|] eqn:E;
    [|discriminate].
  rewrite (SFcompare_antisym _ _ _ E). now destruct c.
Qed.

Lemma Math_max_not_nan a b :
  is_nan a = false -> is_nan b = false ->
  is_nan (Binary64.Math_max a b) = false.
Proof.
  intros Ha Hb. unfold Binary64.Math_max. rewrite Ha, Hb. simpl.
  repeat match goal with |- context [if ?c then _ else _] => destruct c end;
    assumption.
Qed.

Lemma Math_min_not_nan a b :
  is_nan a = false -> is_nan b = false ->
  is_nan (Binary64.Math_min a b) = false.
Proof.
  intros Ha Hb. unfold Binary64.Math_min. rewrite Ha, Hb. simpl.
  repeat match goal with |- context [if ?c then _ else _] => destruct c end;
    assumption.
Qed.

End Binary64Numbers.

(** * The two embeddings at a threshold *)

Section Rounding.
Import PrimFloat.

(** The boxes (0, 0, 1, 0.3) and (0, 0.1, 1, 0.4) overlap with an IoU of
    exactly one half, which the program computes as 0.4999999999999998; the
    box (0.2, 0.2, 0.3, 0.21) has an area of exactly 0.001, which the
    program computes as 0.0009999999999999979. *)
Lemma rounding_at_the_thresholds :
  calculateIoU (mkBBox 0 0 1 (3 # 10)) (mkBBox 0 (1 # 10) 1 (4 # 10))
  == 1 # 2 /\
  Binary64.calculateIoU (Binary64.mkBBox 0 0 1 0.3)
                        (Binary64.mkBBox 0 0.1 1 0.4)
  = 0.49999999999999978%float /\
  validateBox (mkBBox (2 # 10) (2 # 10) (3 # 10) (21 # 100))
  = Some (mkBBox (2 # 10) (2 # 10) (3 # 10) (21 # 100)) /\
  ((0.21 - 0.2) * (0.3 - 0.2) = 0.00099999999999999785)%float /\
  Binary64.validateBox (Binary64.mkBBox 0.2 0.2 0.3 0.21) = None.
Proof. repeat split. Qed.

End Rounding.

(** * Labels up to case *)

Lemma isUpperCase_iff c :
  isUpperCase c = true <-> upperCaseCode (nat_of_ascii c).
Proof.
  unfold isUpperCase, upperCaseCode; cbv zeta.
  rewrite orb_true_iff, !andb_true_iff, negb_true_iff, !Nat.leb_le,
    Nat.eqb_neq.
  lia.
Qed.

Lemma lower_ascii_code c :
  nat_of_ascii (lower_ascii c)
  = if isUpperCase c then (nat_of_ascii c + 32)%nat else nat_of_ascii c.
Proof.
  unfold lower_ascii. destruct (isUpperCase c) eqn:E; [|reflexivity].
  apply nat_ascii_embedding. apply isUpperCase_iff in E.
  unfold upperCaseCode in E. lia.
Qed.

Lemma nat_of_ascii_inj c1 c2 : nat_of_ascii c1 = nat_of_ascii c2 -> c1 = c2.
Proof.
  intro H. rewrite <- (ascii_nat_embedding c1), <- (ascii_nat_embedding c2).
  now rewrite H.
Qed.

Lemma lower_ascii_eq_iff c1 c2 :
  lower_ascii c1 = lower_ascii c2 <-> sameLetter c1 c2.
Proof.
  split.
  - intro H. apply (f_equal nat_of_ascii) in H.
    rewrite !lower_ascii_code in H. unfold sameLetter.
    destruct (isUpperCase c1) eqn:E1, (isUpperCase c2) eqn:E2.
    + left. apply nat_of_ascii_inj. lia.
    + right; left. apply isUpperCase_iff in E1. split; [exact E1|lia].
    + right; right. apply isUpperCase_iff in E2. split; [exact E2|lia].
    + left. now apply nat_of_ascii_inj.
  - intro H. apply nat_of_ascii_inj. rewrite !lower_ascii_code.
    destruct H as [->|[[Hu He]|[Hu He]]]; [reflexivity| |].
    + assert (E1 : isUpperCase c1 = true) by now apply isUpperCase_iff.
      assert (E2 : isUpperCase c2 = false).
      { destruct (isUpperCase c2) eqn:E; [|reflexivity].
        apply isUpperCase_iff in E. unfold upperCaseCode in *. lia. }
      rewrite E1, E2. lia.
    + assert (E2 : isUpperCase c2 = true) by now apply isUpperCase_iff.
      assert (E1 : isUpperCase c1 = false).
      { destruct (isUpperCase c1) eqn:E; [|reflexivity].
        apply isUpperCase_iff in E. unfold upperCaseCode in *. lia. }
      rewrite E1, E2. lia.
Qed.

Lemma toLowerCase_eq_iff a b :
  toLowerCase a = toLowerCase b <-> equalIgnoringCase a b.
Proof.
  split.
  - revert b. induction a as [|c1 a IH]; intros [|c2 b] H; simpl in H;
      try discriminate; [constructor|].
    injection H as Hc Hs. constructor; [now apply lower_ascii_eq_iff|].
    now apply IH.
  - induction 1 as [|c1 c2 s1 s2 Hc _ IH]; simpl; [reflexivity|].
    apply lower_ascii_eq_iff in Hc. now rewrite Hc, IH.
Qed.

(** The comparison of the lower-cased labels decides equality up to case. *)
Lemma sameType_iff a b : sameType a b = true <-> equalIgnoringCase a b.
Proof.
  unfold sameType. now rewrite String.eqb_eq, toLowerCase_eq_iff.
Qed.

Lemma equalIgnoringCase_refl a : equalIgnoringCase a a.
Proof. apply sameType_iff, String.eqb_refl. Qed.

(** Beyond ASCII: the code units 201 and 233 (E with acute accent, capital
    and small) are one type; 215 and 247 (the multiplication and the division
    sign, which are no letters) are two. *)
Lemma sameType_beyond_ASCII :
  sameType (String "201" "") (String "233" "") = true /\
  sameType (String "215" "") (String "247" "") = false /\
  sameType "Water STAIN" "water stain" = true.
Proof. repeat split. Qed.

(** * The spelling of keys *)








(** * [Map.prototype.set] *)



(** * The filter chain on binary64 numbers: properties *)

Section Binary64Chain.
Import PrimFloat Binary64.
Local Open Scope float_scope.

(** ** Box validation *)



(** ** Non-maximum suppression *)







(** ** Deduplication *)

Lemma scanRecent_true_iff_b64 tol defectType bbox l :
  scanRecent tol defectType bbox l = true <->
  exists r, In r l /\ duplicateOf tol defectType bbox r.
Proof.
  induction l as [|recent rest IH]; simpl.
  - split; [discriminate | intros (r & [] & _)].
  - destruct (sameType (rd_defectType recent) defectType) eqn:Et; simpl.
    + assert (Ht : equalIgnoringCase (rd_defectType recent) defectType)
        by now apply sameType_iff.
      destruct bbox as [b|].
      * destruct (rd_bbox recent) as [rb|] eqn:Er.
        -- destruct (centerDistance b rb <? tol) eqn:Ed.
           ++ split; [intros _|reflexivity].
              exists recent. split; [now left|]. split; [exact Ht|].
              left. exists b, rb. repeat split; trivial.
           ++ rewrite IH. split.
              ** intros (r & Hin & Hd). exists r. split; [now right|exact Hd].
              ** intros (r & [<-|Hin] & Hd); [|now exists r].
                 exfalso.
                 destruct Hd as (_ & [(b' & rb' & Hb & Hrb & Hn)|[Hb|Hrb]]);
                   congruence.
        -- split; [intros _|reflexivity].
           exists recent. split; [now left|]. split; [exact Ht|].
           right; right. exact Er.
      * split; [intros _|reflexivity].
        exists recent. split; [now left|]. split; [exact Ht|].
        right; left. reflexivity.
    + rewrite IH. split.
      * intros (r & Hin & Hd). exists r. split; [now right|exact Hd].
      * intros (r & [<-|Hin] & Hd); [|now exists r].
        destruct Hd as (Ht & _). apply sameType_iff in Ht. congruence.
Qed.

Lemma isDuplicateWith_true_iff_b64 window tol now defectType bbox l :
  fst (isDuplicateWith window tol now defectType bbox l) = true <->
  exists r, In r l /\ (now - rd_timestamp r < window)%Z /\
            duplicateOf tol defectType bbox r.
Proof.
  unfold isDuplicateWith; simpl. rewrite scanRecent_true_iff_b64.
  unfold pruneRecent. split.
  - intros (r & Hin & Hd). apply filter_In in Hin. destruct Hin as [Hin Hw].
    apply Z.ltb_lt in Hw. now exists r.
  - intros (r & Hin & Hw & Hd). exists r. split; [|exact Hd].
    apply filter_In. split; [exact Hin|]. now apply Z.ltb_lt.
Qed.

(** The distance of a box with a finite centre from itself is computed as
    0. *)
Lemma centerDistance_self b : finiteCentre b -> centerDistance b b = 0.
Proof.
  intros [Hx Hy]. unfold centerDistance; cbv zeta.
  rewrite (sub_diag _ Hx), (sub_diag _ Hy). reflexivity.
Qed.

(** A detection recorded at [t0] and reported again, identically, at [now]:
    a duplicate inside the window, not a duplicate once the window has
    passed. *)
Lemma isDuplicateWith_again_b64 window tol now t0 defectType bbox :
  (0 <? tol) = true ->
  (forall b, bbox = Some b -> finiteCentre b) ->
  fst (isDuplicateWith window tol now defectType bbox
                       (trackDetection t0 defectType bbox []))
  = (now - t0 <? window)%Z.
Proof.
  intros Htol Hfin. unfold isDuplicateWith, trackDetection, pruneRecent; simpl.
  destruct (now - t0 <? window)%Z; simpl; [|reflexivity].
  assert (Et : sameType defectType defectType = true)
    by apply String.eqb_refl.
  rewrite Et; simpl.
  destruct bbox as [b|]; [|reflexivity].
  rewrite (centerDistance_self b (Hfin b eq_refl)), Htol. reflexivity.
Qed.

(** C2, counterexample.  A boxed candidate is a duplicate of a retained
    record of its type that has no box, although the two are neither both
    boxed nor both box-less, as the specification requires of a duplicate. *)
Lemma isDuplicate_boxed_against_boxless :
  let b := mkBBox 0.2 0.15 0.45 0.18 in
  let r := mkRecent "crack" None 0 in
  fst (isDuplicate 1 "crack" (Some b) [r]) = true /\
  ~ (exists r', In r' [r] /\
                (1 - rd_timestamp r' < 30000)%Z /\
                specDuplicateOf 0.15 "crack" (Some b) r').
Proof.
  cbv zeta. split; [reflexivity|].
  intros (r' & [<-|[]] & _ & _ & [(b' & rb & _ & Hrb & _)|(Hb & _)]);
    simpl in *; discriminate.
Qed.

(** C2 (amended).  The deduplication check answers true exactly when some
    recorded detection younger than the window has the same type label,
    case-insensitively, and either both sides have boxes and the distance
    between their centres, as the check computes it, is below the spatial
    tolerance, or the candidate or the record has no box.  The window is 30 s
    and the tolerance 0.15 in the property-defect client, 45 s and 0.12 in
    the forensic client.  An identical detection (with a box of finite
    centre, or without a box) reported again 1 ms before the window expires
    is a duplicate; 1 ms after, it is not. *)
Theorem isDuplicate_characterisation :
  (forall now defectType bbox l,
     fst (isDuplicate now defectType bbox l) = true <->
     exists r, In r l /\ (now - rd_timestamp r < 30000)%Z /\
               duplicateOf 0.15 defectType bbox r) /\
  (forall now evidenceType bbox l,
     fst (Forensic_isDuplicate now evidenceType bbox l) = true <->
     exists r, In r l /\ (now - rd_timestamp r < 45000)%Z /\
               duplicateOf 0.12 evidenceType bbox r) /\
  (forall t0 defectType bbox,
     (forall b, bbox = Some b -> finiteCentre b) ->
     fst (isDuplicate (t0 + 30000 + 1) defectType bbox
                      (trackDetection t0 defectType bbox [])) = false /\
     fst (isDuplicate (t0 + 30000 - 1) defectType bbox
                      (trackDetection t0 defectType bbox [])) = true) /\
  (forall t0 evidenceType bbox,
     (forall b, bbox = Some b -> finiteCentre b) ->
     fst (Forensic_isDuplicate (t0 + 45000 + 1) evidenceType bbox
                               (trackDetection t0 evidenceType bbox []))
     = false /\
     fst (Forensic_isDuplicate (t0 + 45000 - 1) evidenceType bbox
                               (trackDetection t0 evidenceType bbox []))
     = true).
Proof.
  split; [|split; [|split]].
  - intros. apply isDuplicateWith_true_iff_b64.
  - intros. apply isDuplicateWith_true_iff_b64.
  - intros t0 defectType bbox Hfin. unfold isDuplicate.
    rewrite !isDuplicateWith_again_b64 by (reflexivity || exact Hfin).
    split; [apply Z.ltb_ge | apply Z.ltb_lt]; unfold DEDUP_TIME_WINDOW_MS; lia.
  - intros t0 evidenceType bbox Hfin. unfold Forensic_isDuplicate.
    rewrite !isDuplicateWith_again_b64 by (reflexivity || exact Hfin).
    split; [apply Z.ltb_ge | apply Z.ltb_lt];
      unfold Forensic.DEDUP_TIME_WINDOW_MS; lia.
Qed.

(** The centres of the boxes (0, 0, 0.5, 0.5) and (0.12, 0.09, 0.62, 0.59)
    are computed 0.14999999999999997 apart, and those of (0, 0, 0.5, 0.5) and
    (0.096, 0.072, 0.596, 0.572) 0.11999999999999995 apart: a "Crack" at the
    second box is a duplicate of a "crack" at the first, in either client. *)
Lemma isDuplicate_at_the_tolerance :
  let r := mkRecent "crack" (Some (mkBBox 0 0 0.5 0.5)) 0 in
  centerDistance (mkBBox 0.12 0.09 0.62 0.59) (mkBBox 0 0 0.5 0.5)
  = 0.14999999999999997 /\
  centerDistance (mkBBox 0.096 0.072 0.596 0.572) (mkBBox 0 0 0.5 0.5)
  = 0.11999999999999995 /\
  fst (isDuplicate 1000 "Crack" (Some (mkBBox 0.12 0.09 0.62 0.59)) [r])
  = true /\
  fst (Forensic_isDuplicate 1000 "Crack"
         (Some (mkBBox 0.096 0.072 0.596 0.572)) [r])
  = true.
Proof. cbv zeta. repeat split. Qed.

(** ** Temporal consistency *)






Section TemporalProofs64.
Variable TH : Z.
Variables (now : Z) (defectType : string) (bbox : BBox) (confidence : float).



End TemporalProofs64.



(** ** Reachable states of the property-defect client *)

Lemma parseConfidence_not_nan v :
  match v with JNum n => is_nan n = false | _ => True end ->
  is_nan (parseConfidence v) = false.
Proof.
  intro H. unfold parseConfidence.
  apply Math_max_not_nan; [reflexivity|].
  apply Math_min_not_nan; [reflexivity|].
  destruct v; try reflexivity. exact H.
Qed.

(** How a message changes the NMS list. *)
Lemma parseDefectResponse_confirmed now data st :
  let st' := snd (parseDefectResponse now data st) in
  confirmedDetections st' = confirmedDetections st \/
  exists defectType bbox,
    confirmedDetections st'
    = checkThenTrack now defectType bbox
                     (parseConfidence (p_confidence data))
                     (confirmedDetections st).
Proof.
  cbv zeta. unfold parseDefectResponse, checkThenTrack.
  destruct (truthy (p_box_2d data) && negb (isArray (p_box_2d data)));
    [simpl; tauto|].
  destruct (_ || _); [simpl; tauto|].
  destruct (p_defectType data) as [| | | |defectType| |]; try (simpl; tauto).
  destruct (_ <? MIN_CONFIDENCE_THRESHOLD); [simpl; tauto|].
  destruct (isDuplicate _ _ _ _) as [[|] recent]; [simpl; tauto|].
  destruct (parseBox (p_box_2d data)) as [bbox|]; [|simpl; tauto].
  set (confidence := parseConfidence (p_confidence data)).
  destruct (checkTemporalConsistency now defectType bbox confidence
                                     (temporalBuffer st))
    as [temporal buffer].
  destruct (negb (isConfirmed temporal)); [simpl; tauto|].
  destruct (shouldSuppressNMS now defectType bbox confidence
                              (confirmedDetections st))
    as [suppress confirmed] eqn:En.
  right. exists defectType, bbox. fold confidence. rewrite ?En.
  now destruct suppress.
Qed.

Lemma Forall_filter {A} (P : A -> Prop) f l :
  Forall P l -> Forall P (filter f l).
Proof.
  rewrite !Forall_forall. intros H x Hx. apply filter_In in Hx. now apply H.
Qed.

(** Check-then-track never lets an overlapping pair stand. *)
Lemma checkThenTrack_invariant now defectType bbox confidence l :
  is_nan confidence = false ->
  nmsInvariant l ->
  nmsInvariant (checkThenTrack now defectType bbox confidence l).
Proof.
  intros Hc [Hov Hnan]. unfold checkThenTrack, shouldSuppressNMS; cbv zeta.
  set (pruned := pruneConfirmed now l).
  assert (Hp : nmsInvariant pruned).
  { split; [now apply ForallOrdPairs_filter | now apply Forall_filter]. }
  destruct (existsb (suppressedBy bbox confidence) pruned) eqn:E;
    [exact Hp|].
  destruct Hp as [Hpo Hpn]. unfold trackConfirmedDetection. split.
  - apply ForallOrdPairs_app_one; [now apply ForallOrdPairs_filter|].
    apply Forall_forall. intros r Hr. simpl.
    apply filter_In in Hr. destruct Hr as [Hin Hs].
    assert (Hrn : is_nan (cd_confidence r) = false).
    { rewrite Forall_forall in Hpn. now apply Hpn. }
    assert (Hn : suppressedBy bbox confidence r = false).
    { destruct (suppressedBy bbox confidence r) eqn:Er; trivial.
      assert (existsb (suppressedBy bbox confidence) pruned = true);
        [|congruence].
      apply existsb_exists. now exists r. }
    unfold suppressedBy in Hn. unfold survivesTrack in Hs.
    destruct (NMS_IOU_THRESHOLD <=? calculateIoU (cd_bbox r) bbox);
      [|reflexivity].
    simpl in Hn, Hs.
    rewrite (leb_false_ltb _ _ Hc Hrn Hn) in Hs. discriminate.
  - apply Forall_app_one; [now apply Forall_filter|exact Hc].
Qed.

Lemma stepClient_nmsInvariant st ev :
  jsonEvent ev ->
  nmsInvariant (confirmedDetections st) ->
  nmsInvariant (confirmedDetections (stepClient st ev)).
Proof.
  intros Hev H. destruct ev as [now data|]; simpl.
  - destruct (parseDefectResponse_confirmed now data st)
      as [->|(ty & b & ->)]; [exact H|].
    apply checkThenTrack_invariant; [|exact H].
    now apply parseConfidence_not_nan.
  - split; constructor.
Qed.

Lemma runClient_nmsInvariant evs st :
  Forall jsonEvent evs ->
  nmsInvariant (confirmedDetections st) ->
  nmsInvariant (confirmedDetections (runClient evs st)).
Proof.
  intro Hevs. revert st. induction Hevs as [|ev evs Hev _ IH]; intros st H;
    [exact H|].
  simpl. apply IH. now apply stepClient_nmsInvariant.
Qed.

(** X5.  The NMS list of a client never holds an overlapping pair: whatever
    messages (with the numbers that [JSON.parse] produces, NaN not being one)
    and stops it has gone through, the IoU that [calculateIoU] computes
    between an earlier and a later record of [confirmedDetections] is below
    0.5. *)
Theorem confirmedDetections_never_overlap (evs : list ClientEvent) :
  Forall jsonEvent evs ->
  nonOverlapping (confirmedDetections (runClient evs initialClient)).
Proof.
  intro Hevs.
  refine (proj1 (runClient_nmsInvariant evs initialClient Hevs _)).
  split; constructor.
Qed.

(** A crack and a mold with the boxes [0, 0, 100, 30] and [0, 10, 100, 40],
    whose IoU is computed as 0.4999999999999998: both records stand in the
    list. *)
Lemma confirmedDetections_never_overlap_witness :
  let msg (label : string) box confidence :=
    mkPayload (JStr "defect") (JStr label) (JNum confidence)
              (JArr (map JNum box)) in
  let evs := [Message 0 (msg "crack"%string [0; 0; 100; 30] 90);
              Message 1000 (msg "mold"%string [0; 10; 100; 40] 80)] in
  List.length (confirmedDetections (runClient evs initialClient)) = 2%nat /\
  nonOverlapping (confirmedDetections (runClient evs initialClient)).
Proof.
  cbv zeta. split; [reflexivity|].
  apply confirmedDetections_never_overlap.
  repeat constructor.
Defined.

End Binary64Chain.
